(** * MongoDB Cloner A -> B: the resilient copy engine, the conflict
      resolver and the externalization migrator, embedded in Rocq.

    The development follows the layout of the repository:
    - [JS]      values, truthiness and thrown errors of the host language;
    - [Eff]     a state-and-exception monad for [async] code that awaits
                one driver call after the other;
    - [Clone]   src/clone/runner.ts  (cloneDatabases, cloneCollection,
                insertBatch, insertIndividually, syncIndexes);
    - [Prompts] src/cli/prompts.ts   (promptConflictResolution, ...);
    - [Cli]     src/index.ts         (runCli);
    - [Xronox]  src/xronox/runner.ts (migrateCollection, migrateDocument,
                validateCollection).

    followed by the facts proved about them ([CloneFacts], [CliFacts],
    [XronoxFacts]) on the concrete deployments of [Fixtures].

    The MongoDB server, the storage adapter and the user are the
    environment: every call that leaves the process is answered by an
    oracle that sees the whole history of the run, so the theorems hold
    for every schedule of faults.  A run is observed through the trace
    of its calls and through the destination it leaves behind.  The
    progress lines of the copy engine are not modelled; the console of
    the wizard and of the migrator is. *)

From Stdlib Require Import ZArith String Ascii List Bool Lia Sorting.Permutation
  Sorting.Sorted.
From stdpp Require Import base gmap strings list fin_maps sorting.

Local Open Scope string_scope.
Local Open Scope Z_scope.
Local Open Scope list_scope.

(* ===================================================================== *)
(** * Host-language values and errors *)
(* ===================================================================== *)

Module JS.

(** A loosely typed document body: string key -> variant value.  Objects
    keep their insertion order, as JavaScript objects do. *)
#[warnings="-register-all"]
Inductive Value : Type :=
| VUndef
| VNull
| VBool (b : bool)
| VNum (z : Z)
| VStr (s : string)
| VOid (hex : string)            (* an ObjectId, by its hex form *)
| VDate (t : Z)
| VArr (items : list Value)
| VObj (fields : list (string * Value)).

Definition Obj : Type := list (string * Value).

(** [ToBoolean]: undefined, null, false, 0 and the empty string are falsy. *)
Definition truthy (v : Value) : bool :=
  match v with
  | VUndef | VNull => false
  | VBool b => b
  | VNum z => negb (z =? 0)%Z
  | VStr s => negb (String.eqb s EmptyString)
  | VOid _ | VDate _ | VArr _ | VObj _ => true
  end.

(** [v != null] *)
Definition not_nullish (v : Value) : bool :=
  match v with VUndef | VNull => false | _ => true end.

(** [o[k]]; a missing property reads as [undefined]. *)
Fixpoint get (k : string) (o : Obj) : Value :=
  match o with
  | [] => VUndef
  | (k', v) :: rest => if String.eqb k k' then v else get k rest
  end.

(** [delete o[k]] *)
Fixpoint delete (k : string) (o : Obj) : Obj :=
  match o with
  | [] => []
  | (k', v) :: rest =>
      if String.eqb k k' then delete k rest else (k', v) :: delete k rest
  end.

(** [o[k] = v]: an existing property keeps its position. *)
Fixpoint set (k : string) (v : Value) (o : Obj) : Obj :=
  match o with
  | [] => [(k, v)]
  | (k', v') :: rest =>
      if String.eqb k k' then (k, v) :: rest else (k', v') :: set k v rest
  end.

(** [v?.k]: optional chaining through a value. *)
Definition field (k : string) (v : Value) : Value :=
  match v with VObj o => get k o | _ => VUndef end.

(** [typeof v === "boolean"], [typeof v === "number"] *)
Definition is_boolean (v : Value) : bool :=
  match v with VBool _ => true | _ => false end.
Definition is_number (v : Value) : bool :=
  match v with VNum _ => true | _ => false end.

(** ** Thrown values *)

(** What [catch (error)] can bind: a [MongoNetworkError], another [Error],
    or a value that is not an [Error] at all. *)
Inductive ErrorClass : Type := MongoNetworkError | OtherError | NotAnError.

Record Error : Type := { eclass : ErrorClass; message : string }.

Definition lower_ascii (c : ascii) : ascii :=
  let n := nat_of_ascii c in
  if (Nat.leb 65 n && Nat.leb n 90)%bool then ascii_of_nat (n + 32) else c.

Fixpoint lower (s : string) : string :=
  match s with
  | EmptyString => EmptyString
  | String c s' => String (lower_ascii c) (lower s')
  end.

Fixpoint contains (needle hay : string) : bool :=
  (String.prefix needle hay
   || match hay with
      | EmptyString => false
      | String _ hay' => contains needle hay'
      end)%bool.

(** [/(EPIPE|ETIMEDOUT|ECONNRESET|Connection closed|Socket Closed)/i.test(m)] *)
Definition network_alternatives : list string :=
  ["EPIPE"; "ETIMEDOUT"; "ECONNRESET"; "Connection closed"; "Socket Closed"].

Definition network_pattern (m : string) : bool :=
  existsb (fun alt => contains (lower alt) (lower m)) network_alternatives.

(** The classification shared by [insertBatch] and [insertIndividually]:
    [error instanceof MongoNetworkError ||
     (error instanceof Error && pattern.test(error.message))]. *)
Definition isNetworkError (error : Error) : bool :=
  match eclass error with
  | MongoNetworkError => true
  | OtherError => network_pattern (message error)
  | NotAnError => false
  end.

End JS.

(* ===================================================================== *)
(** * Effects: state, exceptions and bounded loops *)
(* ===================================================================== *)

Module Eff.

(** The result of awaiting a computation.  [OutOfFuel] is not a behaviour
    of the program: it marks a loop of the model that was given too few
    iterations, and the theorems show when it cannot happen. *)
Inductive Outcome (A : Type) : Type :=
| Ret (a : A)
| Throw (e : JS.Error)
| OutOfFuel.
Arguments Ret {A} a.
Arguments Throw {A} e.
Arguments OutOfFuel {A}.

Definition M (S A : Type) : Type := S -> Outcome A * S.

Definition ret {S A} (a : A) : M S A := fun s => (Ret a, s).
Definition throw {S A} (e : JS.Error) : M S A := fun s => (Throw e, s).
Definition out_of_fuel {S A} : M S A := fun s => (OutOfFuel, s).

Definition bind {S A B} (m : M S A) (k : A -> M S B) : M S B :=
  fun s =>
    match m s with
    | (Ret a, s') => k a s'
    | (Throw e, s') => (Throw e, s')
    | (OutOfFuel, s') => (OutOfFuel, s')
    end.

(** [try { m } catch (error) { handler error }] *)
Definition try_catch {S A} (m : M S A) (handler : JS.Error -> M S A) : M S A :=
  fun s =>
    match m s with
    | (Throw e, s') => handler e s'
    | r => r
    end.

(** [try { m } finally { cleanup }], for a cleanup that does not throw. *)
Definition try_finally {S A} (m : M S A) (cleanup : S -> S) : M S A :=
  fun s => let '(r, s') := m s in (r, cleanup s').

End Eff.

Export Eff.

Declare Scope eff_scope.
Delimit Scope eff_scope with eff.
Notation "'let*' x ':=' m 'in' k" := (bind m (fun x => k))
  (at level 10, x pattern, m at level 100, k at level 200) : eff_scope.
Notation "m '>>' k" := (bind m (fun _ => k))
  (at level 90, right associativity) : eff_scope.
Local Open Scope eff_scope.

(* ===================================================================== *)
(** * The copy engine (src/clone/runner.ts) *)
(* ===================================================================== *)

Module Clone.
Import JS.

Definition PAGE_SIZE : nat := 10.
Definition MAX_RETRIES : Z := 7.

(** A source record: its primary key and the rest of its body.  Keys are
    ordered as integers; [None] is a missing or null [_id]. *)
Record Document : Type := { _id : option Z; body : Obj }.

(** A collection is addressed as (database name, collection name). *)
Abbreviation Namespace := (string * string)%type.

Record CollectionInfo : Type := { name : string; options : option Obj }.

Record SourceCollection : Type :=
  { info : CollectionInfo; documents : list Document; indexes : list Obj }.

(** The source deployment, read-only during a run: for every database
    name the collections in the order [listCollections] enumerates them. *)
Definition Source : Type := string -> list SourceCollection.

Record Collection : Type :=
  { c_options : option Obj;
    c_docs : list Document;
    c_indexes : list (Value * Obj) }.

Definition empty_collection (o : option Obj) : Collection :=
  {| c_options := o; c_docs := []; c_indexes := [] |}.

(** ** The driver interface *)

Inductive Request : Type :=
| ListSourceCollections (db : string)
| ListDestinationCollections (db : string)
| EstimatedDocumentCount (ns : Namespace)
| AggregateCount (ns : Namespace)
| Find (ns : Namespace) (after : option Z)
| Indexes (ns : Namespace)
| DropDatabase (db : string)
| Drop (ns : Namespace)
| CreateCollection (ns : Namespace) (opts : option Obj)
| InsertMany (ns : Namespace) (docs : list Document)
| InsertOne (ns : Namespace) (doc : Document)
| CreateIndex (ns : Namespace) (key : Value) (opts : Obj)
| Ping (db : string).

(** The answer to a call.  A failed insert may still have written some of
    its documents before the error was reported: [written] marks them. *)
Inductive Response : Type :=
| Success
| Failure (e : Error) (written : list bool).

Inductive Event : Type :=
| Call (req : Request) (resp : Response)
| SetTimeout (ms : Z).

(** The environment answers every call from the history of the run. *)
Definition Env : Type := list Event -> Request -> Response.

Record World : Type :=
  { dst : gmap (string * string) Collection; trace : list Event }.

Fixpoint select {A} (mask : list bool) (l : list A) : list A :=
  match mask, l with
  | true :: mask', x :: l' => x :: select mask' l'
  | false :: mask', _ :: l' => select mask' l'
  | _, _ => []
  end.

Definition landed (resp : Response) (docs : list Document) : list Document :=
  match resp with
  | Success => docs
  | Failure _ mask => select mask docs
  end.

Definition add_docs (ns : Namespace) (ds : list Document)
    (s : gmap (string * string) Collection) : gmap (string * string) Collection :=
  match ds with
  | [] => s
  | _ =>
      let c := default (empty_collection None) (s !! ns) in
      <[ns := {| c_options := c_options c;
                 c_docs := c_docs c ++ ds;
                 c_indexes := c_indexes c |}]> s
  end.

Definition add_index (ns : Namespace) (key : Value) (opts : Obj)
    (s : gmap (string * string) Collection) : gmap (string * string) Collection :=
  let c := default (empty_collection None) (s !! ns) in
  <[ns := {| c_options := c_options c;
             c_docs := c_docs c;
             c_indexes := c_indexes c ++ [(key, opts)] |}]> s.

(** What a call does to the destination deployment. *)
Definition effect (req : Request) (resp : Response)
    (s : gmap (string * string) Collection) : gmap (string * string) Collection :=
  match req, resp with
  | DropDatabase db, Success =>
      filter (fun kv : (string * string) * Collection => kv.1.1 <> db) s
  | Drop ns, Success => base.delete ns s
  | CreateCollection ns opts, Success =>
      match s !! ns with
      | Some _ => s
      | None => <[ns := empty_collection opts]> s
      end
  | InsertMany ns docs, _ => add_docs ns (landed resp docs) s
  | InsertOne ns doc, _ => add_docs ns (landed resp [doc]) s
  | CreateIndex ns key opts, Success => add_index ns key opts s
  | _, _ => s
  end.

(** [listCollections({}, { nameOnly: true })] on a destination database. *)
Definition collection_names (db : string)
    (s : gmap (string * string) Collection) : gset string :=
  set_map snd (filter (fun ns : string * string => ns.1 = db) (dom s)).

(** ** Ordered range query: find(filter).sort({ _id: 1 }).limit(n) *)

Definition matches (after : option Z) (d : Document) : bool :=
  match after with
  | None => true
  | Some k => match _id d with Some k' => (k <? k')%Z | None => false end
  end.

(** Ascending key order; documents without a key sort first. *)
Definition id_leb (a b : option Z) : bool :=
  match a, b with
  | None, _ => true
  | Some _, None => false
  | Some x, Some y => (x <=? y)%Z
  end.

Fixpoint insert_by_id (d : Document) (l : list Document) : list Document :=
  match l with
  | [] => [d]
  | x :: l' =>
      if id_leb (_id x) (_id d) then x :: insert_by_id d l' else d :: l
  end.

Definition sort_by_id (l : list Document) : list Document :=
  fold_right insert_by_id [] l.

Definition find_page (docs : list Document) (after : option Z) : list Document :=
  firstn PAGE_SIZE (sort_by_id (List.filter (matches after) docs)).

(** ** Index and collection options *)

(** [Object.fromEntries(Object.entries(options).filter(([, v]) => v != null))] *)
Definition sanitizeOptions (options : Obj) : Obj :=
  List.filter (fun kv : string * Value => not_nullish kv.2) options.

Inductive Rule : Type := IfBoolean | IfNumber | IfTruthy | IfNotNullish.

Definition holds (r : Rule) (v : Value) : bool :=
  match r with
  | IfBoolean => is_boolean v
  | IfNumber => is_number v
  | IfTruthy => truthy v
  | IfNotNullish => not_nullish v
  end.

Definition index_option_rules : list (string * Rule) :=
  [ ("unique", IfBoolean); ("sparse", IfBoolean); ("background", IfBoolean);
    ("expireAfterSeconds", IfNumber);
    ("partialFilterExpression", IfTruthy); ("collation", IfTruthy);
    ("wildcardProjection", IfTruthy); ("weights", IfTruthy);
    ("default_language", IfTruthy); ("language_override", IfTruthy);
    ("textIndexVersion", IfNotNullish); ("2dsphereIndexVersion", IfNotNullish);
    ("bits", IfNotNullish); ("min", IfNotNullish); ("max", IfNotNullish);
    ("bucketSize", IfNotNullish); ("storageEngine", IfTruthy);
    ("hidden", IfBoolean) ].

Definition buildIndexOptions (index : Obj) : Obj :=
  fold_left
    (fun opts (kr : string * Rule) =>
       if holds kr.2 (get kr.1 index) then set kr.1 (get kr.1 index) opts
       else opts)
    index_option_rules
    [("name", get "name" index)].

Definition is_primary_key_index (index : Obj) : bool :=
  match get "name" index with
  | VStr s => String.eqb s "_id_"
  | _ => false
  end.

(** [overwrite.includes(dbName)] *)
Definition includes (l : list string) (x : string) : bool :=
  existsb (String.eqb x) l.

(** [Math.min(20_000, 500 * attempt * attempt)] *)
Definition backoff (attempt : Z) : Z := Z.min 20000 (500 * attempt * attempt).

(** [page[page.length - 1]._id ?? lastId] *)
Definition next_lastId (page : list Document) (lastId : option Z) : option Z :=
  match last page with
  | Some d => match _id d with Some k => Some k | None => lastId end
  | None => lastId
  end.

(** ** The engine *)

Section Engine.

Variable env : Env.
Variable source : Source.
(** Iterations granted to every loop of the model. *)
Variable gas : nat.

Definition record (ev : Event) (s : gmap (string * string) Collection)
    (w : World) : World :=
  {| dst := s; trace := trace w ++ [ev] |}.

(** One awaited driver call: the environment answers, the destination
    changes accordingly, and a failure is thrown to the caller. *)
Definition call (req : Request) : M World unit :=
  fun w =>
    let resp := env (trace w) req in
    let w' := record (Call req resp) (effect req resp (dst w)) w in
    match resp with
    | Success => (Ret tt, w')
    | Failure e _ => (Throw e, w')
    end.

(** [await new Promise((resolve) => setTimeout(resolve, delay))] *)
Definition sleep (ms : Z) : M World unit :=
  fun w => (Ret tt, record (SetTimeout ms) (dst w) w).

(** [command({ ping: 1 })] whose failure is swallowed (or only logged). *)
Definition ping (db : string) : M World unit :=
  try_catch (call (Ping db)) (fun _ => ret tt).

Definition sourceCollection (ns : Namespace) : option SourceCollection :=
  List.find (fun sc => String.eqb (name (info sc)) ns.2) (source ns.1).

Definition sourceDocuments (ns : Namespace) : list Document :=
  match sourceCollection ns with Some sc => documents sc | None => [] end.

Definition sourceIndexes (ns : Namespace) : list Obj :=
  match sourceCollection ns with Some sc => indexes sc | None => [] end.

(** [sourceCollection.find(filter).sort({ _id: 1 }).limit(PAGE_SIZE).toArray()] *)
Definition find (ns : Namespace) (lastId : option Z) : M World (list Document) :=
  let* _ := call (Find ns lastId) in
  ret (find_page (sourceDocuments ns) lastId).

Definition safeEstimatedCount (ns : Namespace) : M World Z :=
  try_catch
    (let* _ := call (EstimatedDocumentCount ns) in
     ret (Z.of_nat (length (sourceDocuments ns))))
    (fun _ =>
       let* _ := call (AggregateCount ns) in
       ret (Z.of_nat (length (sourceDocuments ns)))).

(** The retry loop of [insertIndividually] for one document. *)
Fixpoint insertOne_loop (fuel : nat) (ns : Namespace) (doc : Document)
    (attempt : Z) : M World unit :=
  match fuel with
  | O => out_of_fuel
  | S fuel' =>
      if (attempt <=? MAX_RETRIES)%Z then
        try_catch (call (InsertOne ns doc))
          (fun error =>
             if (negb (isNetworkError error) || (attempt >=? MAX_RETRIES)%Z)%bool
             then throw error
             else
               let* _ := sleep (backoff attempt) in
               insertOne_loop fuel' ns doc (attempt + 1))
      else ret tt
  end.

Fixpoint insertIndividually (ns : Namespace) (documents : list Document)
    : M World unit :=
  match documents with
  | [] => ret tt
  | doc :: rest =>
      let* _ := insertOne_loop gas ns doc 1 in
      insertIndividually ns rest
  end.

(** [insertBatch(destinationCollection, documents, attempt)]: the
    recursion of the source, on [attempt + 1]. *)
Fixpoint insertBatch_rec (fuel : nat) (ns : Namespace)
    (documents : list Document) (attempt : Z) : M World unit :=
  match fuel with
  | O => out_of_fuel
  | S fuel' =>
      try_catch (call (InsertMany ns documents))
        (fun error =>
           if (negb (isNetworkError error) || (attempt >=? MAX_RETRIES)%Z)%bool
           then
             (* Fallback to individual inserts before giving up *)
             insertIndividually ns documents
           else
             let* _ := sleep (backoff attempt) in
             let* _ := ping ns.1 in
             insertBatch_rec fuel' ns documents (attempt + 1))
  end.

Definition insertBatch (ns : Namespace) (documents : list Document)
    (attempt : Z) : M World unit :=
  insertBatch_rec gas ns documents attempt.

(** The [while (true)] loop of [cloneCollection]. *)
Fixpoint cloneCollection_loop (fuel : nat) (src dest : Namespace)
    (processedDocs : Z) (lastId : option Z) : M World unit :=
  match fuel with
  | O => out_of_fuel
  | S fuel' =>
      let* page := find src lastId in
      match page with
      | [] => ret tt
      | _ :: _ =>
          let* _ := insertBatch dest page 1 in
          let processedDocs := processedDocs + Z.of_nat (length page) in
          let lastId := next_lastId page lastId in
          let* _ := ping dest.1 in
          cloneCollection_loop fuel' src dest processedDocs lastId
      end
  end.

Definition cloneCollection (src dest : Namespace) : M World unit :=
  let* totalDocs := safeEstimatedCount src in
  cloneCollection_loop gas src dest 0 None.

Fixpoint syncIndexes_loop (dest : Namespace) (idxs : list Obj) : M World unit :=
  match idxs with
  | [] => ret tt
  | index :: rest =>
      if is_primary_key_index index then syncIndexes_loop dest rest
      else
        let* _ :=
          try_catch
            (call (CreateIndex dest (get "key" index) (buildIndexOptions index)))
            (fun _ => ret tt) in
        syncIndexes_loop dest rest
  end.

Definition syncIndexes (src dest : Namespace) : M World unit :=
  let* _ := call (Indexes src) in
  syncIndexes_loop dest (sourceIndexes src).

(** The loop of [cloneDatabases] over the collections of one database;
    [names] is the mutable [destinationCollectionNames] set. *)
Fixpoint collections_loop (dbName : string) (shouldOverwrite skipIndexes : bool)
    (names : gset string) (sourceCollections : list SourceCollection)
    : M World unit :=
  match sourceCollections with
  | [] => ret tt
  | collectionInfo :: rest =>
      let collectionName := name (info collectionInfo) in
      if String.eqb collectionName EmptyString then
        collections_loop dbName shouldOverwrite skipIndexes names rest
      else if (negb shouldOverwrite && bool_decide (collectionName ∈ names))%bool
      then collections_loop dbName shouldOverwrite skipIndexes names rest
      else
        let ns := (dbName, collectionName) in
        let* names :=
          (if bool_decide (collectionName ∈ names)
           then let* _ := call (Drop ns) in ret (names ∖ {[collectionName]})
           else ret names) in
        let* names :=
          (if bool_decide (collectionName ∈ names) then ret names
           else
             let collectionOptions :=
               option_map sanitizeOptions (options (info collectionInfo)) in
             let* _ :=
               try_catch (call (CreateCollection ns collectionOptions))
                 (fun _ => ret tt) in
             ret ({[collectionName]} ∪ names)) in
        let* _ := cloneCollection ns ns in
        let* _ := (if skipIndexes then ret tt else syncIndexes ns ns) in
        collections_loop dbName shouldOverwrite skipIndexes names rest
  end.

Fixpoint databases_loop (overwrite : list string) (skipIndexes : bool)
    (databases : list string) : M World unit :=
  match databases with
  | [] => ret tt
  | dbName :: rest =>
      let shouldOverwrite := includes overwrite dbName in
      let* _ := (if shouldOverwrite then call (DropDatabase dbName) else ret tt) in
      let* _ := call (ListSourceCollections dbName) in
      match source dbName with
      | [] => databases_loop overwrite skipIndexes rest
      | sourceCollections =>
          let* _ := call (ListDestinationCollections dbName) in
          let* _ :=
            (fun w =>
               collections_loop dbName shouldOverwrite skipIndexes
                 (collection_names dbName (dst w)) sourceCollections w) in
          databases_loop overwrite skipIndexes rest
      end
  end.

Record Dependencies : Type :=
  { databases : list string; overwrite : list string; skipIndexes : bool }.

Definition cloneDatabases (deps : Dependencies) : M World unit :=
  databases_loop (overwrite deps) (skipIndexes deps) (databases deps).

End Engine.

(** ** Traces *)

(** The world after one more event. *)
Definition step (w : World) (ev : Event) : World :=
  match ev with
  | Call req resp => record ev (effect req resp (dst w)) w
  | SetTimeout _ => record ev (dst w) w
  end.

(** The world after a run that produced [evs], in that order. *)
Definition replay (evs : list Event) (w : World) : World := fold_left step evs w.

Definition is_bulk (ev : Event) : bool :=
  match ev with Call (InsertMany _ _) _ => true | _ => false end.

(** The [insertOne] attempts made for [doc]. *)
Definition is_single_of (doc_id : option Z) (ev : Event) : bool :=
  match ev with
  | Call (InsertOne _ d) _ => bool_decide (_id d = doc_id)
  | _ => false
  end.

(** The delays the run slept, in order. *)
Definition timeouts (evs : list Event) : list Z :=
  flat_map (fun ev => match ev with SetTimeout ms => [ms] | _ => [] end) evs.

(** The pages a run read from a collection holding [docs]: one per
    answered range query. *)
Definition pages_read (docs : list Document) (evs : list Event)
    : list (list Document) :=
  flat_map
    (fun ev =>
       match ev with
       | Call (Find _ after) Success => [find_page docs after]
       | _ => []
       end) evs.

(** The events of the failed rounds of a bulk insert that starts at
    [attempt]: every round is the failed [insertMany] of the whole batch,
    the back-off sleep and the liveness probe. *)
Fixpoint retry_rounds (ns : Namespace) (docs : list Document) (attempt : Z)
    (fails : list (Error * list bool * Response)) : list Event :=
  match fails with
  | [] => []
  | (e, m, p) :: rest =>
      Call (InsertMany ns docs) (Failure e m)
        :: SetTimeout (backoff attempt)
        :: Call (Ping ns.1) p
        :: retry_rounds ns docs (attempt + 1) rest
  end.

Definition bulk_phase (ns : Namespace) (docs : list Document) (attempt : Z)
    (fails : list (Error * list bool * Response)) (final : Response)
    : list Event :=
  retry_rounds ns docs attempt fails ++ [Call (InsertMany ns docs) final].

(** The same for the retry loop of one document in [insertIndividually]. *)
Fixpoint single_rounds (ns : Namespace) (doc : Document) (attempt : Z)
    (fails : list (Error * list bool)) : list Event :=
  match fails with
  | [] => []
  | (e, m) :: rest =>
      Call (InsertOne ns doc) (Failure e m)
        :: SetTimeout (backoff attempt)
        :: single_rounds ns doc (attempt + 1) rest
  end.

Definition single_phase (ns : Namespace) (doc : Document) (attempt : Z)
    (fails : list (Error * list bool)) (final : Response) : list Event :=
  single_rounds ns doc attempt fails ++ [Call (InsertOne ns doc) final].

(** A request that changes the destination collection [ns], or drops the
    database that holds it. *)
Definition mutates (ns : Namespace) (req : Request) : Prop :=
  match req with
  | DropDatabase db => db = ns.1
  | Drop n | CreateCollection n _ | InsertMany n _ | InsertOne n _
  | CreateIndex n _ _ => n = ns
  | _ => False
  end.

Definition allowed_event (allowed : Request -> Prop) (ev : Event) : Prop :=
  match ev with Call req _ => allowed req | SetTimeout _ => True end.

(** Started in [w], the computation only appends events, all of them
    requests from [allowed], and changes the destination as they say. *)
Definition emits {A} (allowed : Request -> Prop) (m : M World A) (w : World)
    : Prop :=
  exists evs, (m w).2 = replay evs w /\ Forall (allowed_event allowed) evs.

(** The loops of the model were given enough iterations. *)
Definition finishes {A} (m : M World A) (w : World) : Prop :=
  (m w).1 <> OutOfFuel.

(** A read, a probe, or a write to the collection [dest] itself. *)
Definition touches_only (dest : Namespace) (req : Request) : Prop :=
  match req with
  | DropDatabase _ => False
  | Drop n | CreateCollection n _ | InsertMany n _ | InsertOne n _
  | CreateIndex n _ _ => n = dest
  | _ => True
  end.


(** The integers [a, a+1, ..., a+n-1]. *)
Fixpoint attempts_from (a : Z) (n : nat) : list Z :=
  match n with O => [] | S n' => a :: attempts_from (a + 1) n' end.

Definition key_lt (a b : Document) : Prop :=
  match _id a, _id b with
  | Some x, Some y => x < y
  | _, _ => False
  end.

Definition has_key (d : Document) : Prop := is_Some (_id d).

(** What awaiting a call yields for a given answer. *)
Definition outcome_of (final : Response) : Outcome unit :=
  match final with Success => Ret tt | Failure e _ => Throw e end.

Definition not_bulk (req : Request) : Prop :=
  match req with InsertMany _ _ => False | _ => True end.

Definition not_find (req : Request) : Prop :=
  match req with Find _ _ => False | _ => True end.

(** "A fault is fatal for a document only after its retries are
    exhausted": whenever the write of a batch throws, some document of the
    batch was tried [MAX_RETRIES] times. *)
Definition fatal_only_after_retries (env : Env) (gas : nat) (ns : Namespace)
    (docs : list Document) (w : World) : Prop :=
  forall e w',
    insertBatch env gas ns docs 1 w = (Throw e, w') ->
    exists d, In d docs /\
      length (List.filter (is_single_of (_id d)) (trace w'))
      = Z.to_nat MAX_RETRIES.

(** ** Further observations of a run *)

(** The rule that [buildIndexOptions] applies to the option [k], if any. *)
Definition rule_of (k : string) : option Rule :=
  option_map snd (List.find (fun kr : string * Rule => String.eqb k kr.1)
                    index_option_rules).

(** The requests of a run, in order. *)
Definition requests (evs : list Event) : list Request :=
  flat_map (fun ev => match ev with Call req _ => [req] | SetTimeout _ => [] end)
    evs.

(** The [createIndex] calls that replay the indexes [idxs] on [dest]. *)
Definition index_requests (dest : Namespace) (idxs : list Obj) : list Request :=
  map (fun index => CreateIndex dest (get "key" index) (buildIndexOptions index))
    (List.filter (fun index => negb (is_primary_key_index index)) idxs).

(** The documents held by the destination collection [ns]. *)
Definition docs_at (ns : Namespace) (w : World) : list Document :=
  match dst w !! ns with Some c => c_docs c | None => [] end.

(** A request that removes nothing from the destination. *)
Definition keeps_documents (req : Request) : Prop :=
  match req with
  | DropDatabase _ | Drop _ => False
  | _ => True
  end.

(** The environment answers every call with success. *)
Definition faultless (env : Env) : Prop := forall tr req, env tr req = Success.

(** The time a run spends asleep, in milliseconds. *)
Definition total_delay (evs : list Event) : Z := fold_right Z.add 0 (timeouts evs).

(** The documents that the events of a run wrote to [ns], in order. *)
Definition delivered (ns : Namespace) (evs : list Event) : list Document :=
  flat_map
    (fun ev =>
       match ev with
       | Call (InsertMany n docs) resp =>
           if decide (n = ns) then landed resp docs else []
       | Call (InsertOne n doc) resp =>
           if decide (n = ns) then landed resp [doc] else []
       | _ => []
       end) evs.

(** A request that drops nothing but a database that satisfies [P], or a
    collection of such a database. *)
Definition drops_within (P : string -> Prop) (req : Request) : Prop :=
  match req with
  | DropDatabase db => P db
  | Drop ns => P ns.1
  | _ => True
  end.

Definition never_drops_collection (req : Request) : Prop :=
  match req with Drop _ => False | _ => True end.

(** The events of writing [docs] to [ns]: inserts of these documents
    into this collection, sleeps and probes. *)
Definition writes_of (ns : Namespace) (docs : list Document) (req : Request)
    : Prop :=
  match req with
  | InsertMany n ds => n = ns /\ ds = docs
  | InsertOne n d => n = ns /\ d ∈ docs
  | Ping _ => True
  | _ => False
  end.

(** The names [listCollections] gives for the source database [db]. *)
Definition source_names (source : Source) (db : string) : list string :=
  map (fun sc => name (info sc)) (source db).

(** A request that brings a collection into being only if it is a
    collection of the source, in one of the databases [dbs]. *)
Definition creates_within (source : Source) (dbs : list string)
    (req : Request) : Prop :=
  match req with
  | CreateCollection ns _ | InsertMany ns _ | InsertOne ns _
  | CreateIndex ns _ _ =>
      In ns.1 dbs /\ In ns.2 (source_names source ns.1)
  | _ => True
  end.

End Clone.

(* ===================================================================== *)
(** * The conflict prompts (src/cli/prompts.ts) *)
(* ===================================================================== *)

Module Prompts.

(** The three choices of the select prompt. *)
Inductive Action : Type := Overwrite | Skip | Cancel.

(** The user answers a prompt about a database knowing which databases
    were asked about before. *)
Definition User : Type := list string -> string -> Action.

Record Resolution : Type :=
  { overwrite : list string; skip : list string; cancelled : bool }.

(** The [for (const dbName of conflictingDatabases)] loop; [asked] lists
    the databases the user has been prompted for so far. *)
Fixpoint promptConflictResolution_loop (user : User) (asked : list string)
    (overwrite skip : list string) (conflictingDatabases : list string)
    : Resolution * list string :=
  match conflictingDatabases with
  | [] =>
      ({| overwrite := overwrite; skip := skip; cancelled := false |}, asked)
  | dbName :: rest =>
      let asked' := asked ++ [dbName] in
      match user asked dbName with
      | Cancel =>
          ({| overwrite := overwrite; skip := skip; cancelled := true |}, asked')
      | Overwrite =>
          promptConflictResolution_loop user asked' (overwrite ++ [dbName]) skip rest
      | Skip =>
          promptConflictResolution_loop user asked' overwrite (skip ++ [dbName]) rest
      end
  end.

Definition promptConflictResolution (user : User)
    (conflictingDatabases : list string) : Resolution * list string :=
  promptConflictResolution_loop user [] [] [] conflictingDatabases.

(** [promptDatabaseSelection]: [selected] is what the user ticked. *)
Definition promptDatabaseSelection (selected databaseNames : list string)
    : list string :=
  if Clone.includes selected "[Select All]" then databaseNames else selected.

End Prompts.

(* ===================================================================== *)
(** * The orchestrating wizard (src/index.ts) *)
(* ===================================================================== *)

Module Cli.

Inductive Line : Type :=
| Log (s : string)          (* console.log *)
| Warn (s : string)         (* console.warn *)
| Err (s : string).         (* console.error *)

Inductive Decision : Type := Y | N.

(** Everything the run obtains from outside: the answers of the wizard and
    the results of connecting and listing. *)
Record Inputs : Type :=
  { sourceUri : string;
    connectSource : option JS.Error;          (* [None]: connected *)
    databaseNamesNoConfig : list string;
    ticked : list string;
    destinationUri : string;
    connectDestination : option JS.Error;
    destinationDatabases : list string;
    user : Prompts.User;
    lastDecision : Decision }.

Record State : Type :=
  { console : list Line;
    world : Clone.World;             (* the destination deployment *)
    asked : list string;             (* conflict prompts shown *)
    source : bool;                   (* [source] is defined *)
    destination : bool;              (* [destination] is defined *)
    closed : list string }.          (* connections closed *)

Definition say (l : Line) : M State unit :=
  fun s =>
    (Ret tt,
     {| console := console s ++ [l]; world := world s; asked := asked s;
        source := source s; destination := destination s;
        closed := closed s |}).

Definition log (m : string) : M State unit := say (Log m).

(** [await connectToMongo(...)], assigning the handle on success. *)
Definition connect (which : bool) (result : option JS.Error) : M State unit :=
  fun s =>
    match result with
    | Some e => (Throw e, s)
    | None =>
        (Ret tt,
         {| console := console s; world := world s; asked := asked s;
            source := if which then true else source s;
            destination := if which then destination s else true;
            closed := closed s |})
    end.

Definition note_asked (l : list string) : M State unit :=
  fun s =>
    (Ret tt,
     {| console := console s; world := world s; asked := asked s ++ l;
        source := source s; destination := destination s;
        closed := closed s |}).

(** Run the copy engine on the destination deployment. *)
Definition on_world (m : M Clone.World unit) : M State unit :=
  fun s =>
    let '(r, w) := m (world s) in
    (r,
     {| console := console s; world := w; asked := asked s;
        source := source s; destination := destination s;
        closed := closed s |}).

Definition join (l : list string) : string := String.concat ", " l.

Definition when (b : bool) (m : M State unit) : M State unit :=
  if b then m else ret tt.

Definition nonempty {A} (l : list A) : bool :=
  match l with [] => false | _ => true end.

Section Run.

(** The engine is a dependency of the wizard, as in the unit tests, which
    replace it by a spy. *)
Variable cloneDatabases : Clone.Dependencies -> M Clone.World unit.
Variable skipIndexes : bool.
Variable inp : Inputs.

(** From the computation of [databasesToClone] to the end of the [try]. *)
Definition after_resolution (selectedDatabases overwrite skip : list string)
    : M State unit :=
  let databasesToClone :=
    List.filter (fun name => negb (Clone.includes skip name)) selectedDatabases in
  match databasesToClone with
  | [] => log "No databases left to clone after resolving conflicts."
  | _ =>
      let* _ := log "Summary:" in
      let* _ := log ("  Source URI: " ++ sourceUri inp)%string in
      let* _ := log ("  Destination URI: " ++ destinationUri inp)%string in
      let* _ := log ("  Databases queued: " ++ join databasesToClone)%string in
      let* _ := when (nonempty overwrite)
                  (log ("  Will overwrite: " ++ join overwrite)%string) in
      let* _ := when skipIndexes (log "  Indexes will be skipped.") in
      match lastDecision inp with
      | N => log "Cloning cancelled by user."
      | Y =>
          let* _ :=
            on_world
              (cloneDatabases
                 {| Clone.databases := databasesToClone;
                    Clone.overwrite :=
                      List.filter (Clone.includes databasesToClone) overwrite;
                    Clone.skipIndexes := skipIndexes |}) in
          log "✅ Cloning completed successfully."
      end
  end.

(** The body of the [try] block. *)
Definition attempt : M State unit :=
  let* _ := log "Connecting to MongoDB..." in
  let* _ := connect true (connectSource inp) in
  let* _ := log "✓ Connected successfully!" in
  match databaseNamesNoConfig inp with
  | [] => log "No databases found to clone."
  | _ =>
      let selectedDatabases :=
        Prompts.promptDatabaseSelection (ticked inp) (databaseNamesNoConfig inp) in
      match selectedDatabases with
      | [] => log "No databases selected. Exiting."
      | _ =>
          let* _ := log ("Ready to clone: " ++ join selectedDatabases)%string in
          let* _ := log "Connecting to destination MongoDB..." in
          let* _ := connect false (connectDestination inp) in
          let* _ := log "✓ Connected successfully!" in
          let conflictingDatabases :=
            List.filter (Clone.includes (destinationDatabases inp))
              selectedDatabases in
          match conflictingDatabases with
          | [] =>
              let* _ := log "No conflicts detected on destination." in
              after_resolution selectedDatabases [] []
          | _ =>
              let '(resolution, prompts) :=
                Prompts.promptConflictResolution (user inp) conflictingDatabases in
              let* _ := note_asked prompts in
              if Prompts.cancelled resolution then
                log "Cloning cancelled by user due to conflicts."
              else
                let overwrite := Prompts.overwrite resolution in
                let skip := Prompts.skip resolution in
                let* _ := when (nonempty overwrite)
                            (log ("Will overwrite: " ++ join overwrite)%string) in
                let* _ := when (nonempty skip)
                            (log ("Will skip: " ++ join skip)%string) in
                after_resolution selectedDatabases overwrite skip
          end
      end
  end.

(** The [finally] block: both handles are closed when they are defined. *)
Definition release (s : State) : State :=
  {| console := console s; world := world s; asked := asked s;
     source := source s; destination := destination s;
     closed := closed s
               ++ (if source s then ["source"] else [])
               ++ (if destination s then ["destination"] else []) |}.

Definition runCli : M State unit :=
  let* _ := log "Welcome to MongoDB Cloner" in
  try_finally
    (try_catch attempt
       (fun error =>
          say (Err ("❌ Cloning failed: " ++ JS.message error)%string)))
    release.

End Run.

Definition initial (w : Clone.World) : State :=
  {| console := []; world := w; asked := []; source := false;
     destination := false; closed := [] |}.

(** ** Observations of a run of the wizard *)

(** Every run of the computation takes a state to a state related by [R]. *)
Definition relates (R : State -> State -> Prop) (m : M State unit) : Prop :=
  forall s, R s (m s).2.

(** The destination deployment is left alone. *)
Definition same_world (s s' : State) : Prop := world s' = world s.


(** The destination deployment changes at most through one call of the
    engine, with dependencies that satisfy [P]. *)
Definition calls_once (engine : Clone.Dependencies -> M Clone.World unit)
    (P : Clone.Dependencies -> Prop) (m : M State unit) : Prop :=
  forall s,
    world (m s).2 = world s \/
    exists deps, P deps /\ world (m s).2 = (engine deps (world s)).2.

(** What the wizard may pass to the engine. *)
Record Sanctioned (skipIndexes : bool) (inp : Inputs)
    (deps : Clone.Dependencies) : Prop :=
  { confirmed : lastDecision inp = Y;
    connected : connectSource inp = None /\ connectDestination inp = None;
    same_flag : Clone.skipIndexes deps = skipIndexes;
    something_queued : Clone.databases deps <> [];
    queued_were_selected :
      forall db, In db (Clone.databases deps) ->
        In db (Prompts.promptDatabaseSelection (ticked inp)
                 (databaseNamesNoConfig inp));
    queued_conflicts_were_chosen :
      forall db, In db (Clone.databases deps) ->
        In db (destinationDatabases inp) ->
        In db (Clone.overwrite deps);
    overwritten_were_chosen :
      forall db, In db (Clone.overwrite deps) ->
        In db (Clone.databases deps) /\ In db (destinationDatabases inp) /\
        exists before, user inp before db = Prompts.Overwrite }.

End Cli.

(* ===================================================================== *)
(** * The externalization migrator (src/xronox/runner.ts) *)
(* ===================================================================== *)

Module Xronox.
Import JS.

(** Structural equality of values, for matching a document by [_id]. *)
Fixpoint value_eqb (a b : Value) : bool :=
  match a, b with
  | VUndef, VUndef | VNull, VNull => true
  | VBool x, VBool y => Bool.eqb x y
  | VNum x, VNum y | VDate x, VDate y => (x =? y)%Z
  | VStr x, VStr y | VOid x, VOid y => String.eqb x y
  | VArr xs, VArr ys =>
      (fix go (xs ys : list Value) : bool :=
         match xs, ys with
         | [], [] => true
         | x :: xs', y :: ys' => (value_eqb x y && go xs' ys')%bool
         | _, _ => false
         end) xs ys
  | VObj xs, VObj ys =>
      (fix go (xs ys : list (string * Value)) : bool :=
         match xs, ys with
         | [], [] => true
         | (k, x) :: xs', (k', y) :: ys' =>
             (String.eqb k k' && value_eqb x y && go xs' ys')%bool
         | _, _ => false
         end) xs ys
  | _, _ => false
  end.

Definition has_id (id : Value) (doc : Obj) : bool := value_eqb (get "_id" doc) id.

(** [collection.findOne({ _id: id })]; [null] when there is none. *)
Definition findOne (id : Value) (docs : list Obj) : Value :=
  match List.find (has_id id) docs with
  | Some doc => VObj doc
  | None => VNull
  end.

(** [collection.replaceOne({ _id: id }, doc, { upsert: true })] *)
Fixpoint replaceOne (id : Value) (doc : Obj) (docs : list Obj) : list Obj :=
  match docs with
  | [] => [doc]
  | d :: rest => if has_id id d then doc :: rest else d :: replaceOne id doc rest
  end.

(** [doc._system?.storage?.key] *)
Definition storage_key (doc : Value) : Value :=
  field "key" (field "storage" (field "_system" doc)).

Definition is_space (c : ascii) : bool :=
  let n := nat_of_ascii c in
  ((Nat.leb 9 n && Nat.leb n 13) || Nat.eqb n 32)%bool.

Fixpoint blank (s : string) : bool :=
  match s with
  | EmptyString => true
  | String c s' => (is_space c && blank s')%bool
  end.

(** [!v || (typeof v === "string" && v.trim() === '')] *)
Definition lacks_identifier (v : Value) : bool :=
  (negb (truthy v) || match v with VStr s => blank s | _ => false end)%bool.

(** ** The interface to the database router and the storage adapter *)

Inductive Request : Type :=
| CountDocuments (collection : string)
| Route (collection : string)
| GetMongoClient
| GetSpaces (collection : string)
| EnsureIndexes (collection : string)
| HasNext (collection : string)              (* cursor.hasNext / next *)
| FindOne (collection : string) (id : Value)
| PutJSON (bucket : string) (key : string) (payload : Value)
| GetJSON (bucket : string) (key : Value)
| IncCv (collection : string)
| ReplaceOne (collection : string) (id : Value) (doc : Obj)
| Shutdown.

Inductive Event : Type :=
| Call (req : Request) (failure : option Error).

Inductive Line : Type :=
| Migrating (collectionName : string) (i n : Z)
| NoDocuments
| Progress (current total : Z)
| Done (migrated total : Z)
| ValidationFailed (collectionName : string) (key : Value) (message : string)
| ValidationPassed (validated : Z)
| ValidationCompleted (failures : Z).

Record World : Type :=
  { objects : gmap string Value;             (* the bucket: key -> JSON body *)
    collections : gmap string (list Obj);    (* the target database *)
    counters : gmap string Z;                (* change-version per collection *)
    trace : list Event;
    console : list Line }.

(** What the code cannot decide: which calls fail, the random tokens, the
    clock, and the functions of the libraries it links against. *)
Record Env : Type :=
  { fault : list Event -> Request -> option Error;
    randomUUID : list Event -> string;
    now : list Event -> Z;
    jsonKey : string -> string -> Z -> string;
    stringify : Obj -> string;               (* JSON.stringify *)
    sha256 : string -> string;               (* hex digest *)
    toString : Value -> string;              (* v.toString() *)
    bucket : string;                         (* storage.bucket *)
    not_found : Error }.                     (* the adapter's miss *)

Definition effect (req : Request) (w : World) : World :=
  match req with
  | PutJSON _ key payload =>
      {| objects := <[key := payload]> (objects w);
         collections := collections w; counters := counters w;
         trace := trace w; console := console w |}
  | IncCv c =>
      {| objects := objects w; collections := collections w;
         counters := <[c := default 0 (counters w !! c) + 1]> (counters w);
         trace := trace w; console := console w |}
  | ReplaceOne c id doc =>
      {| objects := objects w;
         collections :=
           <[c := replaceOne id doc (default [] (collections w !! c))]>
             (collections w);
         counters := counters w; trace := trace w; console := console w |}
  | _ => w
  end.

Definition record (ev : Event) (w : World) : World :=
  {| objects := objects w; collections := collections w;
     counters := counters w; trace := trace w ++ [ev]; console := console w |}.

Definition say (l : Line) : M World unit :=
  fun w =>
    (Ret tt,
     {| objects := objects w; collections := collections w;
        counters := counters w; trace := trace w;
        console := console w ++ [l] |}).

(** A request that writes a document, a counter or a storage object. *)
Definition is_write (req : Request) : bool :=
  match req with
  | PutJSON _ _ _ | IncCv _ | ReplaceOne _ _ _ => true
  | _ => false
  end.

Definition is_upload (ev : Event) : bool :=
  match ev with Call (PutJSON _ _ _) _ => true | _ => false end.

Section Migrator.

Variable env : Env.
(** The source collections, read-only during a run. *)
Variable source : string -> list Obj.

(** One awaited call; a failed call changes nothing. *)
Definition call (req : Request) : M World unit :=
  fun w =>
    match fault env (trace w) req with
    | Some e => (Throw e, record (Call req (Some e)) w)
    | None => (Ret tt, record (Call req None) (effect req w))
    end.

(** [storage.getJSON(bucket, key)]: fails when the object is missing. *)
Definition getJSON (key : Value) : M World Value :=
  let* _ := call (GetJSON (bucket env) key) in
  fun w =>
    match key with
    | VStr k =>
        match objects w !! k with
        | Some body => (Ret body, w)
        | None => (Throw (not_found env), w)
        end
    | _ => (Throw (not_found env), w)
    end.

Definition read {A} (f : World -> A) : M World A := fun w => (Ret (f w), w).

(** [{ ...v }] for [typeof v === "object" && v !== null], else [{}]. *)
Definition spread (v : Value) : Obj :=
  match v with
  | VObj o => o
  | VArr items => imap (fun i x => (toString env (VNum (Z.of_nat i)), x)) items
  | _ => []
  end.

Definition migrateDocument (collectionName : string) (record : Obj)
    (resume : bool) : M World (option string) :=
  let headCollection := (collectionName ++ "_head")%string in
  let id := get "_id" record in
  if negb (truthy id) then ret None
  else
    let idHex := toString env id in
    let* skip :=
      (if resume then
         let* _ := call (FindOne headCollection id) in
         let* existingHead :=
           read (fun w => findOne id (default [] (collections w !! headCollection))) in
         ret (truthy existingHead && truthy (storage_key existingHead))%bool
       else ret false) in
    if skip then ret None
    else
      let payload := JS.delete "_system" (JS.delete "_id" record) in
      let* payload :=
        (if lacks_identifier (get "id" payload)
         then let* uuid := read (fun w => randomUUID env (trace w)) in
              ret (JS.set "id" (VStr uuid) payload)
         else ret payload) in
      let jsonContent := stringify env payload in
      (* Buffer.byteLength(jsonContent, "utf8"): strings are byte strings *)
      let size := Z.of_nat (String.length jsonContent) in
      let checksum := sha256 env jsonContent in
      let key := jsonKey env collectionName idHex 0 in
      let* _ := call (PutJSON (bucket env) key (VObj payload)) in
      let* _ := call (IncCv collectionName) in
      let* cv := read (fun w => default 0 (counters w !! collectionName)) in
      let metaIndexed := spread (get "metaIndexed" record) in
      let metaIndexed :=
        match get "id" payload with
        | VUndef => metaIndexed
        | v => JS.set "id" v metaIndexed
        end in
      let* createdAt := read (fun w => now env (trace w)) in
      let* updatedAt := read (fun w => now env (trace w)) in
      let headDoc : Obj :=
        [ ("_id", id);
          ("metaIndexed", VObj metaIndexed);
          ("_system",
            VObj [ ("ov", VNum 0);
                   ("cv", VNum cv);
                   ("storage",
                     VObj [ ("bucket", VStr (bucket env)); ("key", VStr key);
                            ("size", VNum size); ("checksum", VStr checksum) ]);
                   ("timestamps",
                     VObj [ ("createdAt", VDate createdAt);
                            ("updatedAt", VDate updatedAt) ]);
                   ("tracking", VObj [ ("jobIds", VArr []) ]) ]) ] in
      let headDoc :=
        match get "id" payload with
        | VUndef => headDoc
        | v => JS.set "id" v headDoc
        end in
      let* _ := call (ReplaceOne headCollection id headDoc) in
      let* _ := call (ReplaceOne collectionName id headDoc) in
      ret (Some idHex).

(** [doc._id?.toString?.() ?? "unknown"] *)
Definition id_or_unknown (doc : Obj) : string :=
  match get "_id" doc with
  | VUndef | VNull => "unknown"
  | v => toString env v
  end.

(** The [while (await cursor.hasNext())] loop of [validateCollection] over
    the head documents the cursor delivers; the loop state is
    ([validated], [failures]). *)
Fixpoint validate_loop (collectionName headCollection : string)
    (heads : list Obj) (validated : Z) (failures : list string)
    : M World (Z * list string) :=
  let* _ := call (HasNext headCollection) in
  match heads with
  | [] => ret (validated, failures)
  | doc :: rest =>
      let key := storage_key (VObj doc) in
      if negb (truthy key) then
        validate_loop collectionName headCollection rest validated failures
      else
        let* st :=
          try_catch
            (let* _ := getJSON key in ret (validated + 1, failures))
            (fun error =>
               let* _ := say (ValidationFailed collectionName key (message error)) in
               ret (validated, failures ++ [id_or_unknown doc])) in
        validate_loop collectionName headCollection rest st.1 st.2
  end.

Definition validateCollection (collectionName : string) : M World unit :=
  let headCollection := (collectionName ++ "_head")%string in
  let* heads := read (fun w => default [] (collections w !! headCollection)) in
  let* st := validate_loop collectionName headCollection heads 0 [] in
  match st.2 with
  | [] => say (ValidationPassed st.1)
  | failures => say (ValidationCompleted (Z.of_nat (length failures)))
  end.

(** The [while (await cursor.hasNext())] loop of [migrateCollection]. *)
Fixpoint migrate_loop (collectionName : string) (resume : bool) (total : Z)
    (docs : list Obj) (migrated : Z) : M World Z :=
  let* _ := call (HasNext collectionName) in
  match docs with
  | [] => ret migrated
  | doc :: rest =>
      let* result := migrateDocument collectionName doc resume in
      match result with
      | None => migrate_loop collectionName resume total rest migrated
      | Some _ =>
          let migrated := migrated + 1 in
          let* _ := say (Progress migrated total) in
          migrate_loop collectionName resume total rest migrated
      end
  end.

Record MigrateOptions : Type := { resume : bool; validate : bool }.

Definition migrateCollection (collectionName : string) (options : MigrateOptions)
    : M World unit :=
  let* _ := call (CountDocuments collectionName) in
  let total := Z.of_nat (length (source collectionName)) in
  if (total =? 0)%Z then say NoDocuments
  else
    let* _ := call (Route collectionName) in
    let* _ := call GetMongoClient in
    let* _ := call (GetSpaces collectionName) in
    let* _ := call (EnsureIndexes collectionName) in
    let* migrated :=
      migrate_loop collectionName (resume options) total (source collectionName) 0 in
    let* _ := say (Done migrated total) in
    if validate options then validateCollection collectionName else ret tt.

Fixpoint migrateCollections_loop (n : Z) (options : MigrateOptions)
    (i : Z) (collections : list string) : M World unit :=
  match collections with
  | [] => ret tt
  | collectionName :: rest =>
      let* _ := say (Migrating collectionName (i + 1) n) in
      let* _ := migrateCollection collectionName options in
      migrateCollections_loop n options (i + 1) rest
  end.

Definition migrateCollections (collections : list string)
    (options : MigrateOptions) : M World unit :=
  fun w =>
    match migrateCollections_loop (Z.of_nat (length collections)) options 0
            collections w with
    | (r, w') =>
        match call Shutdown w' with
        | (Ret _, w'') => (r, w'')
        | (failed, w'') => (failed, w'')
        end
    end.

End Migrator.

(** The head documents of a collection. *)
Definition heads_of (collectionName : string) (w : World) : list Obj :=
  default [] (collections w !! (collectionName ++ "_head")%string).

(** The head documents that carry a storage pointer. *)
Definition with_pointer (heads : list Obj) : list Obj :=
  List.filter (fun doc => truthy (storage_key (VObj doc))) heads.

(** The object a storage key points to, if it is there. *)
Definition stored (objs : gmap string Value) (key : Value) : option Value :=
  match key with VStr k => objs !! k | _ => None end.

(** Reading [key] back works, whenever it is tried. *)
Definition readable (env : Env) (objs : gmap string Value) (key : Value) : Prop :=
  is_Some (stored objs key) /\
  forall tr, fault env tr (GetJSON (bucket env) key) = None.

(** The object is missing, or reading it fails whenever it is tried. *)
Definition unreadable (env : Env) (objs : gmap string Value) (key : Value)
    : Prop :=
  stored objs key = None \/
  forall tr, is_Some (fault env tr (GetJSON (bucket env) key)).

(** "The pass reports a passed count of [n]". *)
Definition reports_passed (n : Z) (lines : list Line) : Prop :=
  In (ValidationPassed n) lines.

(** The uploads and database writes among the events of a run. *)
Definition writes (evs : list Event) : list Event :=
  List.filter (fun ev => match ev with Call req _ => is_write req end) evs.

(** Every source record with an [_id] already has a head document with a
    non-empty storage key. *)
Definition fully_migrated (docs : list Obj) (heads : list Obj) : Prop :=
  forall doc, In doc docs -> truthy (get "_id" doc) = true ->
    exists k, storage_key (findOne (get "_id" doc) heads) = VStr k /\ k <> EmptyString.

(** From [w] to [w'] nothing was uploaded and nothing was written: the
    bucket, the collections and the counters are the same, the calls made
    in between are reads, and the console only got longer. *)
Definition unchanged (w w' : World) : Prop :=
  objects w' = objects w /\ collections w' = collections w /\
  counters w' = counters w /\
  (exists evs, trace w' = trace w ++ evs /\ writes evs = []) /\
  exists lines, console w' = console w ++ lines.

(** ** Further observations of a migration *)

(** No call fails. *)
Definition never_fails (env : Env) : Prop :=
  forall tr req, fault env tr req = None.



(** The storage pointer of a document, if it has one, names an object of
    the bucket. *)
Definition resolves (objs : gmap string Value) (doc : Obj) : Prop :=
  truthy (storage_key (VObj doc)) = true ->
  is_Some (stored objs (storage_key (VObj doc))).

(** No document of the target database has a dangling storage pointer. *)
Definition pointers_ok (w : World) : Prop :=
  forall c, Forall (resolves (objects w)) (default [] (collections w !! c)).

(** Objects are never removed, and no dangling pointer appears. *)
Definition sound (w w' : World) : Prop :=
  (forall k, is_Some (objects w !! k) -> is_Some (objects w' !! k)) /\
  (pointers_ok w -> pointers_ok w').



End Xronox.

(* ===================================================================== *)
(** * Concrete deployments and fault schedules *)
(* ===================================================================== *)

Module Fixtures.
Import JS.

Definition order (k : Z) : Clone.Document :=
  {| Clone._id := Some k; Clone.body := [("n", VNum k)] |}.

Definition orders_ns : Clone.Namespace := ("shop", "orders").

Definition fresh : Clone.World := {| Clone.dst := ∅; Clone.trace := [] |}.

Definition net_error : Error :=
  {| eclass := OtherError; message := "read ECONNRESET" |}.

Definition dup_error : Error :=
  {| eclass := OtherError; message := "E11000 duplicate key error" |}.

Definition bulk_attempts (tr : list Clone.Event) : nat :=
  length (List.filter Clone.is_bulk tr).

(** Every call succeeds. *)
Definition env_ok : Clone.Env := fun _ _ => Clone.Success.

(** The first two bulk inserts of the run hit a connection reset. *)
Definition env_flaky : Clone.Env :=
  fun tr req =>
    match req with
    | Clone.InsertMany _ _ =>
        if (bulk_attempts tr <? 2)%nat then Clone.Failure net_error []
        else Clone.Success
    | _ => Clone.Success
    end.

(** The network is down for every write. *)
Definition env_down : Clone.Env :=
  fun _ req =>
    match req with
    | Clone.InsertMany _ _ | Clone.InsertOne _ _ => Clone.Failure net_error []
    | _ => Clone.Success
    end.

(** Every write is rejected with a duplicate-key error. *)
Definition env_dup : Clone.Env :=
  fun _ req =>
    match req with
    | Clone.InsertMany _ _ | Clone.InsertOne _ _ => Clone.Failure dup_error []
    | _ => Clone.Success
    end.

(** The collection [orders] of the example scenario: 25 documents, stored
    in no particular order. *)
Definition orders : list Clone.Document :=
  map order [ 7; 3; 25; 1; 12; 19; 5; 22; 9; 14; 2; 17; 24; 6; 11;
            20; 4; 16; 8; 23; 13; 10; 21; 15; 18 ].

Definition shop : Clone.Source :=
  fun db =>
    if String.eqb db "shop" then
      [ {| Clone.info := {| Clone.name := "orders"; Clone.options := None |};
           Clone.documents := orders;
           Clone.indexes :=
             [ [("name", VStr "_id_"); ("key", VObj [("_id", VNum 1)])];
               [("name", VStr "by_n"); ("key", VObj [("n", VNum 1)]);
                ("unique", VBool true)] ] |};
        {| Clone.info :=
             {| Clone.name := "customers";
                Clone.options := Some [("capped", VBool false); ("size", VNull)] |};
           Clone.documents := map order [2; 1; 3];
           Clone.indexes := [] |} ]
    else [].

(** A destination that already holds a collection [shop.orders]. *)
Definition stocked : Clone.World :=
  {| Clone.dst :=
       {[ ("shop", "orders") :=
            {| Clone.c_options := None;
               Clone.c_docs := [order 100];
               Clone.c_indexes := [] |} ]};
     Clone.trace := [] |}.

Definition shop_run : Clone.Dependencies :=
  {| Clone.databases := ["shop"]; Clone.overwrite := [];
     Clone.skipIndexes := false |}.

(** The wizard: the run of the unit test, with the engine replaced by a
    spy that does nothing. *)
Definition spy : Clone.Dependencies -> M Clone.World unit := fun _ => ret tt.

Definition nobody : Prompts.User := fun _ _ => Prompts.Skip.

Definition test_inputs : Cli.Inputs :=
  {| Cli.sourceUri := "mongodb://localhost:27017";
     Cli.connectSource := None;
     Cli.databaseNamesNoConfig := ["db1"; "db2"; "db3"];
     Cli.ticked := ["db1"; "db2"];
     Cli.destinationUri := "mongodb://localhost:27018";
     Cli.connectDestination := None;
     Cli.destinationDatabases := ["db4"; "db5"];
     Cli.user := nobody;
     Cli.lastDecision := Cli.Y |}.

(** Databases [shop] (present at the destination) and [crm] (absent) are
    selected; the user answers every conflict prompt with [answer]. *)
Definition two_databases (answer : Prompts.Action) : Cli.Inputs :=
  {| Cli.sourceUri := "mongodb://a";
     Cli.connectSource := None;
     Cli.databaseNamesNoConfig := ["shop"; "crm"];
     Cli.ticked := ["[Select All]"];
     Cli.destinationUri := "mongodb://b";
     Cli.connectDestination := None;
     Cli.destinationDatabases := ["shop"];
     Cli.user := fun _ _ => answer;
     Cli.lastDecision := Cli.Y |}.

Definition shop_and_crm : Clone.Source :=
  fun db =>
    if String.eqb db "crm" then
      [ {| Clone.info := {| Clone.name := "leads"; Clone.options := None |};
           Clone.documents := map order [1; 2];
           Clone.indexes := [] |} ]
    else shop db.

(** The migrator: a storage adapter and router that never fail. *)
Definition env_x : Xronox.Env :=
  {| Xronox.fault := fun _ _ => None;
     Xronox.randomUUID := fun _ => "0b7e6c1e-uuid";
     Xronox.now := fun tr => Z.of_nat (length tr);
     Xronox.jsonKey := fun c id _ => (c ++ "/" ++ id ++ ".json")%string;
     Xronox.stringify := fun o => String.concat "," (map fst o);
     Xronox.sha256 := fun s => ("sha256:" ++ s)%string;
     Xronox.toString :=
       fun v => match v with VOid h => h | VStr s => s | _ => "?" end;
     Xronox.bucket := "archive";
     Xronox.not_found := {| eclass := OtherError; message := "NoSuchKey" |} |}.

Definition empty_target : Xronox.World :=
  {| Xronox.objects := ∅; Xronox.collections := ∅; Xronox.counters := ∅;
     Xronox.trace := []; Xronox.console := [] |}.

(** Three invoices; the second has no [_id]. *)
Definition no_id_record : Obj := [("total", VNum 3)].

Definition invoices : string -> list Obj :=
  fun c =>
    if String.eqb c "invoices" then
      [ [("_id", VOid "a1"); ("id", VStr "INV-1"); ("total", VNum 10)];
        no_id_record;
        [("_id", VOid "b2"); ("total", VNum 20)] ]
    else [].

Definition once : Xronox.World :=
  (Xronox.migrateCollection env_x invoices "invoices"
     {| Xronox.resume := false; Xronox.validate := false |} empty_target).2.

Definition head (hex key : string) : Obj :=
  [ ("_id", VOid hex);
    ("_system",
      VObj [("storage", VObj [("bucket", VStr "archive"); ("key", VStr key)])]) ].

(** Two head documents; the object of the second was deleted. *)
Definition two_heads : Xronox.World :=
  {| Xronox.objects := {[ "invoices/a1.json" := VObj [("total", VNum 10)] ]};
     Xronox.collections :=
       {[ "invoices_head" :=
            [ head "a1" "invoices/a1.json"; head "b2" "invoices/b2.json" ] ]};
     Xronox.counters := ∅; Xronox.trace := []; Xronox.console := [] |}.

End Fixtures.

(* ===================================================================== *)
(** * Facts about the copy engine *)
(* ===================================================================== *)

Module CloneFacts.
Import JS Clone.

Lemma trace_replay evs w : trace (replay evs w) = trace w ++ evs.
Proof.
  revert w. induction evs as [|ev evs IH]; intros w; simpl.
  - by rewrite app_nil_r.
  - unfold replay in IH. rewrite IH. destruct ev; simpl; by rewrite <- app_assoc.
Qed.

Lemma replay_app evs1 evs2 w : replay (evs1 ++ evs2) w = replay evs2 (replay evs1 w).
Proof. unfold replay. apply fold_left_app. Qed.

Lemma replay_cons ev evs w : replay (ev :: evs) w = replay evs (step w ev).
Proof. reflexivity. Qed.

Section Generic.
Context {A B : Type}.
Variable allowed : Request -> Prop.

Lemma emits_ret (a : A) w : emits allowed (ret a) w.
Proof. exists []. by split. Qed.

Lemma emits_throw e w : emits allowed (throw (A:=A) e) w.
Proof. exists []. by split. Qed.

Lemma emits_out_of_fuel w : emits allowed (out_of_fuel (A:=A)) w.
Proof. exists []. by split. Qed.

Lemma emits_bind (m : M World A) (k : A -> M World B) w :
  emits allowed m w ->
  (forall a w', m w = (Ret a, w') -> emits allowed (k a) w') ->
  emits allowed (bind m k) w.
Proof.
  intros (evs & Hw & Hall) Hk. unfold emits, bind.
  destruct (m w) as [[a|e|] w'] eqn:Hm; simpl in Hw; subst w'.
  - destruct (Hk a _ eq_refl) as (evs2 & Hw2 & Hall2).
    exists (evs ++ evs2). rewrite replay_app, Hw2. split; [done|].
    by apply Forall_app.
  - exists evs. by split.
  - exists evs. by split.
Qed.

Lemma emits_try_catch (m : M World A) (h : Error -> M World A) w :
  emits allowed m w ->
  (forall e w', m w = (Throw e, w') -> emits allowed (h e) w') ->
  emits allowed (try_catch m h) w.
Proof.
  intros (evs & Hw & Hall) Hh. unfold emits, try_catch.
  destruct (m w) as [[a|e|] w'] eqn:Hm; simpl in Hw; subst w'.
  - exists evs. by split.
  - destruct (Hh e _ eq_refl) as (evs2 & Hw2 & Hall2).
    exists (evs ++ evs2). rewrite replay_app, Hw2. split; [done|].
    by apply Forall_app.
  - exists evs. by split.
Qed.

End Generic.

Lemma emits_weaken {A} (P Q : Request -> Prop) (m : M World A) w :
  (forall req, P req -> Q req) -> emits P m w -> emits Q m w.
Proof.
  intros HPQ (evs & Hw & Hall). exists evs. split; [done|].
  eapply Forall_impl; [exact Hall|]. intros [req resp|ms]; simpl; auto.
Qed.

Section Emission.
Variable env : Env.
Variable gas : nat.
Variable allowed : Request -> Prop.

Lemma call_eq req w :
  call env req w =
  (match env (trace w) req with Success => Ret tt | Failure e _ => Throw e end,
   step w (Call req (env (trace w) req))).
Proof. unfold call. simpl. by destruct (env (trace w) req). Qed.

Lemma sleep_eq ms w : sleep ms w = (Ret tt, step w (SetTimeout ms)).
Proof. reflexivity. Qed.

Lemma ping_eq db w :
  ping env db w = (Ret tt, step w (Call (Ping db) (env (trace w) (Ping db)))).
Proof.
  unfold ping, try_catch. rewrite call_eq.
  by destruct (env (trace w) (Ping db)).
Qed.

Lemma emits_call req w : allowed req -> emits allowed (call env req) w.
Proof.
  intros H. exists [Call req (env (trace w) req)]. rewrite call_eq.
  split; [done|]. by constructor.
Qed.

Lemma emits_sleep ms w : emits allowed (sleep ms) w.
Proof. exists [SetTimeout ms]. split; [done|]. by constructor. Qed.

Lemma emits_ping db w : allowed (Ping db) -> emits allowed (ping env db) w.
Proof.
  intros H. exists [Call (Ping db) (env (trace w) (Ping db))]. rewrite ping_eq.
  split; [done|]. by constructor.
Qed.

Lemma emits_insertOne_loop fuel ns doc attempt w :
  allowed (InsertOne ns doc) ->
  emits allowed (insertOne_loop env fuel ns doc attempt) w.
Proof.
  intros H. revert attempt w.
  induction fuel as [|fuel IH]; intros attempt w; simpl.
  - apply emits_out_of_fuel.
  - destruct (attempt <=? MAX_RETRIES)%Z; [|apply emits_ret].
    apply emits_try_catch; [by apply emits_call|].
    intros e w' _.
    destruct (negb (isNetworkError e) || (attempt >=? MAX_RETRIES)%Z)%bool.
    + apply emits_throw.
    + apply emits_bind; [apply emits_sleep|]. intros; apply IH.
Qed.

Lemma emits_insertIndividually ns docs w :
  (forall d, In d docs -> allowed (InsertOne ns d)) ->
  emits allowed (insertIndividually env gas ns docs) w.
Proof.
  revert w. induction docs as [|d docs IH]; intros w H; simpl.
  - apply emits_ret.
  - apply emits_bind.
    + apply emits_insertOne_loop, H. by left.
    + intros _ w' _. apply IH. intros d' Hd. apply H. by right.
Qed.

Lemma emits_insertBatch_rec fuel ns docs attempt w :
  allowed (InsertMany ns docs) -> allowed (Ping ns.1) ->
  (forall d, In d docs -> allowed (InsertOne ns d)) ->
  emits allowed (insertBatch_rec env gas fuel ns docs attempt) w.
Proof.
  intros Hm Hp Ho. revert attempt w.
  induction fuel as [|fuel IH]; intros attempt w; simpl.
  - apply emits_out_of_fuel.
  - apply emits_try_catch; [by apply emits_call|].
    intros e w' _.
    destruct (negb (isNetworkError e) || (attempt >=? MAX_RETRIES)%Z)%bool.
    + by apply emits_insertIndividually.
    + apply emits_bind; [apply emits_sleep|]. intros _ w1 _.
      apply emits_bind; [by apply emits_ping|]. intros; apply IH.
Qed.


End Emission.

(** ** The shape of a bulk insert and of a per-document insert *)

Section EngineFacts.
Variable env : Env.
Variable source : Source.
Variable gas : nat.


Lemma insertBatch_shape fuel ns docs attempt w :
  (1 <= fuel)%nat -> MAX_RETRIES - attempt < Z.of_nat fuel ->
  exists fails final,
    Forall (fun f => isNetworkError f.1.1 = true) fails /\
    attempt + Z.of_nat (length fails) <= Z.max attempt MAX_RETRIES /\
    env (trace w ++ retry_rounds ns docs attempt fails) (InsertMany ns docs) = final /\
    let w1 := replay (bulk_phase ns docs attempt fails final) w in
    match final with
    | Success => insertBatch_rec env gas fuel ns docs attempt w = (Ret tt, w1)
    | Failure e _ =>
        (isNetworkError e = false \/ MAX_RETRIES <= attempt + Z.of_nat (length fails)) /\
        insertBatch_rec env gas fuel ns docs attempt w =
          insertIndividually env gas ns docs w1
    end.
Proof.
  revert attempt w. induction fuel as [|fuel IH]; intros attempt w Hf Hm; [lia|].
  simpl. unfold try_catch. rewrite call_eq.
  destruct (env (trace w) (InsertMany ns docs)) as [|e m] eqn:Hresp.
  - exists [], Success. simpl. rewrite app_nil_r.
    repeat split; [constructor | lia | done].
  - destruct (negb (isNetworkError e) || (attempt >=? MAX_RETRIES)%Z)%bool eqn:Hc.
    + exists [], (Failure e m). simpl. rewrite app_nil_r.
      repeat split; [constructor | lia | done | ].
      apply orb_true_iff in Hc as [Hc|Hc].
      * left. by destruct (isNetworkError e).
      * right. lia.
    + apply orb_false_iff in Hc as [Hn Ha].
      apply negb_false_iff in Hn.
      unfold bind. rewrite sleep_eq, ping_eq.
      set (w1 := step w (Call (InsertMany ns docs) (Failure e m))).
      set (w2 := step w1 _).
      set (p := env (trace w2) (Ping ns.1)).
      set (w3 := step w2 _).
      destruct (IH (attempt + 1) w3) as (fails & final & Hall & Hlen & Hfin & Hrun);
        [unfold MAX_RETRIES in *; lia | unfold MAX_RETRIES in *; lia |].
      exists ((e, m, p) :: fails), final.
      split; [by constructor|].
      split; [simpl length; unfold MAX_RETRIES in *; lia|].
      split.
      { rewrite <- Hfin. f_equal. subst w3 w2 w1. simpl.
        by rewrite <- !app_assoc. }
      assert (Hw : replay (bulk_phase ns docs attempt ((e, m, p) :: fails) final) w
                   = replay (bulk_phase ns docs (attempt + 1) fails final) w3)
        by reflexivity.
      cbv zeta in Hrun |- *. rewrite Hw.
      destruct final as [|e' m']; [exact Hrun|].
      destruct Hrun as [Hstop Hrun]. split; [|exact Hrun].
      destruct Hstop as [?|?]; [by left|right].
      simpl length. lia.
Qed.

Lemma insertOne_loop_shape fuel ns doc attempt w :
  attempt <= MAX_RETRIES -> MAX_RETRIES - attempt < Z.of_nat fuel ->
  exists fails final,
    Forall (fun f => isNetworkError f.1 = true) fails /\
    attempt + Z.of_nat (length fails) <= MAX_RETRIES /\
    insertOne_loop env fuel ns doc attempt w =
      (outcome_of final, replay (single_phase ns doc attempt fails final) w) /\
    match final with
    | Success => True
    | Failure e _ =>
        isNetworkError e = false \/ attempt + Z.of_nat (length fails) = MAX_RETRIES
    end.
Proof.
  revert attempt w. induction fuel as [|fuel IH]; intros attempt w Ha Hm; [lia|].
  simpl. destruct (attempt <=? MAX_RETRIES)%Z eqn:Hle; [|lia].
  unfold try_catch. rewrite call_eq.
  destruct (env (trace w) (InsertOne ns doc)) as [|e m] eqn:Hresp.
  - exists [], Success. simpl. repeat split; [constructor | lia].
  - destruct (negb (isNetworkError e) || (attempt >=? MAX_RETRIES)%Z)%bool eqn:Hc.
    + exists [], (Failure e m). simpl.
      repeat split; [constructor | lia | ].
      apply orb_true_iff in Hc as [Hc|Hc].
      * left. by destruct (isNetworkError e).
      * right. lia.
    + apply orb_false_iff in Hc as [Hn Hge].
      apply negb_false_iff in Hn.
      unfold bind. rewrite sleep_eq.
      set (w1 := step w (Call (InsertOne ns doc) (Failure e m))).
      set (w2 := step w1 _).
      destruct (IH (attempt + 1) w2) as (fails & final & Hall & Hlen & Hrun & Hstop);
        [lia | lia |].
      exists ((e, m) :: fails), final.
      split; [by constructor|].
      split; [simpl length; lia|].
      split; [exact Hrun|].
      destruct final; [done|].
      destruct Hstop as [?|?]; [by left|right]. simpl length. lia.
Qed.

Lemma finishes_insertIndividually ns docs w :
  (7 <= gas)%nat -> finishes (insertIndividually env gas ns docs) w.
Proof.
  intros Hg. revert w. induction docs as [|d docs IH]; intros w; [done|].
  unfold finishes. simpl. unfold bind.
  destruct (insertOne_loop_shape gas ns d 1 w) as (fails & final & _ & _ & Hrun & _);
    [unfold MAX_RETRIES; lia | unfold MAX_RETRIES; lia |].
  rewrite Hrun. destruct final; simpl; [apply IH | done].
Qed.

Lemma finishes_insertBatch ns docs w :
  (7 <= gas)%nat -> finishes (insertBatch env gas ns docs 1) w.
Proof.
  intros Hg. unfold finishes, insertBatch.
  destruct (insertBatch_shape gas ns docs 1 w) as (fails & final & _ & _ & _ & Hrun);
    [lia | unfold MAX_RETRIES; lia |].
  destruct final; cbv zeta in Hrun.
  - by rewrite Hrun.
  - destruct Hrun as [_ ->]. by apply finishes_insertIndividually.
Qed.

Lemma timeouts_app evs1 evs2 : timeouts (evs1 ++ evs2) = timeouts evs1 ++ timeouts evs2.
Proof. unfold timeouts. apply flat_map_app. Qed.

Lemma timeouts_retry_rounds ns docs attempt fails :
  timeouts (retry_rounds ns docs attempt fails)
  = map backoff (attempts_from attempt (length fails)).
Proof.
  revert attempt. induction fails as [|[[e m] p] fails IH]; intros attempt; [done|].
  simpl. by rewrite IH.
Qed.

Lemma timeouts_single_rounds ns doc attempt fails :
  timeouts (single_rounds ns doc attempt fails)
  = map backoff (attempts_from attempt (length fails)).
Proof.
  revert attempt. induction fails as [|[e m] fails IH]; intros attempt; [done|].
  simpl. by rewrite IH.
Qed.

Lemma bulk_count_retry_rounds ns docs attempt fails :
  length (List.filter is_bulk (retry_rounds ns docs attempt fails)) = length fails.
Proof.
  revert attempt. induction fails as [|[[e m] p] fails IH]; intros attempt; [done|].
  simpl. by rewrite IH.
Qed.






Lemma no_bulk_events evs :
  Forall (allowed_event not_bulk) evs -> List.filter is_bulk evs = [].
Proof.
  induction 1 as [|ev evs Hev _ IH]; [done|].
  simpl. rewrite IH. by destruct ev as [[] ?|].
Qed.

Lemma bulk_count_phase ns docs attempt fails final :
  length (List.filter is_bulk (bulk_phase ns docs attempt fails final))
  = S (length fails).
Proof.
  unfold bulk_phase. rewrite List.filter_app, length_app, bulk_count_retry_rounds.
  simpl. lia.
Qed.

Lemma insertBatch_rec_retry fuel ns docs attempt w e m :
  env (trace w) (InsertMany ns docs) = Failure e m ->
  isNetworkError e = true -> attempt < MAX_RETRIES ->
  insertBatch_rec env gas (S fuel) ns docs attempt w
  = insertBatch_rec env gas fuel ns docs (attempt + 1)
      (replay
         (retry_rounds ns docs attempt
            [(e, m,
              env (trace w ++ [Call (InsertMany ns docs) (Failure e m);
                               SetTimeout (backoff attempt)]) (Ping ns.1))])
         w).
Proof.
  intros Hresp Hn Ha. simpl. unfold try_catch. rewrite call_eq, Hresp, Hn.
  destruct (attempt >=? MAX_RETRIES)%Z eqn:Hge; [lia|]. simpl.
  unfold bind. rewrite sleep_eq, ping_eq. simpl.
  by rewrite <- app_assoc.
Qed.

Lemma insertBatch_rec_fallback fuel ns docs attempt w e m :
  env (trace w) (InsertMany ns docs) = Failure e m ->
  isNetworkError e = false \/ MAX_RETRIES <= attempt ->
  insertBatch_rec env gas (S fuel) ns docs attempt w
  = insertIndividually env gas ns docs
      (step w (Call (InsertMany ns docs) (Failure e m))).
Proof.
  intros Hresp Hc. simpl. unfold try_catch. rewrite call_eq, Hresp.
  destruct Hc as [->|Hc]; [done|].
  destruct (attempt >=? MAX_RETRIES)%Z eqn:Hge; [|lia].
  by rewrite orb_true_r.
Qed.

(** C10: [insertBatch] terminates on every batch: a recursive call is made
    only after a network fault below the attempt ceiling and then runs at
    [attempt + 1]; so a batch sees at most 7 bulk inserts, followed by at
    most one pass of per-document inserts. *)
Theorem insertBatch_terminates ns docs w :
  (7 <= gas)%nat ->
  exists fails final evs,
    let run := insertBatch env gas ns docs 1 w in
    let w1 := replay (bulk_phase ns docs 1 fails final) w in
    finishes (insertBatch env gas ns docs 1) w /\
    trace run.2 = trace w ++ evs /\
    length (List.filter is_bulk evs) = S (length fails) /\
    (S (length fails) <= 7)%nat /\
    (run = (Ret tt, w1) \/ run = insertIndividually env gas ns docs w1) /\
    (forall fuel attempt w0 e m,
        env (trace w0) (InsertMany ns docs) = Failure e m ->
        (isNetworkError e = true -> attempt < MAX_RETRIES ->
         exists w3,
           insertBatch_rec env gas (S fuel) ns docs attempt w0
           = insertBatch_rec env gas fuel ns docs (attempt + 1) w3) /\
        (isNetworkError e = false \/ MAX_RETRIES <= attempt ->
         insertBatch_rec env gas (S fuel) ns docs attempt w0
         = insertIndividually env gas ns docs
             (step w0 (Call (InsertMany ns docs) (Failure e m))))).
Proof.
  intros Hg.
  destruct (insertBatch_shape gas ns docs 1 w) as (fails & final & _ & Hlen & _ & Hrun);
    [lia | unfold MAX_RETRIES; lia |].
  assert (Hn : (S (length fails) <= 7)%nat) by (unfold MAX_RETRIES in Hlen; lia).
  assert (Hstep : forall fuel attempt w0 e m,
        env (trace w0) (InsertMany ns docs) = Failure e m ->
        (isNetworkError e = true -> attempt < MAX_RETRIES ->
         exists w3,
           insertBatch_rec env gas (S fuel) ns docs attempt w0
           = insertBatch_rec env gas fuel ns docs (attempt + 1) w3) /\
        (isNetworkError e = false \/ MAX_RETRIES <= attempt ->
         insertBatch_rec env gas (S fuel) ns docs attempt w0
         = insertIndividually env gas ns docs
             (step w0 (Call (InsertMany ns docs) (Failure e m))))).
  { intros fuel attempt w0 e m Hresp. split.
    - intros. eexists. by apply insertBatch_rec_retry.
    - intros. by apply insertBatch_rec_fallback. }
  cbv zeta in Hrun. fold (insertBatch env gas ns docs 1 w) in Hrun.
  destruct final as [|e m].
  - exists fails, Success, (bulk_phase ns docs 1 fails Success). cbv zeta.
    split; [by apply finishes_insertBatch|].
    rewrite Hrun. cbn [snd]. rewrite trace_replay, bulk_count_phase.
    split; [done|]. split; [done|]. split; [done|]. split; [by left|].
    exact Hstep.
  - destruct Hrun as [_ Hrun].
    destruct (emits_insertIndividually env gas not_bulk ns docs
                (replay (bulk_phase ns docs 1 fails (Failure e m)) w))
      as (evs2 & Hw2 & Hall2); [done|].
    exists fails, (Failure e m), (bulk_phase ns docs 1 fails (Failure e m) ++ evs2).
    cbv zeta.
    split; [by apply finishes_insertBatch|].
    rewrite Hrun, Hw2, !trace_replay, List.filter_app, length_app,
      bulk_count_phase, (no_bulk_events _ Hall2), app_assoc.
    cbn [length]. split; [done|]. split; [lia|]. split; [done|].
    split; [by right|]. exact Hstep.
Qed.




(** C6, as the code has it: a bulk insert that fails with a fault that is
    not a network fault is not retried; its batch goes at once to the
    per-document inserts.  There each document is retried with the same
    back-off, up to 7 attempts, while its fault is a network fault; a
    fault of another kind is thrown at the first attempt. *)
Theorem non_network_fault_policy ns docs w e m :
  (7 <= gas)%nat ->
  env (trace w) (InsertMany ns docs) = Failure e m ->
  isNetworkError e = false ->
  insertBatch env gas ns docs 1 w
  = insertIndividually env gas ns docs
      (step w (Call (InsertMany ns docs) (Failure e m))) /\
  (forall doc w2, exists fails final,
      insertOne_loop env gas ns doc 1 w2
      = (outcome_of final, replay (single_phase ns doc 1 fails final) w2) /\
      Forall (fun f => isNetworkError f.1 = true) fails /\
      (S (length fails) <= 7)%nat /\
      timeouts (single_phase ns doc 1 fails final)
      = map backoff (attempts_from 1 (length fails)) /\
      match final with
      | Success => True
      | Failure e' _ => isNetworkError e' = false \/ S (length fails) = 7%nat
      end) /\
  (forall doc w2 e' m',
      env (trace w2) (InsertOne ns doc) = Failure e' m' ->
      isNetworkError e' = false ->
      insertOne_loop env gas ns doc 1 w2
      = (Throw e', step w2 (Call (InsertOne ns doc) (Failure e' m')))).
Proof.
  intros Hg Hresp Hne.
  split; [|split].
  - unfold insertBatch.
    assert (Hfuel : forall fuel, (1 <= fuel)%nat ->
              insertBatch_rec env gas fuel ns docs 1 w
              = insertIndividually env gas ns docs
                  (step w (Call (InsertMany ns docs) (Failure e m)))).
    { intros [|fuel] Hf; [lia|]. apply insertBatch_rec_fallback; auto. }
    apply Hfuel. lia.
  - intros doc w2.
    destruct (insertOne_loop_shape gas ns doc 1 w2)
      as (fails & final & Hall & Hlen & Hrun & Hstop);
      [unfold MAX_RETRIES; lia | unfold MAX_RETRIES; lia |].
    exists fails, final.
    split; [exact Hrun|]. split; [exact Hall|].
    split; [unfold MAX_RETRIES in Hlen; lia|].
    split.
    + unfold single_phase. rewrite timeouts_app, timeouts_single_rounds.
      simpl. by rewrite app_nil_r.
    + destruct final; [done|]. destruct Hstop as [?|?]; [by left|right].
      unfold MAX_RETRIES in *. lia.
  - intros doc w2 e' m' Hresp' Hne'.
    destruct gas as [|g]; [lia|]. simpl.
    unfold try_catch. by rewrite call_eq, Hresp', Hne'.
Qed.

End EngineFacts.

Import Fixtures.

Lemma insertBatch_terminates_witness :
  (7 <= 7)%nat /\
  finishes (insertBatch env_down 7 orders_ns [order 1; order 2] 1) fresh /\
  exists evs,
    trace (insertBatch env_down 7 orders_ns [order 1; order 2] 1 fresh).2
    = trace fresh ++ evs /\
    (length (List.filter is_bulk evs) <= 7)%nat.
Proof.
  split; [lia|].
  destruct (insertBatch_terminates env_down 7 orders_ns [order 1; order 2] fresh)
    as (fails & final & evs & Hfin & Htr & Hn & Hle & _); [lia|].
  split; [exact Hfin|]. exists evs. split; [exact Htr|]. lia.
Defined.




Lemma non_network_fault_policy_witness :
  (7 <= 7)%nat /\
  env_dup (trace fresh) (InsertMany orders_ns [order 1]) = Failure dup_error [] /\
  isNetworkError dup_error = false /\
  insertBatch env_dup 7 orders_ns [order 1] 1 fresh
  = insertIndividually env_dup 7 orders_ns [order 1]
      (step fresh (Call (InsertMany orders_ns [order 1]) (Failure dup_error []))).
Proof.
  split; [lia|]. split; [reflexivity|]. split; [reflexivity|].
  destruct (non_network_fault_policy env_dup 7 orders_ns [order 1] fresh dup_error [])
    as [H _]; [lia | reflexivity | reflexivity | exact H].
Defined.

(** C6 as stated fails: a duplicate-key fault on the bulk insert and on
    the single insert is fatal after one attempt for the document, not
    after seven. *)
Lemma non_network_fault_not_retried :
  insertBatch env_dup 7 orders_ns [order 1] 1 fresh
  = (Throw dup_error,
     replay [ Call (InsertMany orders_ns [order 1]) (Failure dup_error []);
              Call (InsertOne orders_ns (order 1)) (Failure dup_error []) ] fresh)
  /\ ~ fatal_only_after_retries env_dup 7 orders_ns [order 1] fresh.
Proof.
  split; [reflexivity|].
  intros H. destruct (H dup_error _ eq_refl) as (d & Hd & Hlen).
  destruct Hd as [<-|[]]. vm_compute in Hlen. discriminate.
Qed.

(** Examples: the classification of faults. *)
Example reset_is_network :
  isNetworkError {| eclass := OtherError; message := "read ECONNRESET" |} = true.
Proof. reflexivity. Qed.

Example pattern_ignores_case :
  isNetworkError
    {| eclass := OtherError; message := "connection CLOSED by peer" |} = true.
Proof. reflexivity. Qed.

Example duplicate_key_is_not_network : isNetworkError dup_error = false.
Proof. reflexivity. Qed.

Example by_n_index_options :
  buildIndexOptions
    [("name", VStr "by_n"); ("key", VObj [("n", VNum 1)]);
     ("unique", VBool true); ("sparse", VNull); ("expireAfterSeconds", VStr "60")]
  = [("name", VStr "by_n"); ("unique", VBool true)].
Proof. reflexivity. Qed.

(** Examples: the schedules of the fixtures. *)
Example flaky_batch_delays :
  timeouts (trace (insertBatch env_flaky 7 orders_ns [order 1; order 2] 1 fresh).2)
  = [500; 2000].
Proof. reflexivity. Qed.

Example down_batch_delays :
  timeouts (trace (insertBatch env_down 7 orders_ns [order 1] 1 fresh).2)
  = [500; 2000; 4500; 8000; 12500; 18000;
     500; 2000; 4500; 8000; 12500; 18000].
Proof. reflexivity. Qed.

Example down_batch_fatal :
  (insertBatch env_down 7 orders_ns [order 1] 1 fresh).1 = Throw net_error.
Proof. reflexivity. Qed.

(** ** Confinement: which collections a run writes to *)

Lemma effect_frame (ns : Namespace) (req : Request) (resp : Response)
    (s : gmap (string * string) Collection) :
  ~ mutates ns req -> effect req resp s !! ns = s !! ns.
Proof.
  intros Hm.
  destruct req as [| | | | | |db'|n|n o|n ds|n d|n k o|]; simpl in *; try done.
  - destruct resp; [|done].
    destruct (s !! ns) as [x|] eqn:Hx.
    + apply map_lookup_filter_Some. split; [done|]. simpl. congruence.
    + apply map_lookup_filter_None. by left.
  - destruct resp; [|done]. by apply lookup_delete_ne.
  - destruct resp; [|done]. destruct (s !! n); [done|].
    by apply lookup_insert_ne.
  - unfold add_docs. destruct (landed resp ds); [done|].
    by apply lookup_insert_ne.
  - unfold add_docs. destruct (landed resp [d]); [done|].
    by apply lookup_insert_ne.
  - destruct resp; [|done]. unfold add_index. by apply lookup_insert_ne.
Qed.

Lemma replay_frame (ns : Namespace) (evs : list Event) (w : World) :
  Forall (allowed_event (fun req => ~ mutates ns req)) evs ->
  dst (replay evs w) !! ns = dst w !! ns.
Proof.
  intros H. revert w. induction H as [|ev evs Hev _ IH]; intros w; [done|].
  change (replay (ev :: evs) w) with (replay evs (step w ev)).
  rewrite IH. destruct ev as [req resp|ms]; [|done].
  simpl. by apply effect_frame.
Qed.

Lemma emits_frame {A} (ns : Namespace) (m : M World A) (w : World) :
  emits (fun req => ~ mutates ns req) m w ->
  dst (m w).2 !! ns = dst w !! ns.
Proof. intros (evs & -> & Hall). by apply replay_frame. Qed.

Lemma emits_frame_ret {A} (ns : Namespace) (m : M World A) (w w' : World) a :
  emits (fun req => ~ mutates ns req) m w ->
  m w = (Ret a, w') ->
  dst w' !! ns = dst w !! ns.
Proof. intros He Hm. apply emits_frame in He. by rewrite Hm in He. Qed.

Lemma touches_only_other dest target req :
  dest <> target -> touches_only dest req -> ~ mutates target req.
Proof. intros Hne Ht Hm. destruct req; simpl in *; congruence. Qed.

Lemma elem_of_collection_names (db c : string)
    (s : gmap (string * string) Collection) :
  c ∈ collection_names db s <-> is_Some (s !! (db, c)).
Proof.
  unfold collection_names. rewrite elem_of_map. split.
  - intros ([db' c'] & -> & Hin). apply elem_of_filter in Hin as [Hdb Hin].
    simpl in Hdb. subst db'. by apply elem_of_dom.
  - intros H. exists (db, c). split; [done|].
    apply elem_of_filter. split; [done|]. by apply elem_of_dom.
Qed.

Section Confinement.
Variable env : Env.
Variable source : Source.
Variable gas : nat.

Lemma emits_insertBatch ns docs attempt w :
  emits (touches_only ns) (insertBatch env gas ns docs attempt) w.
Proof. by apply emits_insertBatch_rec. Qed.

Lemma emits_cloneCollection_loop fuel src dest processedDocs lastId w :
  emits (touches_only dest)
    (cloneCollection_loop env source gas fuel src dest processedDocs lastId) w.
Proof.
  revert processedDocs lastId w.
  induction fuel as [|fuel IH]; intros processedDocs lastId w; simpl.
  - apply emits_out_of_fuel.
  - apply emits_bind.
    { apply emits_bind; [by apply emits_call|]. intros; apply emits_ret. }
    intros page w1 _. destruct page as [|d page]; [apply emits_ret|].
    apply emits_bind; [apply emits_insertBatch|]. intros _ w2 _.
    apply emits_bind; [by apply emits_ping|]. intros; apply IH.
Qed.

Lemma emits_cloneCollection src dest w :
  emits (touches_only dest) (cloneCollection env source gas src dest) w.
Proof.
  apply emits_bind; [|intros; apply emits_cloneCollection_loop].
  apply emits_try_catch.
  - apply emits_bind; [by apply emits_call|]. intros; apply emits_ret.
  - intros. apply emits_bind; [by apply emits_call|]. intros; apply emits_ret.
Qed.

Lemma emits_syncIndexes src dest w :
  emits (touches_only dest) (syncIndexes env source src dest) w.
Proof.
  apply emits_bind; [by apply emits_call|]. intros _ w1 _.
  generalize (sourceIndexes source src). intros idxs. revert w1.
  induction idxs as [|index idxs IH]; intros w1; simpl; [apply emits_ret|].
  destruct (is_primary_key_index index); [apply IH|].
  apply emits_bind; [|intros; apply IH].
  apply emits_try_catch; [by apply emits_call|]. intros; apply emits_ret.
Qed.

Lemma emits_collections_loop (db c dbName : string) shouldOverwrite skipIdx
    (names : gset string) scs (w : World) :
  (dbName = db -> shouldOverwrite = false /\ c ∈ names) ->
  emits (fun req => ~ mutates (db, c) req)
    (collections_loop env source gas dbName shouldOverwrite skipIdx names scs) w.
Proof.
  revert names w. induction scs as [|sc scs IH]; intros names w Hinv; simpl.
  - apply emits_ret.
  - destruct (String.eqb (name (info sc)) EmptyString); [by apply IH|].
    set (cn := name (info sc)).
    destruct (negb shouldOverwrite && bool_decide (cn ∈ names))%bool eqn:Hskip;
      [by apply IH|].
    assert (Hns : (dbName, cn) <> (db, c) \/ (shouldOverwrite = true /\ dbName <> db)).
    { destruct (decide (dbName = db)) as [->|Hne]; [|left; congruence].
      destruct (Hinv eq_refl) as [-> Hc]. simpl in Hskip.
      apply bool_decide_eq_false in Hskip. left. intros [= ->]. done. }
    assert (Hother : (dbName, cn) <> (db, c)) by (destruct Hns as [?|[_ ?]]; congruence).
    apply emits_bind.
    { destruct (bool_decide (cn ∈ names)); [|apply emits_ret].
      apply emits_bind; [|intros; apply emits_ret].
      apply emits_call. simpl. congruence. }
    intros names1 w1 Hn1.
    assert (Hinv1 : dbName = db -> shouldOverwrite = false /\ c ∈ names1).
    { intros ->. destruct (Hinv eq_refl) as [-> Hc]. split; [done|].
      simpl in Hskip. rewrite Hskip in Hn1. by injection Hn1 as <- _. }
    apply emits_bind.
    { destruct (bool_decide (cn ∈ names1)); [apply emits_ret|].
      apply emits_bind; [|intros; apply emits_ret].
      apply emits_try_catch; [|intros; apply emits_ret].
      apply emits_call. simpl. congruence. }
    intros names2 w2 Hn2.
    assert (Hinv2 : dbName = db -> shouldOverwrite = false /\ c ∈ names2).
    { intros Hdb. destruct (Hinv1 Hdb) as [Hso Hc]. split; [done|].
      destruct (bool_decide (cn ∈ names1)).
      - by injection Hn2 as <- _.
      - unfold bind, try_catch in Hn2.
        destruct (call env _ w1) as [[[]|?|] ?]; simpl in Hn2;
          try discriminate; injection Hn2 as <- _;
          apply elem_of_union; by right. }
    apply emits_bind.
    { eapply emits_weaken; [|apply emits_cloneCollection].
      intros req. by apply touches_only_other. }
    intros _ w3 _.
    apply emits_bind; [|intros; by apply IH].
    destruct skipIdx; [apply emits_ret|].
    eapply emits_weaken; [|apply emits_syncIndexes].
    intros req. by apply touches_only_other.
Qed.

Lemma includes_true l x : includes l x = true <-> In x l.
Proof.
  unfold includes. rewrite existsb_exists. split.
  - intros (y & Hy & Heq). apply String.eqb_eq in Heq. by subst.
  - intros H. exists x. split; [done|]. apply String.eqb_refl.
Qed.

Lemma emits_databases_loop (db c : string) overwrite skipIdx dbs (w : World) :
  includes overwrite db = false -> is_Some (dst w !! (db, c)) ->
  emits (fun req => ~ mutates (db, c) req)
    (databases_loop env source gas overwrite skipIdx dbs) w.
Proof.
  intros Hov. revert w. induction dbs as [|dbName dbs IH]; intros w Hin; simpl.
  - apply emits_ret.
  - set (P := fun req => ~ mutates (db, c) req).
    assert (Hdrop : emits P
              (if includes overwrite dbName then call env (DropDatabase dbName)
               else ret tt) w).
    { destruct (includes overwrite dbName) eqn:Hi; [|apply emits_ret].
      apply emits_call. unfold P. simpl. intros ->. congruence. }
    apply emits_bind; [exact Hdrop|]. intros [] w1 Hw1.
    assert (Hin1 : is_Some (dst w1 !! (db, c))).
    { by rewrite (emits_frame_ret _ _ _ _ _ Hdrop Hw1). }
    assert (Hlist : emits P (call env (ListSourceCollections dbName)) w1)
      by (apply emits_call; unfold P; simpl; tauto).
    apply emits_bind; [exact Hlist|]. intros [] w2 Hw2.
    assert (Hin2 : is_Some (dst w2 !! (db, c))).
    { by rewrite (emits_frame_ret _ _ _ _ _ Hlist Hw2). }
    destruct (source dbName) as [|sc scs]; [by apply IH|].
    assert (Hld : emits P (call env (ListDestinationCollections dbName)) w2)
      by (apply emits_call; unfold P; simpl; tauto).
    apply emits_bind; [exact Hld|]. intros [] w3 Hw3.
    assert (Hin3 : is_Some (dst w3 !! (db, c))).
    { by rewrite (emits_frame_ret _ _ _ _ _ Hld Hw3). }
    assert (Hcl : emits P
              (fun w0 => collections_loop env source gas dbName
                           (includes overwrite dbName) skipIdx
                           (collection_names dbName (dst w0)) (sc :: scs) w0) w3).
    { unfold emits.
      apply (emits_collections_loop db c dbName (includes overwrite dbName)
               skipIdx (collection_names dbName (dst w3)) (sc :: scs) w3).
      intros ->. split; [done|]. by apply elem_of_collection_names. }
    apply emits_bind; [exact Hcl|]. intros [] w4 Hw4.
    apply IH. by rewrite (emits_frame_ret _ _ _ _ _ Hcl Hw4).
Qed.

(** C7: a collection that exists at the destination, in a database that
    is not overwritten, is left alone by a run: no request drops it,
    inserts into it, creates it or builds an index on it, and it holds
    the same documents and indexes afterwards. *)
Theorem skipped_collection_untouched (deps : Dependencies) (w : World)
    (db c : string) :
  includes (overwrite deps) db = false ->
  is_Some (dst w !! (db, c)) ->
  exists evs,
    (cloneDatabases env source gas deps w).2 = replay evs w /\
    Forall (allowed_event (fun req => ~ mutates (db, c) req)) evs /\
    dst (cloneDatabases env source gas deps w).2 !! (db, c) = dst w !! (db, c).
Proof.
  intros Hov Hin.
  pose proof (emits_databases_loop db c (overwrite deps) (skipIndexes deps)
                (databases deps) w Hov Hin) as He.
  destruct He as (evs & Hw & Hall). exists evs.
  split; [exact Hw|]. split; [exact Hall|].
  unfold cloneDatabases. rewrite Hw. by apply replay_frame.
Qed.

End Confinement.

(** ** Ordered range queries *)

Lemma key_lt_trans a b c : key_lt a b -> key_lt b c -> key_lt a c.
Proof.
  unfold key_lt. destruct (_id a), (_id b), (_id c); try tauto. lia.
Qed.

Lemma key_lt_leb a b : key_lt a b -> id_leb (_id a) (_id b) = true.
Proof.
  unfold key_lt, id_leb. destruct (_id a), (_id b); try tauto. lia.
Qed.

Lemma key_lt_not_leb a b : key_lt a b -> id_leb (_id b) (_id a) = false.
Proof.
  unfold key_lt, id_leb. destruct (_id a), (_id b); try tauto. lia.
Qed.

Lemma key_total a b :
  has_key a -> has_key b -> _id a <> _id b -> key_lt a b \/ key_lt b a.
Proof.
  unfold key_lt. intros [x ->] [y ->] Hne.
  destruct (Z.lt_trichotomy x y) as [?|[->|?]]; auto. congruence.
Qed.

Lemma insert_by_id_perm d l : insert_by_id d l ≡ₚ d :: l.
Proof.
  induction l as [|x l IH]; simpl; [done|].
  destruct (id_leb (_id x) (_id d)); [|done].
  rewrite IH. apply perm_swap.
Qed.

Lemma sort_by_id_perm l : sort_by_id l ≡ₚ l.
Proof.
  induction l as [|d l IH]; simpl; [done|].
  by rewrite insert_by_id_perm, IH.
Qed.

Lemma insert_by_id_sorted d l :
  StronglySorted key_lt l ->
  Forall (fun x => key_lt x d \/ key_lt d x) l ->
  StronglySorted key_lt (insert_by_id d l).
Proof.
  induction 1 as [|x l Hs IH Hx]; intros Hd; simpl.
  - repeat constructor.
  - apply Forall_cons in Hd as [Hxd Hd].
    destruct (id_leb (_id x) (_id d)) eqn:Hle.
    + assert (key_lt x d).
      { destruct Hxd as [?|Hdx]; [done|].
        apply key_lt_not_leb in Hdx. congruence. }
      constructor; [by apply IH|].
      rewrite insert_by_id_perm. by constructor.
    + assert (Hdx : key_lt d x).
      { destruct Hxd as [Hxd|?]; [|done].
        apply key_lt_leb in Hxd. congruence. }
      constructor; [by constructor|].
      constructor; [done|].
      eapply Forall_impl; [exact Hx|]. intros y. by apply key_lt_trans.
Qed.

Lemma sort_by_id_sorted l :
  Forall has_key l -> NoDup (map _id l) ->
  StronglySorted key_lt (sort_by_id l).
Proof.
  induction l as [|d l IH]; simpl; intros Hk Hnd; [constructor|].
  apply Forall_cons in Hk as [Hd Hk]. apply NoDup_cons in Hnd as [Hnin Hnd].
  apply insert_by_id_sorted; [by apply IH|].
  apply Forall_forall. intros x Hx. rewrite sort_by_id_perm in Hx.
  apply key_total; [|done|].
  - by eapply Forall_forall in Hk.
  - intros Heq. apply Hnin. rewrite <- Heq. by apply list_elem_of_fmap_2.
Qed.

Lemma insert_by_id_filter (P : Document -> bool) d l :
  StronglySorted key_lt l ->
  Forall (fun x => key_lt x d \/ key_lt d x) l ->
  List.filter P (insert_by_id d l)
  = if P d then insert_by_id d (List.filter P l) else List.filter P l.
Proof.
  induction 1 as [|x l Hs IH Hx]; intros Hd; simpl.
  - by destruct (P d).
  - apply Forall_cons in Hd as [Hxd Hd].
    destruct (id_leb (_id x) (_id d)) eqn:Hle; simpl.
    + rewrite (IH Hd). destruct (P x), (P d); simpl; by rewrite ?Hle.
    + assert (Hdx : key_lt d x).
      { destruct Hxd as [Hxd|?]; [|done].
        apply key_lt_leb in Hxd. congruence. }
      destruct (P d); [|done].
      assert (Hall : Forall (key_lt d) (x :: l)).
      { constructor; [done|].
        eapply Forall_impl; [exact Hx|]. intros y. by apply key_lt_trans. }
      change (if P x then x :: List.filter P l else List.filter P l)
        with (List.filter P (x :: l)).
      assert (Hf : Forall (key_lt d) (List.filter P (x :: l))).
      { apply Forall_forall. intros y Hy.
        apply list_elem_of_In, List.filter_In in Hy as [Hy _].
        apply list_elem_of_In in Hy. by eapply Forall_forall in Hall. }
      destruct (List.filter P (x :: l)) as [|y ys]; [done|]. simpl.
      apply Forall_cons in Hf as [Hy _].
      by rewrite (key_lt_not_leb _ _ Hy).
Qed.

Lemma sort_by_id_filter (P : Document -> bool) l :
  Forall has_key l -> NoDup (map _id l) ->
  List.filter P (sort_by_id l) = sort_by_id (List.filter P l).
Proof.
  induction l as [|d l IH]; simpl; intros Hk Hnd; [done|].
  apply Forall_cons in Hk as [Hd Hk]. apply NoDup_cons in Hnd as [Hnin Hnd].
  rewrite insert_by_id_filter.
  - rewrite (IH Hk Hnd). by destruct (P d).
  - by apply sort_by_id_sorted.
  - apply Forall_forall. intros x Hx. rewrite sort_by_id_perm in Hx.
    apply key_total; [|done|].
    + by eapply Forall_forall in Hk.
    + intros Heq. apply Hnin. rewrite <- Heq. by apply list_elem_of_fmap_2.
Qed.

Lemma filter_all (P : Document -> bool) l :
  Forall (fun d => P d = true) l -> List.filter P l = l.
Proof. induction 1 as [|d l Hd _ IH]; simpl; [done|]. by rewrite Hd, IH. Qed.

Lemma filter_none (P : Document -> bool) l :
  Forall (fun d => P d = false) l -> List.filter P l = [].
Proof. induction 1 as [|d l Hd _ IH]; simpl; [done|]. by rewrite Hd. Qed.

(** In a sorted collection the documents after the last one seen are
    exactly those with a greater key. *)
Lemma filter_after_last seen rest dl k :
  StronglySorted key_lt (seen ++ rest) -> last seen = Some dl ->
  _id dl = Some k ->
  List.filter (matches (Some k)) (seen ++ rest) = rest.
Proof.
  intros Hs Hl Hk. apply last_Some in Hl as [seen' ->].
  rewrite List.filter_app, filter_none, filter_all; [done| |].
  - apply Forall_forall. intros y Hy.
    assert (Hlt : key_lt dl y).
    { eapply StronglySorted_app_1_elem_of; [exact Hs| |exact Hy].
      apply elem_of_app. right. by apply list_elem_of_singleton. }
    unfold key_lt in Hlt. unfold matches. rewrite Hk in Hlt.
    destruct (_id y); [|done]. lia.
  - apply Forall_forall. intros x Hx. unfold matches.
    apply elem_of_app in Hx as [Hx|Hx].
    + assert (Hlt : key_lt x dl).
      { apply StronglySorted_app_1_l in Hs.
        eapply StronglySorted_app_1_elem_of; [exact Hs|exact Hx|].
        by apply list_elem_of_singleton. }
      unfold key_lt in Hlt. rewrite Hk in Hlt.
      destruct (_id x); [|done]. lia.
    + apply list_elem_of_singleton in Hx as ->. rewrite Hk. lia.
Qed.

Lemma pages_read_app docs evs1 evs2 :
  pages_read docs (evs1 ++ evs2) = pages_read docs evs1 ++ pages_read docs evs2.
Proof. unfold pages_read. apply flat_map_app. Qed.

Lemma pages_read_no_find docs evs :
  Forall (allowed_event not_find) evs -> pages_read docs evs = [].
Proof.
  induction 1 as [|ev evs Hev _ IH]; [done|].
  simpl. rewrite IH. by destruct ev as [[] []|].
Qed.

Lemma sorted_pages_chain (pages : list (list Document)) i p q x y :
  StronglySorted key_lt (concat pages) ->
  pages !! i = Some p -> pages !! S i = Some q ->
  x ∈ p -> y ∈ q -> key_lt x y.
Proof.
  revert i. induction pages as [|p0 pages IH]; intros i Hs Hp Hq Hx Hy; [done|].
  simpl in Hs. destruct i as [|i]; simpl in Hp, Hq.
  - injection Hp as ->. destruct pages as [|q0 pages]; [done|].
    simpl in Hq. injection Hq as ->.
    eapply StronglySorted_app_1_elem_of; [exact Hs|exact Hx|].
    simpl. apply elem_of_app. by left.
  - apply StronglySorted_app_1_r in Hs. by eapply IH.
Qed.

Section Pagination.
Variable env : Env.
Variable source : Source.
Variable gas : nat.
Variable src dest : Namespace.

Let docs := sourceDocuments source src.

Hypothesis Hkeys : Forall has_key docs.
Hypothesis Hnodup : NoDup (map _id docs).
Hypothesis Hgas : (7 <= gas)%nat.

Lemma find_page_rest seen rest lastId :
  sort_by_id docs = seen ++ rest ->
  match last seen with
  | Some dl => lastId = _id dl
  | None => lastId = None
  end ->
  find_page docs lastId = take PAGE_SIZE rest.
Proof.
  intros Hsplit Hlast. unfold find_page.
  rewrite <- sort_by_id_filter by done. f_equal.
  pose proof (sort_by_id_sorted docs Hkeys Hnodup) as Hs.
  rewrite Hsplit in Hs |- *.
  destruct (last seen) as [dl|] eqn:Hl.
  - subst lastId.
    assert (Hdl : has_key dl).
    { eapply Forall_forall; [exact Hkeys|].
      rewrite <- (sort_by_id_perm docs), Hsplit.
      apply elem_of_app. left. by eapply last_Some_elem_of. }
    destruct Hdl as [k Hk]. rewrite Hk. by eapply filter_after_last.
  - subst lastId. apply last_None in Hl as ->. simpl.
    apply filter_all. by apply Forall_forall.
Qed.

Lemma cloneCollection_loop_pages fuel :
  forall seen rest lastId processedDocs w,
    sort_by_id docs = seen ++ rest ->
    match last seen with
    | Some dl => lastId = _id dl
    | None => lastId = None
    end ->
    (length rest < fuel)%nat ->
    exists evs r,
      cloneCollection_loop env source gas fuel src dest processedDocs lastId w
      = (r, replay evs w) /\
      r <> OutOfFuel /\
      Forall (fun p => (length p <= PAGE_SIZE)%nat) (pages_read docs evs) /\
      (exists n, concat (pages_read docs evs) = take n rest) /\
      (r = Ret tt -> concat (pages_read docs evs) = rest).
Proof.
  induction fuel as [|fuel IH]; intros seen rest lastId processedDocs w Hsplit Hlast Hlen;
    [lia|].
  simpl. unfold bind at 1, find, bind at 1. rewrite call_eq.
  destruct (env (trace w) (Find src lastId)) as [|e m] eqn:Hfind.
  2:{ exists [Call (Find src lastId) (Failure e m)], (Throw e).
      split; [done|]. split; [done|]. simpl.
      split; [done|]. split; [by exists 0%nat|done]. }
  unfold ret at 1. fold docs.
  rewrite (find_page_rest seen rest lastId Hsplit Hlast).
  set (w1 := step w (Call (Find src lastId) Success)).
  assert (Hpage1 : pages_read docs [Call (Find src lastId) Success]
                   = [take PAGE_SIZE rest]).
  { simpl. by rewrite (find_page_rest seen rest lastId Hsplit Hlast). }
  destruct (take PAGE_SIZE rest) as [|d page] eqn:Hpage.
  - exists [Call (Find src lastId) Success], (Ret tt).
    split; [done|]. split; [done|]. rewrite Hpage1. simpl.
    split; [repeat constructor; lia|].
    apply take_nil_inv in Hpage as [Hp | ->]; [done|].
    split; [by exists 0%nat|done].
  - assert (Hpglen : (length (d :: page) <= PAGE_SIZE)%nat)
      by (rewrite <- Hpage, length_take; lia).
    set (pg := d :: page) in *.
    destruct (emits_insertBatch_rec env gas not_find gas dest pg 1 w1)
      as (evs1 & Hw1 & Hall1); [done..|].
    pose proof (finishes_insertBatch env gas dest pg w1 Hgas) as Hfin.
    unfold finishes in Hfin. fold (insertBatch env gas dest pg 1) in Hw1.
    unfold bind at 1.
    destruct (insertBatch env gas dest pg 1 w1) as [[[]|e|] w2] eqn:Hb;
      simpl in Hw1, Hfin; [| |done]; subst w2.
    + (* the page is written: probe, then the next page *)
      unfold bind at 1. rewrite ping_eq.
      set (w3 := step _ _).
      assert (Hrest : rest = pg ++ drop PAGE_SIZE rest)
        by (by rewrite <- Hpage, take_drop).
      assert (Hlastpg : exists dl, last pg = Some dl)
        by (by apply last_is_Some).
      destruct Hlastpg as [dl Hdl].
      destruct (IH (seen ++ pg) (drop PAGE_SIZE rest)
                  (next_lastId pg lastId)
                  (processedDocs + Z.of_nat (length pg)) w3)
        as (evs' & r & Hrun & Hr & Hlens & [n Hpre] & Hall).
      { rewrite Hsplit, <- app_assoc. by rewrite <- Hrest. }
      { rewrite last_app, Hdl. unfold next_lastId. rewrite Hdl.
        assert (Hk : has_key dl).
        { eapply Forall_forall; [exact Hkeys|].
          rewrite <- (sort_by_id_perm docs), Hsplit, Hrest.
          apply elem_of_app. right. apply elem_of_app. left.
          by eapply last_Some_elem_of. }
        destruct Hk as [k ->]. done. }
      { rewrite Hrest, length_app in Hlen.
        unfold pg in Hlen. simpl in Hlen. lia. }
      exists (Call (Find src lastId) Success :: evs1
              ++ Call (Ping dest.1) (env (trace (replay evs1 w1)) (Ping dest.1))
              :: evs'), r.
      split.
      { rewrite Hrun. f_equal. subst w3 w1.
        by rewrite replay_cons, replay_app, replay_cons. }
      split; [done|].
      change (?x :: ?l ++ ?y :: ?l') with ([x] ++ l ++ [y] ++ l').
      rewrite !pages_read_app, Hpage1, (pages_read_no_find _ _ Hall1).
      simpl. unfold pg in *.
      split.
      { by constructor. }
      split.
      { exists (PAGE_SIZE + n)%nat. rewrite Hpre.
        change ((d :: page) ++ take n (drop PAGE_SIZE rest)
                = take (PAGE_SIZE + n) rest).
        rewrite <- Hpage. apply take_take_drop. }
      intros Hret. rewrite (Hall Hret).
      change ((d :: page) ++ drop PAGE_SIZE rest = rest).
      rewrite <- Hpage. apply take_drop.
    + (* the write failed for good: the copy of the collection stops *)
      exists (Call (Find src lastId) Success :: evs1), (Throw e).
      split.
      { reflexivity. }
      split; [done|].
      change (?x :: ?l) with ([x] ++ l).
      rewrite pages_read_app, Hpage1, (pages_read_no_find _ _ Hall1). simpl.
      split; [constructor; [exact Hpglen | constructor]|].
      split; [|done]. exists PAGE_SIZE. by rewrite app_nil_r.
Qed.


Lemma safeEstimatedCount_run w :
  exists evs r,
    safeEstimatedCount env source src w = (r, replay evs w) /\
    r <> OutOfFuel /\ Forall (allowed_event not_find) evs.
Proof.
  unfold safeEstimatedCount, try_catch, bind. rewrite call_eq.
  destruct (env (trace w) (EstimatedDocumentCount src)) as [|e m] eqn:H1.
  - exists [Call (EstimatedDocumentCount src) Success],
      (Ret (Z.of_nat (length (sourceDocuments source src)))).
    split; [reflexivity|]. split; [done|]. by repeat constructor.
  - rewrite call_eq.
    set (w1 := step w _).
    destruct (env (trace w1) (AggregateCount src)) as [|e' m'] eqn:H2.
    + exists [Call (EstimatedDocumentCount src) (Failure e m);
              Call (AggregateCount src) Success],
        (Ret (Z.of_nat (length (sourceDocuments source src)))).
      split; [reflexivity|]. split; [done|]. by repeat constructor.
    + exists [Call (EstimatedDocumentCount src) (Failure e m);
              Call (AggregateCount src) (Failure e' m')], (Throw e').
      split; [reflexivity|]. split; [done|]. by repeat constructor.
Qed.

(** C1: over a collection whose documents all carry a key, no two alike,
    one run of [cloneCollection] reads pages of at most [PAGE_SIZE]
    documents; read one after the other they list the documents in
    ascending key order, every key of a page being greater than every key
    of the page before; and a run that is not cut short by an error has
    read every document exactly once. *)
Theorem pagination_complete w :
  (length docs < gas)%nat ->
  exists evs r,
    cloneCollection env source gas src dest w = (r, replay evs w) /\
    r <> OutOfFuel /\
    let pages := pages_read docs evs in
    Forall (fun p => (length p <= PAGE_SIZE)%nat) pages /\
    StronglySorted key_lt (concat pages) /\
    (forall i p q x y,
        pages !! i = Some p -> pages !! S i = Some q ->
        x ∈ p -> y ∈ q -> key_lt x y) /\
    (exists n, concat pages = take n (sort_by_id docs)) /\
    (r = Ret tt -> concat pages = sort_by_id docs /\ concat pages ≡ₚ docs).
Proof.
  intros Hfuel.
  pose proof (sort_by_id_sorted docs Hkeys Hnodup) as Hsorted.
  destruct (safeEstimatedCount_run w) as (evs0 & r0 & Hrun0 & Hr0 & Hnf0).
  assert (Hshape : exists evs r,
    cloneCollection env source gas src dest w = (r, replay evs w) /\
    r <> OutOfFuel /\
    Forall (fun p => (length p <= PAGE_SIZE)%nat) (pages_read docs evs) /\
    (exists n, concat (pages_read docs evs) = take n (sort_by_id docs)) /\
    (r = Ret tt -> concat (pages_read docs evs) = sort_by_id docs)).
  { unfold cloneCollection, bind. rewrite Hrun0.
    destruct r0 as [total|e|]; [| |done].
    - destruct (cloneCollection_loop_pages gas [] (sort_by_id docs) None 0
                  (replay evs0 w))
        as (evs & r & Hrun & Hr & Hlens & Hpre & Hall); [done|done| |].
      { by rewrite (Permutation_length (sort_by_id_perm docs)). }
      exists (evs0 ++ evs), r.
      rewrite replay_app, pages_read_app, (pages_read_no_find _ _ Hnf0).
      by repeat split.
    - exists evs0, (Throw e). rewrite (pages_read_no_find _ _ Hnf0).
      split; [done|]. split; [done|]. split; [done|].
      split; [by exists 0%nat|done]. }
  destruct Hshape as (evs & r & Hrun & Hr & Hlens & [n Hpre] & Hall).
  assert (Hs : StronglySorted key_lt (concat (pages_read docs evs))).
  { rewrite Hpre. rewrite <- (take_drop n (sort_by_id docs)) in Hsorted.
    by apply StronglySorted_app_1_l in Hsorted. }
  exists evs, r. cbv zeta.
  split; [exact Hrun|]. split; [exact Hr|]. split; [exact Hlens|].
  split; [exact Hs|].
  split; [intros i p q x y; by apply sorted_pages_chain|].
  split; [by exists n|].
  intros Hret. split; [by apply Hall|].
  rewrite (Hall Hret). apply sort_by_id_perm.
Qed.

End Pagination.

Lemma orders_keys : Forall has_key orders /\ NoDup (map _id orders).
Proof.
  split.
  - apply Forall_forall. intros d Hd. apply list_elem_of_fmap in Hd as (k & -> & _).
    by eexists.
  - apply (bool_decide_unpack _). by vm_compute.
Qed.

Lemma pagination_complete_witness :
  Forall has_key (sourceDocuments shop orders_ns) /\
  NoDup (map _id (sourceDocuments shop orders_ns)) /\
  (7 <= 30)%nat /\
  (length (sourceDocuments shop orders_ns) < 30)%nat /\
  exists evs,
    cloneCollection env_flaky shop 30 orders_ns orders_ns fresh
    = (Ret tt, replay evs fresh) /\
    map (map _id) (pages_read (sourceDocuments shop orders_ns) evs)
    = [ map Some [1; 2; 3; 4; 5; 6; 7; 8; 9; 10];
        map Some [11; 12; 13; 14; 15; 16; 17; 18; 19; 20];
        map Some [21; 22; 23; 24; 25];
        [] ] /\
    concat (pages_read (sourceDocuments shop orders_ns) evs)
      ≡ₚ sourceDocuments shop orders_ns.
Proof.
  pose proof orders_keys as [Hk Hn].
  split; [exact Hk|]. split; [exact Hn|]. split; [lia|].
  split; [vm_compute; lia|].
  destruct (pagination_complete env_flaky shop 30 orders_ns orders_ns Hk Hn
              ltac:(lia) fresh)
    as (evs & r & Hrun & _ & _ & _ & _ & _ & Hall); [vm_compute; lia|].
  exists evs.
  assert (Hr : r = Ret tt).
  { assert (H : (cloneCollection env_flaky shop 30 orders_ns orders_ns fresh).1
                = Ret tt) by (vm_compute; reflexivity).
    rewrite Hrun in H. exact H. }
  subst r. split; [exact Hrun|].
  split; [|apply Hall; reflexivity].
  assert (Ht : trace (cloneCollection env_flaky shop 30 orders_ns orders_ns fresh).2
               = trace fresh ++ evs)
    by (rewrite Hrun; cbn [snd]; apply trace_replay).
  change (trace fresh ++ evs) with evs in Ht.
  rewrite <- Ht. vm_compute. reflexivity.
Defined.

Lemma skipped_collection_untouched_witness :
  includes (overwrite shop_run) "shop" = false /\
  is_Some (dst stocked !! ("shop", "orders")) /\
  dst (cloneDatabases env_ok shop 30 shop_run stocked).2 !! ("shop", "orders")
  = dst stocked !! ("shop", "orders").
Proof.
  assert (Hin : is_Some (dst stocked !! ("shop", "orders")))
    by (eexists; vm_compute; reflexivity).
  split; [reflexivity|]. split; [exact Hin|].
  destruct (skipped_collection_untouched env_ok shop 30 shop_run stocked
              "shop" "orders" eq_refl Hin) as (evs & _ & _ & H).
  exact H.
Defined.

(** The same run copies the collection that was not there. *)
Example customers_copied :
  (c_docs <$> dst (cloneDatabases env_ok shop 30 shop_run stocked).2
                !! ("shop", "customers"))
  = Some (map order [1; 2; 3])
  /\ (c_docs <$> dst (cloneDatabases env_ok shop 30 shop_run stocked).2
                   !! ("shop", "orders"))
     = Some [order 100].
Proof. split; vm_compute; reflexivity. Qed.

End CloneFacts.

(* ===================================================================== *)
(** * Facts about the conflict resolver and the wizard *)
(* ===================================================================== *)

Module CliFacts.
Import Prompts Cli.

Lemma promptConflictResolution_loop_cancel (user : User) before dbName after :
  forall asked ov sk,
    (forall i d, before !! i = Some d -> user (asked ++ take i before) d <> Cancel) ->
    user (asked ++ before) dbName = Cancel ->
    exists ov' sk',
      promptConflictResolution_loop user asked ov sk (before ++ dbName :: after)
      = ({| overwrite := ov'; skip := sk'; cancelled := true |},
         asked ++ before ++ [dbName]).
Proof.
  induction before as [|d before IH]; intros asked ov sk Hbefore Hcancel; simpl.
  - rewrite app_nil_r in Hcancel. rewrite Hcancel. by eexists _, _.
  - pose proof (Hbefore 0%nat d eq_refl) as Hd. simpl in Hd.
    rewrite app_nil_r in Hd.
    assert (Hnext : forall i d', before !! i = Some d' ->
              user ((asked ++ [d]) ++ take i before) d' <> Cancel).
    { intros i d' Hi. rewrite <- app_assoc. apply (Hbefore (S i) d' Hi). }
    assert (Hc : user ((asked ++ [d]) ++ before) dbName = Cancel)
      by (by rewrite <- app_assoc).
    destruct (user asked d); [| |done].
    + destruct (IH (asked ++ [d]) (ov ++ [d]) sk Hnext Hc) as (ov' & sk' & ->).
      exists ov', sk'. by rewrite <- app_assoc.
    + destruct (IH (asked ++ [d]) ov (sk ++ [d]) Hnext Hc) as (ov' & sk' & ->).
      exists ov', sk'. by rewrite <- app_assoc.
Qed.

(** C4: when the user answers "cancel" for a conflicting database, the
    prompts stop at that database and the run ends before the copy engine
    is called: whatever the engine would do, the destination deployment
    is the one the run started with. *)
Theorem conflict_abort_atomic
    (cloneDatabases : Clone.Dependencies -> M Clone.World unit)
    (skipIndexes : bool) (inp : Inputs) (s : State)
    (before : list string) (dbName : string) (after : list string) :
  connectSource inp = None -> connectDestination inp = None ->
  databaseNamesNoConfig inp <> [] ->
  List.filter (Clone.includes (destinationDatabases inp))
    (promptDatabaseSelection (ticked inp) (databaseNamesNoConfig inp))
  = before ++ dbName :: after ->
  (forall i d, before !! i = Some d -> user inp (take i before) d <> Cancel) ->
  user inp before dbName = Cancel ->
  let run := runCli cloneDatabases skipIndexes inp s in
  run.1 = Ret tt /\
  world run.2 = world s /\
  asked run.2 = asked s ++ before ++ [dbName] /\
  last (console run.2) = Some (Log "Cloning cancelled by user due to conflicts.") /\
  closed run.2 = closed s ++ ["source"; "destination"] /\
  (fst (promptConflictResolution (user inp) (before ++ dbName :: after))).(cancelled)
  = true /\
  snd (promptConflictResolution (user inp) (before ++ dbName :: after))
  = before ++ [dbName].
Proof.
  intros Hcs Hcd Hdbs Hconf Hbefore Hcancel.
  destruct (promptConflictResolution_loop_cancel (user inp) before dbName after
              [] [] [] Hbefore Hcancel) as (ov & sk & Hres).
  fold (promptConflictResolution (user inp) (before ++ dbName :: after)) in Hres.
  cbv zeta. rewrite Hres.
  unfold runCli, try_finally, try_catch, attempt.
  rewrite Hcs, Hcd.
  destruct (databaseNamesNoConfig inp) as [|n0 ns0] eqn:Hn; [done|].
  rewrite <- Hn in *.
  destruct (promptDatabaseSelection (ticked inp) (databaseNamesNoConfig inp))
    as [|s0 sel] eqn:Hsel.
  { simpl in Hconf. by destruct before. }
  rewrite Hconf.
  destruct (before ++ dbName :: after) as [|c0 cs] eqn:Hc; [by destruct before|].
  rewrite Hres.
  cbv beta iota zeta delta [bind log say connect note_asked ret fst snd console
    world asked closed source destination release cancelled].
  repeat split; try done.
  by rewrite last_snoc.
Qed.

Import Fixtures.

Lemma conflict_abort_atomic_witness :
  connectSource (two_databases Cancel) = None /\
  connectDestination (two_databases Cancel) = None /\
  user (two_databases Cancel) [] "shop" = Cancel /\
  world (runCli (Clone.cloneDatabases env_ok shop_and_crm 30) false
           (two_databases Cancel) (initial stocked)).2
  = stocked.
Proof.
  split; [reflexivity|]. split; [reflexivity|]. split; [reflexivity|].
  assert (Hne : databaseNamesNoConfig (two_databases Cancel) <> []) by done.
  assert (Hbefore : forall (i : nat) (d : string), @nil string !! i = Some d ->
            user (two_databases Cancel) (take i []) d <> Cancel)
    by (intros i d Hi; by destruct i).
  destruct (conflict_abort_atomic (Clone.cloneDatabases env_ok shop_and_crm 30)
              false (two_databases Cancel) (initial stocked) [] "shop" []
              eq_refl eq_refl Hne eq_refl Hbefore eq_refl)
    as (_ & Hw & _).
  exact Hw.
Defined.

(** Had the user chosen to overwrite, the same run would have dropped and
    rewritten [shop] and created [crm]. *)
Example overwrite_mutates_both :
  let w := world (runCli (Clone.cloneDatabases env_ok shop_and_crm 30) false
                    (two_databases Overwrite) (initial stocked)).2 in
  (length ∘ Clone.c_docs <$> Clone.dst w !! ("shop", "orders")) = Some 25%nat /\
  (length ∘ Clone.c_docs <$> Clone.dst w !! ("crm", "leads")) = Some 2%nat.
Proof. split; vm_compute; reflexivity. Qed.

(** The run of test/mongodb-cloner.spec.ts, "runs the CLI flow with mocked
    prompts and database calls". *)
Example test_run_logs :
  console (runCli spy false test_inputs (initial fresh)).2
  = map Log
      [ "Welcome to MongoDB Cloner";
        "Connecting to MongoDB...";
        "✓ Connected successfully!";
        "Ready to clone: db1, db2";
        "Connecting to destination MongoDB...";
        "✓ Connected successfully!";
        "No conflicts detected on destination.";
        "Summary:";
        "  Source URI: mongodb://localhost:27017";
        "  Destination URI: mongodb://localhost:27018";
        "  Databases queued: db1, db2";
        "✅ Cloning completed successfully." ]
  /\ closed (runCli spy false test_inputs (initial fresh)).2
     = ["source"; "destination"].
Proof. split; vm_compute; reflexivity. Qed.

End CliFacts.

(* ===================================================================== *)
(** * Facts about the externalization migrator *)
(* ===================================================================== *)

Module XronoxFacts.
Import JS Xronox.

Lemma unchanged_refl w : unchanged w w.
Proof. repeat split; exists []; by rewrite app_nil_r. Qed.

Lemma unchanged_trans w1 w2 w3 : unchanged w1 w2 -> unchanged w2 w3 -> unchanged w1 w3.
Proof.
  intros (Ho & Hc & Hn & (evs & Ht & Hw) & (ls & Hl))
         (Ho' & Hc' & Hn' & (evs' & Ht' & Hw') & (ls' & Hl')).
  split; [congruence|]. split; [congruence|]. split; [congruence|]. split.
  - exists (evs ++ evs'). split.
    + by rewrite Ht', Ht, app_assoc.
    + unfold writes in *. by rewrite List.filter_app, Hw, Hw'.
  - exists (ls ++ ls'). by rewrite Hl', Hl, app_assoc.
Qed.

Lemma unchanged_record req o w :
  is_write req = false -> unchanged w (record (Call req o) w).
Proof.
  intros Hr. repeat split.
  - exists [Call req o]. split; [done|]. unfold writes. simpl. by rewrite Hr.
  - exists []. by rewrite app_nil_r.
Qed.

Lemma storage_key_truthy v k : storage_key v = VStr k -> truthy v = true.
Proof. by destruct v. Qed.

Section MigratorFacts.
Variable env : Env.
Variable source : string -> list Obj.

Lemma call_unfold req w :
  call env req w =
  match fault env (trace w) req with
  | Some e => (Throw e, record (Call req (Some e)) w)
  | None => (Ret tt, record (Call req None) (effect req w))
  end.
Proof. reflexivity. Qed.

Lemma unchanged_call req w :
  is_write req = false -> unchanged w (call env req w).2.
Proof.
  intros Hr. rewrite call_unfold.
  destruct (fault env (trace w) req) as [e|]; cbn [snd].
  - by apply unchanged_record.
  - assert (effect req w = w) as -> by (by destruct req).
    by apply unchanged_record.
Qed.

Lemma unchanged_say l w : unchanged w (say l w).2.
Proof.
  repeat split; [exists []; by rewrite app_nil_r | by exists [l]].
Qed.

(** C9: a source record without [_id] is passed over before anything is
    looked up, uploaded, counted or written, with or without resume: the
    call returns [null] and leaves the world as it was, and the loop of
    [migrateCollection] moves on without counting it or printing
    progress. *)
Theorem record_without_id_skipped (collectionName : string) (doc : Obj) :
  get "_id" doc = VUndef ->
  (forall resume w,
      migrateDocument env collectionName doc resume w = (Ret None, w)) /\
  (forall resume total rest migrated w,
      fault env (trace w) (HasNext collectionName) = None ->
      migrate_loop env collectionName resume total (doc :: rest) migrated w
      = migrate_loop env collectionName resume total rest migrated
          (record (Call (HasNext collectionName) None) w)).
Proof.
  intros Hid.
  assert (Hdoc : forall resume w,
             migrateDocument env collectionName doc resume w = (Ret None, w)).
  { intros resume w. unfold migrateDocument. by rewrite Hid. }
  split; [exact Hdoc|].
  intros resume total rest migrated w Hnext.
  cbn [migrate_loop]. unfold bind at 1. rewrite call_unfold, Hnext.
  unfold bind at 1. by rewrite Hdoc.
Qed.

Lemma migrateDocument_resume_skip (collectionName : string) (doc : Obj) w k :
  truthy (get "_id" doc) = true ->
  storage_key (findOne (get "_id" doc) (heads_of collectionName w)) = VStr k ->
  k <> EmptyString ->
  migrateDocument env collectionName doc true w
  = match fault env (trace w)
            (FindOne (collectionName ++ "_head")%string (get "_id" doc)) with
    | Some e =>
        (Throw e,
         record (Call (FindOne (collectionName ++ "_head")%string (get "_id" doc))
                   (Some e)) w)
    | None =>
        (Ret None,
         record (Call (FindOne (collectionName ++ "_head")%string (get "_id" doc))
                   None) w)
    end.
Proof.
  intros Hid Hkey Hk. unfold migrateDocument. rewrite Hid.
  cbn [negb]. unfold bind at 1, bind at 1. rewrite call_unfold.
  destruct (fault env (trace w) _) as [e|]; [done|].
  unfold bind at 1, read, ret. cbn [effect record collections].
  fold (heads_of collectionName w). rewrite Hkey.
  rewrite (storage_key_truthy _ _ Hkey). cbn [truthy andb].
  destruct (String.eqb_spec k EmptyString); [done|]. done.
Qed.


Lemma migrateDocument_no_id (collectionName : string) (doc : Obj) resume w :
  truthy (get "_id" doc) = false ->
  migrateDocument env collectionName doc resume w = (Ret None, w).
Proof. intros Hid. unfold migrateDocument. by rewrite Hid. Qed.

Lemma heads_of_unchanged c w w' : unchanged w w' -> heads_of c w' = heads_of c w.
Proof. intros (_ & Hc & _). unfold heads_of. by rewrite Hc. Qed.

Lemma getJSON_unchanged key w : unchanged w (getJSON env key w).2.
Proof.
  unfold getJSON, bind.
  pose proof (unchanged_call (GetJSON (bucket env) key) w eq_refl) as Hu.
  destruct (call env (GetJSON (bucket env) key) w) as [[[]|e|] w1]; try exact Hu.
  simpl in Hu. destruct key; try exact Hu.
  by destruct (objects w1 !! s).
Qed.

Lemma validate_loop_unchanged c hc heads :
  forall validated failures w,
    unchanged w (validate_loop env c hc heads validated failures w).2.
Proof.
  induction heads as [|doc heads IH]; intros validated failures w;
    cbn [validate_loop]; unfold bind at 1;
    pose proof (unchanged_call (HasNext hc) w eq_refl) as Hu;
    destruct (call env (HasNext hc) w) as [[[]|e|] w1]; try exact Hu;
    cbn [snd] in Hu.
  destruct (truthy (storage_key (VObj doc)));
    cbn [negb]; [|eapply unchanged_trans; [exact Hu|apply IH]].
  unfold bind at 1, try_catch, bind at 1.
    pose proof (getJSON_unchanged (storage_key (VObj doc)) w1) as Hg.
    destruct (getJSON env (storage_key (VObj doc)) w1) as [[body|e|] w2];
      cbn [snd] in Hg.
  - eapply unchanged_trans; [exact Hu|].
    eapply unchanged_trans; [exact Hg|]. apply IH.
  - unfold bind at 1.
    pose proof (unchanged_say (ValidationFailed c (storage_key (VObj doc))
                                 (message e)) w2) as Hs.
    destruct (say _ w2) as [[[]|?|] w3] eqn:Hsay; cbn [snd] in Hs;
      try (unfold say in Hsay; discriminate).
    unfold ret at 1.
    eapply unchanged_trans; [exact Hu|].
    eapply unchanged_trans; [exact Hg|].
    eapply unchanged_trans; [exact Hs|]. apply IH.
  - eapply unchanged_trans; [exact Hu|exact Hg].
Qed.

Lemma validateCollection_unchanged c w :
  unchanged w (validateCollection env c w).2.
Proof.
  unfold validateCollection, bind at 1, read.
  unfold bind at 1.
  pose proof (validate_loop_unchanged c (c ++ "_head")%string
                (default [] (collections w !! (c ++ "_head")%string)) 0 [] w) as Hu.
  destruct (validate_loop env c _ _ 0 [] w) as [[st|e|] w1]; try exact Hu.
  cbn [snd] in Hu.
  eapply unchanged_trans; [exact Hu|].
  destruct st.2; apply unchanged_say.
Qed.

Lemma migrate_loop_resume c total docs :
  forall migrated w,
    fully_migrated docs (heads_of c w) ->
    exists r w',
      migrate_loop env c true total docs migrated w = (r, w') /\
      unchanged w w' /\ console w' = console w /\
      (r = Ret migrated \/ exists e, r = Throw e).
Proof.
  induction docs as [|doc docs IH]; intros migrated w Hfull;
    cbn [migrate_loop]; unfold bind at 1;
    pose proof (unchanged_call (HasNext c) w eq_refl) as Hu;
    rewrite call_unfold in Hu |- *;
    destruct (fault env (trace w) (HasNext c)) as [e|]; cbn [snd] in Hu.
  - eexists _, _. split; [reflexivity|]. split; [exact Hu|]. split; [done|]. eauto.
  - eexists _, _. split; [reflexivity|]. split; [exact Hu|]. split; [done|]. eauto.
  - eexists _, _. split; [reflexivity|]. split; [exact Hu|]. split; [done|]. eauto.
  - set (w1 := record _ _) in *.
    assert (Hrest : forall w2, unchanged w1 w2 -> fully_migrated docs (heads_of c w2)).
    { intros w2 H12 d Hd Hid.
      rewrite (heads_of_unchanged c w w2 (unchanged_trans _ _ _ Hu H12)).
      apply Hfull; [by right|done]. }
    unfold bind at 1.
    destruct (truthy (get "_id" doc)) eqn:Hid.
    + destruct (Hfull doc (or_introl eq_refl) Hid) as (k & Hkey & Hk).
      rewrite <- (heads_of_unchanged c w w1 Hu) in Hkey.
      rewrite (migrateDocument_resume_skip c doc w1 k Hid Hkey Hk).
      pose proof (unchanged_call
                    (FindOne (c ++ "_head")%string (get "_id" doc)) w1 eq_refl) as Hf.
      rewrite call_unfold in Hf.
      destruct (fault env (trace w1) _) as [e|]; cbn [snd] in Hf.
      * eexists _, _. split; [reflexivity|].
        split; [by eapply unchanged_trans|]. split; [done|]. eauto.
      * destruct (IH migrated _ (Hrest _ Hf)) as (r & w' & Hrun & Hu' & Hc & Hr).
        exists r, w'. split; [exact Hrun|].
        split; [eauto using unchanged_trans|]. split; [by rewrite Hc|done].
    + rewrite (migrateDocument_no_id c doc true w1 Hid).
      destruct (IH migrated w1 (Hrest _ (unchanged_refl _)))
        as (r & w' & Hrun & Hu' & Hc & Hr).
      exists r, w'. split; [exact Hrun|].
      split; [eauto using unchanged_trans|]. split; [by rewrite Hc|done].
Qed.

Lemma writes_no_uploads evs : writes evs = [] -> List.filter is_upload evs = [].
Proof.
  induction evs as [|[req o] evs IH]; [done|]. unfold writes. simpl.
  destruct req; simpl; try done; intros H; by apply IH.
Qed.

Ltac fail_case H :=
  eexists _, _; split; [reflexivity|]; split; [exact H|done].

Lemma migrateCollection_resume c v w :
  fully_migrated (source c) (heads_of c w) ->
  exists r w',
    migrateCollection env source c {| resume := true; validate := v |} w = (r, w') /\
    unchanged w w' /\
    (r = Ret tt -> source c <> [] ->
     In (Done 0 (Z.of_nat (length (source c)))) (console w')).
Proof.
  intros Hfull. unfold migrateCollection. unfold bind at 1.
  pose proof (unchanged_call (CountDocuments c) w eq_refl) as H0.
  destruct (call env (CountDocuments c) w) as [[[]|e|] w0];
    cbn [snd] in H0; [|fail_case H0..].
  destruct (Z.of_nat (length (source c)) =? 0)%Z eqn:Hz.
  { eexists _, _. split; [reflexivity|].
    split; [eapply unchanged_trans; [exact H0|apply unchanged_say]|].
    intros _ Hne. destruct (source c); [done|]. simpl in Hz. lia. }
  unfold bind at 1.
  pose proof (unchanged_trans _ _ _ H0
                (unchanged_call (Route c) w0 eq_refl)) as H1.
  destruct (call env (Route c) w0) as [[[]|e|] w1];
    cbn [snd] in H1; [|fail_case H1..].
  unfold bind at 1.
  pose proof (unchanged_trans _ _ _ H1
                (unchanged_call GetMongoClient w1 eq_refl)) as H2.
  destruct (call env GetMongoClient w1) as [[[]|e|] w2];
    cbn [snd] in H2; [|fail_case H2..].
  unfold bind at 1.
  pose proof (unchanged_trans _ _ _ H2
                (unchanged_call (GetSpaces c) w2 eq_refl)) as H3.
  destruct (call env (GetSpaces c) w2) as [[[]|e|] w3];
    cbn [snd] in H3; [|fail_case H3..].
  unfold bind at 1.
  pose proof (unchanged_trans _ _ _ H3
                (unchanged_call (EnsureIndexes c) w3 eq_refl)) as H4.
  destruct (call env (EnsureIndexes c) w3) as [[[]|e|] w4];
    cbn [snd] in H4; [|fail_case H4..].
  destruct (migrate_loop_resume c (Z.of_nat (length (source c))) (source c) 0 w4)
    as (r & w5 & Hrun & H5 & Hc5 & Hr).
  { by rewrite (heads_of_unchanged _ _ _ H4). }
  cbn [resume]. unfold bind at 1. rewrite Hrun.
  pose proof (unchanged_trans _ _ _ H4 H5) as H05.
  destruct Hr as [->|[e ->]]; [|fail_case H05].
  unfold bind at 1.
  pose proof (unchanged_trans _ _ _ H05
                (unchanged_say (Done 0 (Z.of_nat (length (source c)))) w5)) as H6.
  assert (Hin : In (Done 0 (Z.of_nat (length (source c))))
                   (console (say (Done 0 (Z.of_nat (length (source c)))) w5).2)).
  { cbn [say snd console]. apply in_or_app. right. by left. }
  destruct (say (Done 0 (Z.of_nat (length (source c)))) w5) as [[[]|e|] w6] eqn:Hsay;
    try (unfold say in Hsay; discriminate).
  cbn [snd] in H6, Hin. cbn [validate].
  destruct v.
  - pose proof (validateCollection_unchanged c w6) as H7.
    destruct (validateCollection env c w6) as [r7 w7]. cbn [snd] in H7.
    exists r7, w7. split; [done|]. split; [eauto using unchanged_trans|].
    intros _ _. destruct H7 as (_ & _ & _ & _ & lines & ->).
    apply in_or_app. by left.
  - exists (Ret tt), w6. split; [done|]. split; [exact H6|done].
Qed.

(** C5: with resume on, a record whose head document already carries a
    non-empty storage key is passed over after the look-up, with no
    upload and no write; so a run with resume over a collection that is
    migrated in full uploads nothing and leaves every head document and
    every storage object as it was. *)
Theorem resume_is_idempotent (collectionName : string) :
  (forall doc w k,
      truthy (get "_id" doc) = true ->
      storage_key (findOne (get "_id" doc) (heads_of collectionName w)) = VStr k ->
      k <> EmptyString ->
      let run := migrateDocument env collectionName doc true w in
      (run.1 = Ret None \/ exists e, run.1 = Throw e) /\
      unchanged w run.2 /\ console run.2 = console w) /\
  (forall validate w,
      fully_migrated (source collectionName) (heads_of collectionName w) ->
      let run := migrateCollection env source collectionName
                   {| resume := true; validate := validate |} w in
      objects run.2 = objects w /\
      collections run.2 = collections w /\
      counters run.2 = counters w /\
      (exists evs, trace run.2 = trace w ++ evs /\
                   writes evs = [] /\ List.filter is_upload evs = []) /\
      (run.1 = Ret tt -> source collectionName <> [] ->
       In (Done 0 (Z.of_nat (length (source collectionName)))) (console run.2))).
Proof.
  split.
  - intros doc w k Hid Hkey Hk. cbv zeta.
    rewrite (migrateDocument_resume_skip collectionName doc w k Hid Hkey Hk).
    pose proof (unchanged_call
                  (FindOne (collectionName ++ "_head")%string (get "_id" doc))
                  w eq_refl) as Hf.
    rewrite call_unfold in Hf.
    destruct (fault env (trace w) _) as [e|]; cbn [fst snd] in *; eauto.
  - intros v w Hfull. cbv zeta.
    destruct (migrateCollection_resume collectionName v w Hfull)
      as (r & w' & -> & (Ho & Hc & Hn & (evs & Ht & Hw) & _) & Hdone).
    cbn [fst snd].
    split; [exact Ho|]. split; [exact Hc|]. split; [exact Hn|].
    split; [|exact Hdone].
    exists evs. split; [exact Ht|]. split; [exact Hw|]. by apply writes_no_uploads.
Qed.

(** ** The validation pass *)

Lemma getJSON_ok key w :
  readable env (objects w) key ->
  exists body,
    getJSON env key w = (Ret body, record (Call (GetJSON (bucket env) key) None) w).
Proof.
  intros [[body Hb] Hf]. exists body. unfold getJSON, bind.
  rewrite call_unfold, Hf. cbn [effect]. unfold stored in Hb.
  destruct key; try done. cbn [record objects]. by rewrite Hb.
Qed.

Lemma getJSON_fail key w :
  unreadable env (objects w) key ->
  exists e o,
    getJSON env key w = (Throw e, record (Call (GetJSON (bucket env) key) o) w).
Proof.
  intros Hu. unfold getJSON, bind. rewrite call_unfold.
  destruct (fault env (trace w) (GetJSON (bucket env) key)) as [e|] eqn:Hf.
  - by exists e, (Some e).
  - destruct Hu as [Hs|Hs]; [|specialize (Hs (trace w)); rewrite Hf in Hs;
                               by destruct Hs].
    exists (not_found env), None. cbn [effect]. unfold stored in Hs.
    destruct key; try done. cbn [record objects]. by rewrite Hs.
Qed.

Section Validation.
Variable c : string.
Let hc := (c ++ "_head")%string.
Hypothesis cursor_ok : forall tr, fault env tr (HasNext hc) = None.

Lemma validate_loop_readable heads :
  forall validated failures w,
    Forall (fun d => truthy (storage_key (VObj d)) = true ->
                     readable env (objects w) (storage_key (VObj d))) heads ->
    exists w',
      validate_loop env c hc heads validated failures w
      = (Ret (validated + Z.of_nat (length (with_pointer heads)), failures), w') /\
      unchanged w w' /\ console w' = console w.
Proof.
  induction heads as [|d heads IH]; intros validated failures w Hall;
    cbn [validate_loop]; unfold bind at 1; rewrite call_unfold, cursor_ok;
    cbn [effect];
    pose proof (unchanged_record (HasNext hc) None w eq_refl) as Hu;
    set (w1 := record _ w) in *.
  - exists w1. split; [|by split]. unfold ret. simpl. by rewrite Z.add_0_r.
  - apply Forall_cons in Hall as [Hd Hall].
    unfold with_pointer. cbn [List.filter]. fold (with_pointer heads).
    destruct (truthy (storage_key (VObj d))) eqn:Hk; cbn [negb].
    + destruct (getJSON_ok (storage_key (VObj d)) w1 (Hd eq_refl)) as [body Hg].
      unfold bind at 1, try_catch, bind at 1. rewrite Hg.
      unfold ret at 1. cbn [fst snd].
      pose proof (unchanged_record (GetJSON (bucket env) (storage_key (VObj d)))
                    None w1 eq_refl) as Hu2.
      set (w2 := record _ w1) in *.
      destruct (IH (validated + 1) failures w2) as (w' & Hrun & Hu' & Hc); [done|].
      exists w'. rewrite Hrun. split; [|split].
      * cbn [length]. by rewrite Nat2Z.inj_succ, <- Z.add_1_l, Z.add_assoc.
      * eauto using unchanged_trans.
      * by rewrite Hc.
    + destruct (IH validated failures w1) as (w' & Hrun & Hu' & Hc); [done|].
      exists w'. rewrite Hrun. split; [done|]. split; [|by rewrite Hc].
      eauto using unchanged_trans.
Qed.

Lemma validate_loop_one_failure hs1 h hs2 :
  forall validated w,
    Forall (fun d => truthy (storage_key (VObj d)) = true ->
                     readable env (objects w) (storage_key (VObj d)))
      (hs1 ++ hs2) ->
    truthy (storage_key (VObj h)) = true ->
    unreadable env (objects w) (storage_key (VObj h)) ->
    exists w' msg,
      validate_loop env c hc (hs1 ++ h :: hs2) validated [] w
      = (Ret (validated + Z.of_nat (length (with_pointer (hs1 ++ hs2))),
              [id_or_unknown env h]), w') /\
      unchanged w w' /\
      console w' = console w ++ [ValidationFailed c (storage_key (VObj h)) msg].
Proof.
  induction hs1 as [|d hs1 IH]; intros validated w Hall Hk Hbad;
    cbn [validate_loop app]; unfold bind at 1; rewrite call_unfold, cursor_ok;
    cbn [effect];
    pose proof (unchanged_record (HasNext hc) None w eq_refl) as Hu;
    set (w1 := record _ w) in *.
  - rewrite Hk. cbn [negb].
    destruct (getJSON_fail (storage_key (VObj h)) w1 Hbad) as (e & o & Hg).
    unfold bind at 1, try_catch, bind at 1. rewrite Hg.
    unfold bind at 1, say at 1, ret at 1. cbn [fst snd app].
    pose proof (unchanged_record (GetJSON (bucket env) (storage_key (VObj h)))
                  o w1 eq_refl) as Hu2.
    set (w2 := record _ w1) in *.
    set (w3 := {| objects := objects w2; collections := collections w2;
                  counters := counters w2; trace := trace w2;
                  console := console w2 ++ [_] |}).
    destruct (validate_loop_readable hs2 validated [id_or_unknown env h] w3)
      as (w' & Hrun & Hu' & Hc); [done|].
    exists w', (message e). rewrite Hrun. split; [done|]. split.
    + eapply unchanged_trans; [exact Hu|]. eapply unchanged_trans; [exact Hu2|].
      eapply unchanged_trans; [|exact Hu'].
      repeat split; [exists []; by rewrite app_nil_r | by eexists].
    + by rewrite Hc.
  - apply Forall_cons in Hall as [Hd Hall].
    unfold with_pointer. cbn [List.filter app]. fold (with_pointer (hs1 ++ hs2)).
    destruct (truthy (storage_key (VObj d))) eqn:Hkd; cbn [negb].
    + destruct (getJSON_ok (storage_key (VObj d)) w1 (Hd eq_refl)) as [body Hg].
      unfold bind at 1, try_catch, bind at 1. rewrite Hg.
      unfold ret at 1. cbn [fst snd].
      pose proof (unchanged_record (GetJSON (bucket env) (storage_key (VObj d)))
                    None w1 eq_refl) as Hu2.
      set (w2 := record _ w1) in *.
      destruct (IH (validated + 1) w2) as (w' & msg & Hrun & Hu' & Hc); [done..|].
      exists w', msg. rewrite Hrun. split; [|split].
      * cbn [length]. by rewrite Nat2Z.inj_succ, <- Z.add_1_l, Z.add_assoc.
      * eauto using unchanged_trans.
      * by rewrite Hc.
    + destruct (IH validated w1) as (w' & msg & Hrun & Hu' & Hc); [done..|].
      exists w', msg. rewrite Hrun. split; [done|]. split; [|by rewrite Hc].
      eauto using unchanged_trans.
Qed.

End Validation.

Lemma with_pointer_app l1 l2 :
  with_pointer (l1 ++ l2) = with_pointer l1 ++ with_pointer l2.
Proof. unfold with_pointer. apply List.filter_app. Qed.

Lemma validateCollection_eq c w :
  validateCollection env c w
  = match validate_loop env c (c ++ "_head")%string (heads_of c w) 0 [] w with
    | (Ret st, w1) =>
        match st.2 with
        | [] => say (ValidationPassed st.1) w1
        | fs => say (ValidationCompleted (Z.of_nat (length fs))) w1
        end
    | (Throw e, w1) => (Throw e, w1)
    | (OutOfFuel, w1) => (OutOfFuel, w1)
    end.
Proof.
  unfold validateCollection, bind, read, heads_of.
  destruct (validate_loop _ _ _ _ _ _ _) as [[st| |] w1]; try done.
  by destruct st.2.
Qed.

(** C8, as the code has it: when the object of exactly one head document
    cannot be read back (and the cursor over the heads can), the pass
    warns about that document's collection and key and about no other,
    counts every other head that has a storage pointer as validated,
    prints "completed with 1 failures" -- the passed count is printed only
    when nothing failed --, returns normally, and writes nothing. *)
Theorem validation_with_one_failure (c : string) (w : World)
    (hs1 : list Obj) (h : Obj) (hs2 : list Obj) :
  heads_of c w = hs1 ++ h :: hs2 ->
  (forall tr, fault env tr (HasNext (c ++ "_head")%string) = None) ->
  Forall (fun d => truthy (storage_key (VObj d)) = true ->
                   readable env (objects w) (storage_key (VObj d)))
    (hs1 ++ hs2) ->
  truthy (storage_key (VObj h)) = true ->
  unreadable env (objects w) (storage_key (VObj h)) ->
  exists msg w1,
    validate_loop env c (c ++ "_head")%string (heads_of c w) 0 [] w
    = (Ret (Z.of_nat (length (with_pointer (heads_of c w))) - 1,
            [id_or_unknown env h]), w1) /\
    let run := validateCollection env c w in
    run.1 = Ret tt /\
    console run.2
    = console w ++ [ ValidationFailed c (storage_key (VObj h)) msg;
                     ValidationCompleted 1 ] /\
    objects run.2 = objects w /\
    collections run.2 = collections w /\
    counters run.2 = counters w /\
    exists evs, trace run.2 = trace w ++ evs /\ writes evs = [].
Proof.
  intros Hheads Hcur Hall Hk Hbad.
  destruct (validate_loop_one_failure c Hcur hs1 h hs2 0 w Hall Hk Hbad)
    as (w1 & msg & Hrun & Hu & Hc).
  exists msg, w1.
  assert (Hn : Z.of_nat (length (with_pointer (hs1 ++ h :: hs2))) - 1
               = 0 + Z.of_nat (length (with_pointer (hs1 ++ hs2)))).
  { rewrite !with_pointer_app, !length_app. unfold with_pointer at 2.
    cbn [List.filter]. rewrite Hk. cbn [length]. fold (with_pointer hs2). lia. }
  assert (Hrun' : validate_loop env c (c ++ "_head")%string (heads_of c w) 0 [] w
                  = (Ret (Z.of_nat (length (with_pointer (heads_of c w))) - 1,
                          [id_or_unknown env h]), w1)).
  { rewrite Hheads, Hn. exact Hrun. }
  split; [exact Hrun'|].
  assert (Hv : validateCollection env c w = say (ValidationCompleted 1) w1).
  { by rewrite validateCollection_eq, Hrun'. }
  cbv zeta. rewrite Hv.
  cbn [fst snd say console objects collections counters trace].
  destruct Hu as (Ho & Hcl & Hct & Hev & _).
  rewrite Hc, <- app_assoc. by repeat split.
Qed.

End MigratorFacts.

Import Fixtures.

Lemma record_without_id_skipped_witness :
  get "_id" no_id_record = VUndef /\
  migrateDocument env_x "invoices" no_id_record true once = (Ret None, once).
Proof.
  split; [reflexivity|].
  destruct (record_without_id_skipped env_x "invoices" no_id_record eq_refl)
    as [H _].
  apply H.
Defined.

(** The record without [_id] of the fixture is not among the two that the
    first run counted. *)
Example migrated_total_excludes_it :
  last (console once) = Some (Done 2 3) /\
  heads_of "invoices" once <> [] /\
  length (heads_of "invoices" once) = 2%nat.
Proof. vm_compute. repeat split; discriminate. Qed.

Lemma once_fully_migrated :
  fully_migrated (invoices "invoices") (heads_of "invoices" once).
Proof.
  intros doc Hin Hid.
  destruct Hin as [<-|[<-|[<-|[]]]].
  - exists "invoices/a1.json". split; [vm_compute; reflexivity|done].
  - discriminate.
  - exists "invoices/b2.json". split; [vm_compute; reflexivity|done].
Qed.

Lemma resume_is_idempotent_witness :
  fully_migrated (invoices "invoices") (heads_of "invoices" once) /\
  let twice :=
    (migrateCollection env_x invoices "invoices"
       {| resume := true; validate := true |} once).2 in
  objects twice = objects once /\ collections twice = collections once.
Proof.
  split; [exact once_fully_migrated|].
  destruct (resume_is_idempotent env_x invoices "invoices") as [_ H].
  destruct (H true once once_fully_migrated) as (Ho & Hc & _).
  by split.
Defined.

Lemma two_heads_others_readable :
  Forall (fun d => truthy (storage_key (VObj d)) = true ->
                   readable env_x (objects two_heads) (storage_key (VObj d)))
    ([head "a1" "invoices/a1.json"] ++ []).
Proof.
  constructor; [|constructor]. intros _. split; [|done].
  eexists. vm_compute. reflexivity.
Qed.

Lemma validation_with_one_failure_witness :
  heads_of "invoices" two_heads
  = [head "a1" "invoices/a1.json"] ++ head "b2" "invoices/b2.json" :: [] /\
  truthy (storage_key (VObj (head "b2" "invoices/b2.json"))) = true /\
  unreadable env_x (objects two_heads)
    (storage_key (VObj (head "b2" "invoices/b2.json"))) /\
  (validateCollection env_x "invoices" two_heads).1 = Ret tt /\
  objects (validateCollection env_x "invoices" two_heads).2 = objects two_heads.
Proof.
  assert (Hh : heads_of "invoices" two_heads
               = [head "a1" "invoices/a1.json"] ++ head "b2" "invoices/b2.json" :: [])
    by (vm_compute; reflexivity).
  assert (Hbad : unreadable env_x (objects two_heads)
                   (storage_key (VObj (head "b2" "invoices/b2.json"))))
    by (left; vm_compute; reflexivity).
  split; [exact Hh|]. split; [reflexivity|]. split; [exact Hbad|].
  destruct (validation_with_one_failure env_x "invoices" two_heads
              [head "a1" "invoices/a1.json"] (head "b2" "invoices/b2.json") []
              Hh (fun _ => eq_refl) two_heads_others_readable eq_refl Hbad)
    as (msg & w1 & _ & Hr & _ & Ho & _).
  by split.
Defined.

(** C8 as stated fails: with two head documents and the object of the
    second one deleted, the pass prints the warning and "completed with 1
    failures"; no line reports a passed count of 2 - 1 = 1. *)
Lemma validation_reports_no_passed_count :
  console (validateCollection env_x "invoices" two_heads).2
  = [ ValidationFailed "invoices" (VStr "invoices/b2.json") "NoSuchKey";
      ValidationCompleted 1 ]
  /\ ~ reports_passed (Z.of_nat (length (heads_of "invoices" two_heads)) - 1)
         (console (validateCollection env_x "invoices" two_heads).2).
Proof.
  assert (Hc : console (validateCollection env_x "invoices" two_heads).2
               = [ ValidationFailed "invoices" (VStr "invoices/b2.json") "NoSuchKey";
                   ValidationCompleted 1 ]) by (vm_compute; reflexivity).
  split; [exact Hc|]. rewrite Hc. unfold reports_passed.
  intros [H|[H|[]]]; discriminate.
Qed.

End XronoxFacts.

(* ===================================================================== *)
(** * Further facts about the copy engine *)
(* ===================================================================== *)

Module CloneMore.
Import JS Clone CloneFacts.

(** ** The fault classifier *)

Lemma prefix_app n post : String.prefix n (n +:+ post) = true.
Proof.
  induction n as [|c n IH]; simpl; [by destruct post|].
  destruct (ascii_dec c c); [done|congruence].
Qed.

Lemma prefix_inv n h : String.prefix n h = true -> exists post, h = n +:+ post.
Proof.
  revert h. induction n as [|c n IH]; intros h H; simpl in *.
  - by exists h.
  - destruct h as [|c' h]; [done|]. simpl in H.
    destruct (ascii_dec c c') as [Heq|Hne]; [subst c'|discriminate H].
    destruct (IH h H) as [post ->]. by exists post.
Qed.

Lemma contains_spec n h :
  contains n h = true <-> exists pre post, h = pre +:+ n +:+ post.
Proof.
  split.
  - induction h as [|c h IH]; intros H.
    + change (String.prefix n EmptyString || false = true)%bool in H.
      rewrite orb_false_r in H. apply prefix_inv in H as [post ->].
      by exists EmptyString, post.
    + change (String.prefix n (String c h) || contains n h = true)%bool in H.
      apply orb_true_iff in H as [H|H].
      * apply prefix_inv in H as [post Hp]. by exists EmptyString, post.
      * destruct (IH H) as (pre & post & ->). by exists (String c pre), post.
  - intros (pre & post & ->). induction pre as [|c pre IH].
    + change (EmptyString +:+ n +:+ post) with (n +:+ post).
      assert (Hc : forall h, String.prefix n h = true -> contains n h = true).
      { intros [|c h] Hp; unfold contains; fold contains; by rewrite Hp. }
      apply Hc, prefix_app.
    + change (String.prefix n (String c (pre +:+ n +:+ post))
              || contains n (pre +:+ n +:+ post) = true)%bool.
      by rewrite IH, orb_true_r.
Qed.

(** X1: The pattern of [insertBatch] and [insertIndividually] is unanchored
    and ignores case: a message matches exactly when, letter case apart,
    one of the five alternatives occurs somewhere in it. *)
Theorem network_pattern_spec (m : string) :
  network_pattern m = true <->
  exists alt pre post,
    In alt network_alternatives /\ lower m = pre +:+ lower alt +:+ post.
Proof.
  unfold network_pattern. rewrite existsb_exists. split.
  - intros (alt & Hin & Hc). apply contains_spec in Hc as (pre & post & Hm).
    by exists alt, pre, post.
  - intros (alt & pre & post & Hin & Hm). exists alt. split; [done|].
    apply contains_spec. by exists pre, post.
Qed.

(** ** Options of collections and indexes *)

Lemma get_set_eq k v o : get k (JS.set k v o) = v.
Proof.
  induction o as [|[k' v'] o IH]; simpl.
  - by rewrite String.eqb_refl.
  - destruct (String.eqb k k') eqn:E; simpl; rewrite ?E; [|done].
    by rewrite String.eqb_refl.
Qed.

Lemma get_set_ne k k' v o : k <> k' -> get k (JS.set k' v o) = get k o.
Proof.
  intros Hne. apply String.eqb_neq in Hne.
  induction o as [|[k0 v0] o IH]; simpl.
  - by rewrite Hne.
  - destruct (String.eqb k' k0) eqn:E; simpl.
    + apply String.eqb_eq in E as <-. by rewrite Hne.
    + by rewrite IH.
Qed.

Lemma fold_rules_get index k rules :
  NoDup (map fst rules) ->
  forall acc,
    get k (fold_left
             (fun opts (kr : string * Rule) =>
                if holds kr.2 (get kr.1 index)
                then JS.set kr.1 (get kr.1 index) opts else opts)
             rules acc)
    = match List.find (fun kr : string * Rule => String.eqb k kr.1) rules with
      | Some kr => if holds kr.2 (get k index) then get k index else get k acc
      | None => get k acc
      end.
Proof.
  induction rules as [|[k0 r0] rules IH]; intros Hnd acc; simpl; [done|].
  apply NoDup_cons in Hnd as [Hnin Hnd]. rewrite (IH Hnd).
  destruct (String.eqb k k0) eqn:E.
  - apply String.eqb_eq in E as ->.
    assert (Hnone : List.find (fun kr : string * Rule => String.eqb k0 kr.1) rules
                    = None).
    { destruct (List.find _ rules) as [[k1 r1]|] eqn:Hf; [|done].
      apply List.find_some in Hf as [Hin Heq]. simpl in Heq.
      apply String.eqb_eq in Heq as <-. exfalso. apply Hnin.
      apply list_elem_of_fmap. exists (k0, r1). split; [done|].
      by apply list_elem_of_In. }
    rewrite Hnone. cbn [fst snd]. destruct (holds r0 (get k0 index)); [|done].
    apply get_set_eq.
  - apply String.eqb_neq in E.
    destruct (holds r0 (get k0 index)); [|done].
    by rewrite (get_set_ne k k0).
Qed.

(** X2: [buildIndexOptions] copies the name always, each of the eighteen
    known options exactly when it passes its type or presence test, and
    nothing else (not the key specification, not the index version). *)
Theorem buildIndexOptions_get (index : Obj) (k : string) :
  get k (buildIndexOptions index)
  = if String.eqb k "name" then get "name" index
    else match rule_of k with
         | Some r => if holds r (get k index) then get k index else VUndef
         | None => VUndef
         end.
Proof.
  unfold buildIndexOptions, rule_of. rewrite fold_rules_get.
  2:{ apply (bool_decide_unpack _). by vm_compute. }
  destruct (String.eqb k "name") eqn:E.
  - apply String.eqb_eq in E as ->. reflexivity.
  - destruct (List.find _ index_option_rules) as [[k1 r1]|]; simpl;
      rewrite ?E; [|done].
    by destruct (holds r1 (get k index)).
Qed.

Lemma get_filter_not_nullish o k :
  NoDup (map fst o) ->
  get k (sanitizeOptions o) = if not_nullish (get k o) then get k o else VUndef.
Proof.
  induction o as [|[k0 v0] o IH]; simpl; intros Hnd; [done|].
  apply NoDup_cons in Hnd as [Hnin Hnd].
  destruct (String.eqb k k0) eqn:E.
  - apply String.eqb_eq in E as ->.
    destruct (not_nullish v0) eqn:Hv; simpl; [by rewrite String.eqb_refl|].
    fold (sanitizeOptions o). rewrite (IH Hnd).
    assert (Hg : get k0 o = VUndef).
    { clear -Hnin. induction o as [|[k1 v1] o IH]; simpl; [done|].
      destruct (String.eqb k0 k1) eqn:E.
      - apply String.eqb_eq in E as ->. exfalso. apply Hnin. simpl. by left.
      - apply IH. intros H. apply Hnin. simpl. by right. }
    by rewrite Hg.
  - destruct (not_nullish v0); simpl; rewrite ?E; by apply IH.
Qed.

(** X3: Sanitised collection options hold no null or undefined value, keep
    every other option with its value and in its place, and sanitising
    again changes nothing. *)
Theorem sanitizeOptions_spec (o : Obj) :
  NoDup (map fst o) ->
  Forall (fun kv : string * Value => not_nullish kv.2 = true) (sanitizeOptions o) /\
  (forall k, get k (sanitizeOptions o)
             = if not_nullish (get k o) then get k o else VUndef) /\
  sanitizeOptions (sanitizeOptions o) = sanitizeOptions o /\
  sublist (sanitizeOptions o) o.
Proof.
  intros Hnd. split; [|split; [|split]].
  - apply Forall_forall. intros kv Hin.
    by apply list_elem_of_In, List.filter_In in Hin as [_ H].
  - intros k. by apply get_filter_not_nullish.
  - unfold sanitizeOptions.
    induction o as [|[k v] o IH]; simpl; [done|].
    apply NoDup_cons in Hnd as [_ Hnd].
    destruct (not_nullish v) eqn:Hv; simpl; rewrite ?Hv, ?IH; done.
  - unfold sanitizeOptions. clear Hnd.
    induction o as [|[k v] o IH]; simpl; [done|].
    destruct (not_nullish v); by constructor.
Qed.

Lemma sanitizeOptions_spec_witness :
  NoDup (map fst [("capped", VBool false); ("size", VNull); ("max", VNum 5)]) /\
  sanitizeOptions [("capped", VBool false); ("size", VNull); ("max", VNum 5)]
  = [("capped", VBool false); ("max", VNum 5)] /\
  get "size"
    (sanitizeOptions [("capped", VBool false); ("size", VNull); ("max", VNum 5)])
  = VUndef.
Proof.
  assert (Hnd : NoDup (map fst [("capped", VBool false); ("size", VNull);
                                ("max", VNum 5)]))
    by (apply (bool_decide_unpack _); by vm_compute).
  split; [exact Hnd|]. split; [reflexivity|].
  destruct (sanitizeOptions_spec _ Hnd) as (_ & Hget & _).
  rewrite Hget. reflexivity.
Defined.

(** ** Index replication *)

Lemma requests_app evs1 evs2 :
  requests (evs1 ++ evs2) = requests evs1 ++ requests evs2.
Proof. apply flat_map_app. Qed.

Lemma syncIndexes_loop_run env dest idxs w :
  exists evs,
    syncIndexes_loop env dest idxs w = (Ret tt, replay evs w) /\
    requests evs = index_requests dest idxs.
Proof.
  revert w. induction idxs as [|index rest IH]; intros w.
  - by exists [].
  - cbn [syncIndexes_loop]. unfold index_requests. cbn [List.filter].
    destruct (is_primary_key_index index) eqn:Hpk; cbn [negb].
    + apply IH.
    + unfold bind at 1, try_catch. rewrite call_eq.
      set (req := CreateIndex dest (get "key" index) (buildIndexOptions index)).
      set (w1 := step w (Call req (env (trace w) req))).
      destruct (IH w1) as (evs & Hrun & Hreq).
      exists (Call req (env (trace w) req) :: evs).
      split.
      * destruct (env (trace w) req); unfold ret; by rewrite Hrun.
      * cbn [map]. change (requests (?x :: ?l)) with (requests [x] ++ requests l).
        by rewrite Hreq.
Qed.

(** X4: [syncIndexes] fails only when the indexes of the source cannot be
    read.  Otherwise it returns normally whatever happens to the
    individual [createIndex] calls, having asked once, in the order of the
    source, for every index but the primary-key index, under the name the
    index has at the source. *)
Theorem syncIndexes_best_effort env source (src dest : Namespace) (w : World) :
  exists evs,
    (syncIndexes env source src dest w).2 = replay evs w /\
    match env (trace w) (Indexes src) with
    | Success =>
        (syncIndexes env source src dest w).1 = Ret tt /\
        requests evs
        = Indexes src :: index_requests dest (sourceIndexes source src)
    | Failure e _ =>
        (syncIndexes env source src dest w).1 = Throw e /\
        requests evs = [Indexes src]
    end /\
    Forall (fun req =>
              match req with
              | CreateIndex ns _ opts =>
                  ns = dest /\ get "name" opts <> VStr "_id_" /\
                  exists index, In index (sourceIndexes source src) /\
                    get "name" opts = get "name" index
              | _ => False
              end)
      (index_requests dest (sourceIndexes source src)).
Proof.
  unfold syncIndexes, bind. rewrite call_eq.
  set (w1 := step w _).
  destruct (syncIndexes_loop_run env dest (sourceIndexes source src) w1)
    as (evs & Hrun & Hreq).
  assert (Hnames : Forall (fun req =>
              match req with
              | CreateIndex ns _ opts =>
                  ns = dest /\ get "name" opts <> VStr "_id_" /\
                  exists index, In index (sourceIndexes source src) /\
                    get "name" opts = get "name" index
              | _ => False
              end)
      (index_requests dest (sourceIndexes source src))).
  { apply Forall_forall. intros req Hin.
    apply list_elem_of_In, in_map_iff in Hin as (index & <- & Hin).
    apply List.filter_In in Hin as [Hin Hpk].
    rewrite buildIndexOptions_get. cbn [String.eqb Ascii.eqb Bool.eqb].
    split; [done|]. split; [|by exists index].
    unfold is_primary_key_index in Hpk.
    intros Heq. rewrite Heq in Hpk. done. }
  destruct (env (trace w) (Indexes src)) as [|e m] eqn:Hidx.
  - exists (Call (Indexes src) Success :: evs). rewrite Hrun.
    split; [done|]. split; [|done]. split; [done|].
    change (requests (?x :: ?l)) with (requests [x] ++ requests l).
    by rewrite Hreq.
  - exists [Call (Indexes src) (Failure e m)]. by repeat split.
Qed.

(** ** What reaches the destination *)

Lemma delivered_app ns evs1 evs2 :
  delivered ns (evs1 ++ evs2) = delivered ns evs1 ++ delivered ns evs2.
Proof. apply flat_map_app. Qed.

Lemma docs_at_add_docs (ns n : Namespace) (ds : list Document)
    (s : gmap (string * string) Collection) (tr tr' : list Event) :
  docs_at ns {| dst := add_docs n ds s; trace := tr |}
  = docs_at ns {| dst := s; trace := tr' |} ++ (if decide (n = ns) then ds else []).
Proof.
  unfold docs_at, add_docs. cbn [dst].
  destruct ds as [|d ds].
  - destruct (decide (n = ns)); by rewrite app_nil_r.
  - destruct (decide (n = ns)) as [->|Hne].
    + rewrite lookup_insert_eq. cbn [c_docs].
      by destruct (s !! ns).
    + rewrite lookup_insert_ne by done. by rewrite app_nil_r.
Qed.

Lemma docs_at_step ns w ev :
  allowed_event keeps_documents ev ->
  docs_at ns (step w ev) = docs_at ns w ++ delivered ns [ev].
Proof.
  destruct ev as [req resp|ms]; intros Hk; cbn [allowed_event] in Hk.
  2:{ unfold docs_at, delivered. cbn. by rewrite app_nil_r. }
  unfold step, record, delivered. cbn [flat_map]. rewrite app_nil_r.
  destruct w as [s tr]. cbn [dst trace].
  destruct req; try done; cbn [effect];
    try (unfold docs_at; cbn [dst]; rewrite app_nil_r;
         destruct resp; reflexivity).
  - (* createCollection *)
    rewrite app_nil_r. unfold docs_at. cbn [dst].
    destruct resp; [|done].
    destruct (s !! ns0) eqn:Hs; [done|].
    destruct (decide (ns0 = ns)) as [->|Hne].
    + by rewrite lookup_insert_eq, Hs.
    + by rewrite lookup_insert_ne.
  - apply docs_at_add_docs.
  - apply docs_at_add_docs.
  - (* createIndex *)
    rewrite app_nil_r. unfold docs_at, add_index. cbn [dst].
    destruct resp; [|done].
    destruct (decide (ns0 = ns)) as [->|Hne].
    + rewrite lookup_insert_eq. cbn [c_docs]. by destruct (s !! ns).
    + by rewrite lookup_insert_ne.
Qed.

(** The ledger of a run that drops nothing: the destination collection
    holds what it held, followed by what the run wrote to it. *)
Lemma docs_at_replay ns evs w :
  Forall (allowed_event keeps_documents) evs ->
  docs_at ns (replay evs w) = docs_at ns w ++ delivered ns evs.
Proof.
  revert w. induction evs as [|ev evs IH]; intros w Hall.
  - by rewrite app_nil_r.
  - apply Forall_cons in Hall as [Hev Hall].
    rewrite replay_cons, (IH _ Hall), (docs_at_step _ _ _ Hev).
    change (ev :: evs) with ([ev] ++ evs).
    by rewrite delivered_app, app_assoc.
Qed.

Lemma elem_of_select {A} (mask : list bool) (l : list A) x :
  x ∈ select mask l -> x ∈ l.
Proof.
  revert l. induction mask as [|b mask IH]; intros [|y l] Hx;
    try (destruct b); simpl in Hx; try by apply elem_of_nil in Hx.
  - apply elem_of_cons in Hx as [->|Hx]; [left|right; by apply IH].
  - right. by apply IH.
Qed.

Lemma elem_of_landed resp docs d : d ∈ landed resp docs -> d ∈ docs.
Proof. destruct resp; [done|]. apply elem_of_select. Qed.

Lemma writes_of_delivered ns docs evs d :
  Forall (allowed_event (writes_of ns docs)) evs ->
  d ∈ delivered ns evs -> d ∈ docs.
Proof.
  induction evs as [|ev evs IH]; intros Hall Hd.
  - by apply elem_of_nil in Hd.
  - apply Forall_cons in Hall as [Hev Hall].
    change (ev :: evs) with ([ev] ++ evs) in Hd.
    rewrite delivered_app in Hd. apply elem_of_app in Hd as [Hd|Hd];
      [|by apply IH].
    unfold delivered in Hd. cbn [flat_map] in Hd. rewrite app_nil_r in Hd.
    destruct ev as [[] resp|]; cbn [allowed_event writes_of] in Hev;
      try done; try by apply elem_of_nil in Hd.
    + destruct Hev as [-> ->]. destruct (decide _); [|by apply elem_of_nil in Hd].
      by eapply elem_of_landed.
    + destruct Hev as [-> Hin]. destruct (decide _); [|by apply elem_of_nil in Hd].
      apply elem_of_landed in Hd. by apply list_elem_of_singleton in Hd as ->.
Qed.

Lemma writes_of_weaken ns docs docs' req :
  (forall d, d ∈ docs -> d ∈ docs') ->
  writes_of ns docs req -> not_bulk req -> writes_of ns docs' req.
Proof. destruct req; try done. intros H [-> Hd] _. split; [done|auto]. Qed.

Section Delivery.
Variable env : Env.
Variable gas : nat.

Lemma insertOne_loop_delivers fuel ns doc attempt w :
  attempt <= MAX_RETRIES ->
  exists evs r,
    insertOne_loop env fuel ns doc attempt w = (r, replay evs w) /\
    Forall (allowed_event (fun req => req = InsertOne ns doc)) evs /\
    (r = Ret tt -> doc ∈ delivered ns evs).
Proof.
  revert attempt w. induction fuel as [|fuel IH]; intros attempt w Hle.
  - by exists [], OutOfFuel.
  - cbn [insertOne_loop].
    destruct (attempt <=? MAX_RETRIES) eqn:Hcmp; [|lia].
    unfold try_catch. rewrite call_eq.
    set (w1 := step w _).
    destruct (env (trace w) (InsertOne ns doc)) as [|e m] eqn:Hresp.
    + exists [Call (InsertOne ns doc) Success], (Ret tt).
      split; [done|]. split; [by repeat constructor|].
      intros _. unfold delivered. cbn. rewrite decide_True by done.
      apply list_elem_of_singleton. done.
    + destruct (negb (isNetworkError e) || (attempt >=? MAX_RETRIES))%bool eqn:Hc.
      * exists [Call (InsertOne ns doc) (Failure e m)], (Throw e).
        split; [done|]. split; [by repeat constructor|done].
      * apply orb_false_iff in Hc as [_ Hc].
        unfold bind. rewrite sleep_eq.
        set (w2 := step w1 _).
        destruct (IH (attempt + 1) w2) as (evs & r & Hrun & Hall & Hret); [lia|].
        exists (Call (InsertOne ns doc) (Failure e m)
                :: SetTimeout (backoff attempt) :: evs), r.
        split; [by rewrite Hrun|].
        split; [by repeat constructor|].
        intros Hr. change (?x :: ?y :: evs) with ([x; y] ++ evs).
        rewrite delivered_app. apply elem_of_app. right. by apply Hret.
Qed.

Lemma insertIndividually_delivers ns docs w :
  exists evs r,
    insertIndividually env gas ns docs w = (r, replay evs w) /\
    Forall (allowed_event (fun req => writes_of ns docs req /\ not_bulk req)) evs /\
    (r = Ret tt -> forall d, d ∈ docs -> d ∈ delivered ns evs).
Proof.
  revert w. induction docs as [|doc docs IH]; intros w.
  - exists [], (Ret tt). split; [done|]. split; [done|].
    intros _ d Hd. by apply elem_of_nil in Hd.
  - cbn [insertIndividually]. unfold bind.
    destruct (insertOne_loop_delivers gas ns doc 1 w) as (evs1 & r1 & Hrun1 & Hall1 & Hret1);
      [done|].
    rewrite Hrun1.
    assert (Hall1' : Forall (allowed_event
              (fun req => writes_of ns (doc :: docs) req /\ not_bulk req)) evs1).
    { eapply Forall_impl; [exact Hall1|]. intros [req resp|]; [|done].
      cbn [allowed_event]. intros ->. split; [|done]. split; [done|]. by left. }
    destruct r1 as [[]|e|].
    + destruct (IH (replay evs1 w)) as (evs2 & r & Hrun2 & Hall2 & Hret2).
      exists (evs1 ++ evs2), r. rewrite replay_app.
      split; [done|]. split.
      { apply Forall_app. split; [done|].
        eapply Forall_impl; [exact Hall2|]. intros [req resp|]; [|done].
        cbn [allowed_event]. intros [Hw Hnb]. split; [|done].
        eapply writes_of_weaken; [|exact Hw|exact Hnb]. intros d Hd. by right. }
      intros Hr d Hd. rewrite delivered_app. apply elem_of_app.
      apply elem_of_cons in Hd as [->|Hd]; [left; by apply Hret1|right; by apply Hret2].
    + exists evs1, (Throw e). by repeat split.
    + exists evs1, OutOfFuel. by repeat split.
Qed.

Lemma insertBatch_rec_delivers fuel ns docs attempt w :
  exists evs r,
    insertBatch_rec env gas fuel ns docs attempt w = (r, replay evs w) /\
    Forall (allowed_event (writes_of ns docs)) evs /\
    (r = Ret tt -> forall d, d ∈ docs -> d ∈ delivered ns evs) /\
    (env (trace w) (InsertMany ns docs) = Success -> (1 <= fuel)%nat ->
     r = Ret tt /\ evs = [Call (InsertMany ns docs) Success]).
Proof.
  revert attempt w. induction fuel as [|fuel IH]; intros attempt w.
  - exists [], OutOfFuel. repeat split; try done; lia.
  - cbn [insertBatch_rec]. unfold try_catch. rewrite call_eq.
    set (w1 := step w _).
    destruct (env (trace w) (InsertMany ns docs)) as [|e m] eqn:Hresp.
    + exists [Call (InsertMany ns docs) Success], (Ret tt).
      split; [done|]. split; [by repeat constructor|].
      split; [|done].
      intros _ d Hd. unfold delivered. cbn. rewrite decide_True by done.
      by rewrite app_nil_r.
    + destruct (negb (isNetworkError e) || (attempt >=? MAX_RETRIES))%bool.
      * destruct (insertIndividually_delivers ns docs w1)
          as (evs & r & Hrun & Hall & Hret).
        exists (Call (InsertMany ns docs) (Failure e m) :: evs), r.
        split; [by rewrite Hrun|].
        split.
        { constructor; [done|].
          eapply Forall_impl; [exact Hall|]. intros [req resp|]; [|done].
          cbn [allowed_event]. tauto. }
        split; [|done].
        intros Hr d Hd. change (?x :: evs) with ([x] ++ evs).
        rewrite delivered_app. apply elem_of_app. right. by apply Hret.
      * unfold bind. rewrite sleep_eq, ping_eq.
        set (w3 := step (step w1 _) _).
        destruct (IH (attempt + 1) w3) as (evs & r & Hrun & Hall & Hret & _).
        exists (Call (InsertMany ns docs) (Failure e m)
                :: SetTimeout (backoff attempt)
                :: Call (Ping ns.1)
                     (env (trace (step w1 (SetTimeout (backoff attempt)))) (Ping ns.1))
                :: evs), r.
        split; [by rewrite Hrun|].
        split; [by repeat constructor|].
        split; [|done].
        intros Hr d Hd. change (?x :: ?y :: ?z :: evs) with ([x; y; z] ++ evs).
        rewrite delivered_app. apply elem_of_app. right. by apply Hret.
Qed.

Lemma writes_of_keeps ns docs req : writes_of ns docs req -> keeps_documents req.
Proof. by destruct req. Qed.

(** X5: Writing a batch loses nothing, whatever the faults: the collection
    keeps what it held and gains only documents of the batch; and when the
    write returns normally every document of the batch is there. *)
Theorem insertBatch_delivers (ns : Namespace) (docs : list Document)
    (attempt : Z) (w : World) :
  exists added,
    docs_at ns (insertBatch env gas ns docs attempt w).2
    = docs_at ns w ++ added /\
    (forall d, d ∈ added -> d ∈ docs) /\
    ((insertBatch env gas ns docs attempt w).1 = Ret tt ->
     forall d, d ∈ docs -> d ∈ added) /\
    (forall other, other <> ns ->
       dst (insertBatch env gas ns docs attempt w).2 !! other = dst w !! other).
Proof.
  unfold insertBatch.
  destruct (insertBatch_rec_delivers gas ns docs attempt w)
    as (evs & r & Hrun & Hall & Hret & _).
  rewrite Hrun. cbn [fst snd].
  exists (delivered ns evs).
  split.
  { apply docs_at_replay. eapply Forall_impl; [exact Hall|].
    intros [req resp|]; [|done]. apply writes_of_keeps. }
  split; [intros d; by apply writes_of_delivered|].
  split; [done|].
  intros other Hne. apply replay_frame.
  eapply Forall_impl; [exact Hall|]. intros [req resp|]; [|done].
  cbn [allowed_event]. intros Hw Hm.
  destruct req; cbn in Hw, Hm; try done; destruct Hw as [-> _]; congruence.
Qed.

End Delivery.

Lemma delivered_reads ns evs :
  Forall (allowed_event
            (fun req => match req with
                        | InsertMany _ _ | InsertOne _ _ => False
                        | _ => True
                        end)) evs ->
  delivered ns evs = [].
Proof.
  induction evs as [|ev evs IH]; [done|]. intros Hall.
  apply Forall_cons in Hall as [Hev Hall].
  change (ev :: evs) with ([ev] ++ evs). rewrite delivered_app, (IH Hall).
  by destruct ev as [[] ?|].
Qed.

Section CollectionCopy.
Variable env : Env.
Variable source : Source.
Variable gas : nat.
Variable src dest : Namespace.

Let docs := sourceDocuments source src.

Hypothesis Hkeys : Forall has_key docs.
Hypothesis Hnodup : NoDup (map _id docs).

Lemma cloneCollection_loop_delivers fuel :
  forall seen rest lastId processedDocs w,
    sort_by_id docs = seen ++ rest ->
    match last seen with
    | Some dl => lastId = _id dl
    | None => lastId = None
    end ->
    exists evs r,
      cloneCollection_loop env source gas fuel src dest processedDocs lastId w
      = (r, replay evs w) /\
      Forall (allowed_event keeps_documents) evs /\
      (forall d, d ∈ delivered dest evs -> d ∈ rest) /\
      (r = Ret tt -> forall d, d ∈ rest -> d ∈ delivered dest evs) /\
      (faultless env -> (1 <= gas)%nat -> (length rest < fuel)%nat ->
       r = Ret tt /\ delivered dest evs = rest).
Proof.
  induction fuel as [|fuel IH]; intros seen rest lastId processedDocs w Hsplit Hlast.
  { exists [], OutOfFuel. split; [done|]. split; [done|].
    split; [intros d Hd; by apply elem_of_nil in Hd|]. split; [done|]. lia. }
  cbn [cloneCollection_loop]. unfold bind at 1, find, bind at 1. rewrite call_eq.
  destruct (env (trace w) (Find src lastId)) as [|e m] eqn:Hfind.
  2:{ exists [Call (Find src lastId) (Failure e m)], (Throw e).
      split; [done|]. split; [by repeat constructor|].
      split; [intros d Hd; by apply elem_of_nil in Hd|]. split; [done|].
      intros Hok. by rewrite Hok in Hfind. }
  unfold ret at 1.
  rewrite (find_page_rest source src Hkeys Hnodup seen rest lastId Hsplit Hlast).
  set (w1 := step w (Call (Find src lastId) Success)).
  destruct (take PAGE_SIZE rest) as [|d0 page] eqn:Hpage.
  - exists [Call (Find src lastId) Success], (Ret tt).
    apply take_nil_inv in Hpage as [Hp | ->]; [done|].
    split; [done|]. split; [by repeat constructor|].
    split; [intros d Hd; by apply elem_of_nil in Hd|].
    split; [intros _ d Hd; by apply elem_of_nil in Hd|done].
  - set (pg := d0 :: page) in *.
    assert (Hrest : rest = pg ++ drop PAGE_SIZE rest)
      by (by rewrite <- Hpage, take_drop).
    destruct (insertBatch_rec_delivers env gas gas dest pg 1 w1)
      as (evs1 & r1 & Hrun1 & Hall1 & Hret1 & Hok1).
    assert (Hkeep1 : Forall (allowed_event keeps_documents) evs1).
    { eapply Forall_impl; [exact Hall1|]. intros [req resp|]; [|done].
      apply writes_of_keeps. }
    assert (Hsub1 : forall d, d ∈ delivered dest evs1 -> d ∈ rest).
    { intros d Hd. rewrite Hrest. apply elem_of_app. left.
      by eapply writes_of_delivered. }
    unfold bind at 1. unfold insertBatch. rewrite Hrun1.
    destruct r1 as [[]|e|].
    + unfold bind at 1. rewrite ping_eq.
      set (w3 := step _ _).
      assert (Hlastpg : exists dl, last pg = Some dl) by (by apply last_is_Some).
      destruct Hlastpg as [dl Hdl].
      destruct (IH (seen ++ pg) (drop PAGE_SIZE rest)
                  (next_lastId pg lastId)
                  (processedDocs + Z.of_nat (length pg)) w3)
        as (evs' & r & Hrun & Hkeep & Hsub & Hret & Hok).
      { rewrite Hsplit, <- app_assoc. by rewrite <- Hrest. }
      { rewrite last_app, Hdl. unfold next_lastId. rewrite Hdl.
        assert (Hk : has_key dl).
        { eapply Forall_forall; [exact Hkeys|].
          rewrite <- (sort_by_id_perm docs), Hsplit, Hrest.
          apply elem_of_app. right. apply elem_of_app. left.
          by eapply last_Some_elem_of. }
        destruct Hk as [k ->]. done. }
      exists (Call (Find src lastId) Success :: evs1
              ++ Call (Ping dest.1) (env (trace (replay evs1 w1)) (Ping dest.1))
              :: evs'), r.
      split.
      { rewrite Hrun. f_equal. subst w3 w1.
        by rewrite replay_cons, replay_app, replay_cons. }
      split.
      { constructor; [done|]. apply Forall_app. split; [done|]. by constructor. }
      assert (Hdel : delivered dest
                (Call (Find src lastId) Success :: evs1
                 ++ Call (Ping dest.1) (env (trace (replay evs1 w1)) (Ping dest.1))
                 :: evs')
              = delivered dest evs1 ++ delivered dest evs').
      { change (?x :: ?l ++ ?y :: ?l') with ([x] ++ l ++ [y] ++ l').
        by rewrite !delivered_app. }
      rewrite Hdel.
      split.
      { intros d Hd. apply elem_of_app in Hd as [Hd|Hd]; [by apply Hsub1|].
        rewrite Hrest. apply elem_of_app. right. by apply Hsub. }
      split.
      { intros Hr d Hd. rewrite Hrest in Hd. apply elem_of_app.
        apply elem_of_app in Hd as [Hd|Hd]; [left; by apply Hret1|right; by apply Hret]. }
      intros Hfl Hgas Hlen.
      destruct (Hok1 (Hfl _ _) Hgas) as [_ ->].
      destruct (Hok Hfl Hgas) as [-> Hd'].
      { rewrite Hrest, length_app in Hlen. unfold pg in Hlen. simpl in Hlen. lia. }
      split; [done|]. rewrite Hd'. unfold delivered. cbn [flat_map landed].
      rewrite decide_True by done. rewrite app_nil_r. by rewrite <- Hrest.
    + exists (Call (Find src lastId) Success :: evs1), (Throw e).
      split; [done|]. split; [by constructor|].
      change (?x :: evs1) with ([x] ++ evs1). rewrite delivered_app.
      split; [done|]. split; [done|].
      intros Hfl Hgas _. by destruct (Hok1 (Hfl _ _) Hgas).
    + exists (Call (Find src lastId) Success :: evs1), OutOfFuel.
      split; [done|]. split; [by constructor|].
      change (?x :: evs1) with ([x] ++ evs1). rewrite delivered_app.
      split; [done|]. split; [done|].
      intros Hfl Hgas _. by destruct (Hok1 (Hfl _ _) Hgas).
Qed.

Lemma safeEstimatedCount_reads w :
  exists evs r,
    safeEstimatedCount env source src w = (r, replay evs w) /\
    Forall (allowed_event
              (fun req => match req with
                          | InsertMany _ _ | InsertOne _ _ => False
                          | _ => True
                          end)) evs /\
    Forall (allowed_event keeps_documents) evs /\
    (faultless env -> exists n, r = Ret n).
Proof.
  unfold safeEstimatedCount, try_catch, bind. rewrite call_eq.
  destruct (env (trace w) (EstimatedDocumentCount src)) as [|e m] eqn:H1.
  - exists [Call (EstimatedDocumentCount src) Success],
      (Ret (Z.of_nat (length (sourceDocuments source src)))).
    split; [reflexivity|]. split; [by repeat constructor|].
    split; [by repeat constructor|]. by eexists.
  - rewrite call_eq.
    set (w1 := step w _).
    destruct (env (trace w1) (AggregateCount src)) as [|e' m'] eqn:H2.
    + exists [Call (EstimatedDocumentCount src) (Failure e m);
              Call (AggregateCount src) Success],
        (Ret (Z.of_nat (length (sourceDocuments source src)))).
      split; [reflexivity|]. split; [by repeat constructor|].
      split; [by repeat constructor|]. by eexists.
    + exists [Call (EstimatedDocumentCount src) (Failure e m);
              Call (AggregateCount src) (Failure e' m')], (Throw e').
      split; [reflexivity|]. split; [by repeat constructor|].
      split; [by repeat constructor|]. intros Hfl. by rewrite Hfl in H1.
Qed.

Lemma cloneCollection_ledger w :
  exists evs r,
    cloneCollection env source gas src dest w = (r, replay evs w) /\
    Forall (allowed_event keeps_documents) evs /\
    (forall d, d ∈ delivered dest evs -> d ∈ docs) /\
    (r = Ret tt -> forall d, d ∈ docs -> d ∈ delivered dest evs) /\
    (faultless env -> (length docs < gas)%nat ->
     r = Ret tt /\ delivered dest evs = sort_by_id docs).
Proof.
  destruct (safeEstimatedCount_reads w) as (evs0 & r0 & Hrun0 & Hrd0 & Hk0 & Hok0).
  unfold cloneCollection, bind. rewrite Hrun0.
  destruct r0 as [total|e|].
  - destruct (cloneCollection_loop_delivers gas [] (sort_by_id docs) None 0
                (replay evs0 w))
      as (evs & r & Hrun & Hkeep & Hsub & Hret & Hok); [done|done|].
    exists (evs0 ++ evs), r.
    rewrite replay_app, delivered_app, (delivered_reads _ _ Hrd0). cbn [app].
    split; [done|]. split; [by apply Forall_app|].
    split.
    { intros d Hd. rewrite <- (sort_by_id_perm docs). by apply Hsub. }
    split.
    { intros Hr d Hd. apply Hret; [done|]. by rewrite (sort_by_id_perm docs). }
    intros Hfl Hlen. apply Hok; [done|lia|].
    by rewrite (Permutation_length (sort_by_id_perm docs)).
  - exists evs0, (Throw e). rewrite (delivered_reads _ _ Hrd0).
    split; [done|]. split; [done|].
    split; [intros d Hd; by apply elem_of_nil in Hd|]. split; [done|].
    intros Hfl _. by destruct (Hok0 Hfl).
  - exists evs0, OutOfFuel. rewrite (delivered_reads _ _ Hrd0).
    split; [done|]. split; [done|].
    split; [intros d Hd; by apply elem_of_nil in Hd|]. split; [done|].
    intros Hfl _. by destruct (Hok0 Hfl).
Qed.

(** X6: Copying a collection is at-least-once under any faults: the
    destination keeps what it held, gains only documents of the source,
    and when the copy returns normally every source document is there.
    No other destination collection changes. *)
Theorem cloneCollection_delivers (w : World) :
  exists added,
    docs_at dest (cloneCollection env source gas src dest w).2
    = docs_at dest w ++ added /\
    (forall d, d ∈ added -> d ∈ docs) /\
    ((cloneCollection env source gas src dest w).1 = Ret tt ->
     forall d, d ∈ docs -> d ∈ added) /\
    (forall other, other <> dest ->
       dst (cloneCollection env source gas src dest w).2 !! other
       = dst w !! other).
Proof.
  destruct (cloneCollection_ledger w) as (evs & r & Hrun & Hkeep & Hsub & Hret & _).
  exists (delivered dest evs).
  split; [rewrite Hrun; by apply docs_at_replay|].
  split; [done|]. split; [by rewrite Hrun|].
  intros other Hne.
  apply (emits_frame other (cloneCollection env source gas src dest) w).
  eapply emits_weaken; [|apply emits_cloneCollection].
  intros req. by apply touches_only_other.
Qed.


End CollectionCopy.

Import Fixtures.


Lemma cloneCollection_delivers_witness :
  Forall has_key (sourceDocuments shop orders_ns) /\
  NoDup (map _id (sourceDocuments shop orders_ns)) /\
  forall d, d ∈ sourceDocuments shop orders_ns ->
    d ∈ docs_at orders_ns
          (cloneCollection env_flaky shop 30 orders_ns orders_ns stocked).2.
Proof.
  pose proof orders_keys as [Hk Hn].
  split; [exact Hk|]. split; [exact Hn|].
  destruct (cloneCollection_delivers env_flaky shop 30 orders_ns orders_ns Hk Hn
              stocked) as (added & Heq & _ & Hall & _).
  intros d Hd. rewrite Heq. apply elem_of_app. right.
  apply Hall; [vm_compute; reflexivity|exact Hd].
Defined.


(** ** Time spent backing off *)

Lemma total_delay_app evs1 evs2 :
  total_delay (evs1 ++ evs2) = total_delay evs1 + total_delay evs2.
Proof.
  unfold total_delay. rewrite timeouts_app.
  induction (timeouts evs1) as [|x l IH]; simpl; [done|]. rewrite IH. lia.
Qed.

Lemma retries_delay (n : nat) :
  (1 + n <= 7)%nat ->
  Forall (fun d => 500 <= d <= 18000) (map backoff (attempts_from 1 n)) /\
  fold_right Z.add 0 (map backoff (attempts_from 1 n)) <= 45500.
Proof.
  intros Hn.
  destruct n as [|[|[|[|[|[|[|n]]]]]]]; try lia;
    (split; [repeat (constructor; [by vm_compute|]); constructor
            | by vm_compute]).
Qed.

Section Delays.
Variable env : Env.
Variable gas : nat.
Hypothesis Hgas : (7 <= gas)%nat.

Lemma insertOne_loop_delay ns doc w :
  exists evs r,
    insertOne_loop env gas ns doc 1 w = (r, replay evs w) /\
    Forall (fun d => 500 <= d <= 18000) (timeouts evs) /\
    total_delay evs <= 45500.
Proof.
  destruct (insertOne_loop_shape env gas ns doc 1 w)
    as (fails & final & Hnet & Hlen & Hrun & _).
  { done. } { unfold MAX_RETRIES. lia. }
  exists (single_phase ns doc 1 fails final), (outcome_of final).
  split; [done|].
  destruct (retries_delay (length fails)) as [Hb Hs].
  { unfold MAX_RETRIES in Hlen. lia. }
  unfold total_delay, single_phase.
  rewrite timeouts_app, timeouts_single_rounds. cbn [timeouts flat_map].
  by rewrite app_nil_r.
Qed.

Lemma insertIndividually_delay ns docs w :
  exists evs r,
    insertIndividually env gas ns docs w = (r, replay evs w) /\
    Forall (fun d => 500 <= d <= 18000) (timeouts evs) /\
    total_delay evs <= 45500 * Z.of_nat (length docs).
Proof.
  revert w. induction docs as [|doc docs IH]; intros w.
  - exists [], (Ret tt). by repeat split.
  - cbn [insertIndividually]. unfold bind.
    destruct (insertOne_loop_delay ns doc w) as (evs1 & r1 & Hrun1 & Hb1 & Hs1).
    rewrite Hrun1.
    destruct r1 as [[]|e|].
    + destruct (IH (replay evs1 w)) as (evs2 & r & Hrun2 & Hb2 & Hs2).
      exists (evs1 ++ evs2), r. rewrite replay_app.
      split; [done|]. rewrite timeouts_app, total_delay_app.
      split; [by apply Forall_app|]. cbn [length]. lia.
    + exists evs1, (Throw e). split; [done|]. split; [done|]. cbn [length]. lia.
    + exists evs1, OutOfFuel. split; [done|]. split; [done|]. cbn [length]. lia.
Qed.

(** X8: Every sleep made while writing one batch lasts between 0.5 s and
    18 s, so the cap of 20 s is never reached, and the batch is delayed by
    at most 45.5 s times one more than its size. *)
Theorem insertBatch_delay_bound (ns : Namespace) (docs : list Document)
    (w : World) :
  exists evs,
    (insertBatch env gas ns docs 1 w).2 = replay evs w /\
    Forall (fun d => 500 <= d <= 18000) (timeouts evs) /\
    total_delay evs <= 45500 * (1 + Z.of_nat (length docs)).
Proof.
  unfold insertBatch.
  destruct (insertBatch_shape env gas gas ns docs 1 w)
    as (fails & final & Hnet & Hlen & _ & Hrun).
  { lia. } { unfold MAX_RETRIES. lia. }
  cbv zeta in Hrun.
  destruct (retries_delay (length fails)) as [Hb Hs].
  { unfold MAX_RETRIES in Hlen. lia. }
  assert (Hbulk : Forall (fun d => 500 <= d <= 18000)
                    (timeouts (bulk_phase ns docs 1 fails final)) /\
                  total_delay (bulk_phase ns docs 1 fails final) <= 45500).
  { unfold total_delay, bulk_phase.
    rewrite timeouts_app, timeouts_retry_rounds. cbn [timeouts flat_map].
    by rewrite app_nil_r. }
  destruct Hbulk as [Hb' Hs'].
  destruct final as [|e m].
  - exists (bulk_phase ns docs 1 fails Success). rewrite Hrun.
    split; [done|]. split; [done|]. lia.
  - destruct Hrun as [_ Hrun]. rewrite Hrun.
    destruct (insertIndividually_delay ns docs
                (replay (bulk_phase ns docs 1 fails (Failure e m)) w))
      as (evs2 & r & Hrun2 & Hb2 & Hs2).
    exists (bulk_phase ns docs 1 fails (Failure e m) ++ evs2).
    rewrite Hrun2, replay_app, timeouts_app, total_delay_app.
    split; [done|]. split; [by apply Forall_app|]. lia.
Qed.

End Delays.

Lemma insertBatch_delay_bound_witness :
  (7 <= 7)%nat /\
  total_delay (trace (insertBatch env_down 7 orders_ns [order 1; order 2] 1 fresh).2)
  = 91000 /\
  exists evs,
    (insertBatch env_down 7 orders_ns [order 1; order 2] 1 fresh).2
    = replay evs fresh /\
    total_delay evs <= 45500 * 3.
Proof.
  split; [lia|]. split; [vm_compute; reflexivity|].
  destruct (insertBatch_delay_bound env_down 7 ltac:(lia) orders_ns
              [order 1; order 2] fresh) as (evs & Hrun & _ & Hs).
  exists evs. split; [exact Hrun|exact Hs].
Defined.

(** ** What a run may drop *)

Section Drops.
Variable env : Env.
Variable source : Source.
Variable gas : nat.

Lemma emits_keeps_cloneCollection (allowed : Request -> Prop) src dest w :
  (forall req, keeps_documents req -> allowed req) ->
  emits allowed (cloneCollection env source gas src dest) w.
Proof.
  intros Hk.
  assert (Hloop : forall fuel processedDocs lastId w0,
            emits allowed
              (cloneCollection_loop env source gas fuel src dest processedDocs
                 lastId) w0).
  { induction fuel as [|fuel IH]; intros processedDocs lastId w0; simpl.
    - apply emits_out_of_fuel.
    - apply emits_bind.
      { apply emits_bind; [by apply emits_call, Hk|]. intros; apply emits_ret. }
      intros page w1 _. destruct page as [|d page]; [apply emits_ret|].
      apply emits_bind.
      { apply emits_insertBatch_rec; intros; by apply Hk. }
      intros _ w2 _.
      apply emits_bind; [by apply emits_ping, Hk|]. intros; apply IH. }
  apply emits_bind; [|intros; apply Hloop].
  apply emits_try_catch.
  - apply emits_bind; [by apply emits_call, Hk|]. intros; apply emits_ret.
  - intros. apply emits_bind; [by apply emits_call, Hk|]. intros; apply emits_ret.
Qed.

Lemma emits_keeps_syncIndexes (allowed : Request -> Prop) src dest w :
  (forall req, keeps_documents req -> allowed req) ->
  emits allowed (syncIndexes env source src dest) w.
Proof.
  intros Hk.
  apply emits_bind; [by apply emits_call, Hk|]. intros _ w1 _.
  generalize (sourceIndexes source src). intros idxs. revert w1.
  induction idxs as [|index idxs IH]; intros w1; simpl; [apply emits_ret|].
  destruct (is_primary_key_index index); [apply IH|].
  apply emits_bind; [|intros; apply IH].
  apply emits_try_catch; [by apply emits_call, Hk|]. intros; apply emits_ret.
Qed.

Lemma keeps_drops_within P req : keeps_documents req -> drops_within P req.
Proof. by destruct req. Qed.

Lemma keeps_never_drops req : keeps_documents req -> never_drops_collection req.
Proof. by destruct req. Qed.

Lemma emits_drops_collections_loop (P : string -> Prop) (dbName : string)
    shouldOverwrite skipIdx (names : gset string) scs (w : World) :
  (shouldOverwrite = true -> P dbName) ->
  emits (drops_within P)
    (collections_loop env source gas dbName shouldOverwrite skipIdx names scs) w.
Proof.
  intros Hso. revert names w.
  induction scs as [|sc scs IH]; intros names w; simpl.
  - apply emits_ret.
  - destruct (String.eqb (name (info sc)) EmptyString); [by apply IH|].
    set (cn := name (info sc)).
    destruct (negb shouldOverwrite && bool_decide (cn ∈ names))%bool eqn:Hskip;
      [by apply IH|].
    apply emits_bind.
    { destruct (bool_decide (cn ∈ names)) eqn:Hin; [|apply emits_ret].
      apply emits_bind; [|intros; apply emits_ret].
      apply emits_call. cbn. apply Hso.
      rewrite andb_true_r in Hskip. by destruct shouldOverwrite. }
    intros names1 w1 _.
    apply emits_bind.
    { destruct (bool_decide (cn ∈ names1)); [apply emits_ret|].
      apply emits_bind; [|intros; apply emits_ret].
      apply emits_try_catch; [|intros; apply emits_ret].
      by apply emits_call. }
    intros names2 w2 _.
    apply emits_bind.
    { apply emits_keeps_cloneCollection, keeps_drops_within. }
    intros _ w3 _.
    apply emits_bind; [|intros; by apply IH].
    destruct skipIdx; [apply emits_ret|].
    apply emits_keeps_syncIndexes, keeps_drops_within.
Qed.

Lemma emits_drops_databases_loop (overwrite databases : list string)
    (skipIdx : bool) (dbs : list string) (w : World) :
  (forall db, In db dbs -> In db databases) ->
  emits (drops_within (fun db => In db overwrite /\ In db databases))
    (databases_loop env source gas overwrite skipIdx dbs) w.
Proof.
  set (P := fun db => In db overwrite /\ In db databases).
  revert w. induction dbs as [|dbName dbs IH]; intros w Hsub; simpl.
  - apply emits_ret.
  - assert (Hso : includes overwrite dbName = true -> P dbName).
    { intros Hi. split; [by apply includes_true|]. apply Hsub. by left. }
    assert (IH' : forall w1,
              emits (drops_within P)
                (databases_loop env source gas overwrite skipIdx dbs) w1).
    { intros w1. apply IH. intros db Hdb. apply Hsub. by right. }
    apply emits_bind.
    { destruct (includes overwrite dbName) eqn:Hi; [|apply emits_ret].
      apply emits_call. cbn. by apply Hso. }
    intros [] w1 _.
    apply emits_bind; [by apply emits_call|]. intros [] w2 _.
    destruct (source dbName) as [|sc scs]; [apply IH'|].
    apply emits_bind; [by apply emits_call|]. intros [] w3 _.
    apply emits_bind; [|intros; apply IH'].
    apply (emits_drops_collections_loop P dbName (includes overwrite dbName)
             skipIdx (collection_names dbName (dst w3)) (sc :: scs) w3 Hso).
Qed.

(** X9: A run drops nothing but databases that are both queued and marked
    for overwrite, and collections of such databases. *)
Theorem cloneDatabases_drops_only_overwritten (deps : Dependencies) (w : World) :
  emits (drops_within
           (fun db => In db (overwrite deps) /\ In db (databases deps)))
    (cloneDatabases env source gas deps) w.
Proof. by apply emits_drops_databases_loop. Qed.

Lemma emits_collections_loop_no_drop (dbName : string) shouldOverwrite skipIdx
    (names : gset string) (scs : list SourceCollection) (w : World) :
  NoDup (map (fun sc => name (info sc)) scs) ->
  (shouldOverwrite = true ->
   forall sc, In sc scs -> name (info sc) ∉ names) ->
  emits never_drops_collection
    (collections_loop env source gas dbName shouldOverwrite skipIdx names scs) w.
Proof.
  revert names w.
  induction scs as [|sc scs IH]; intros names w Hnd Hinv; simpl.
  - apply emits_ret.
  - apply NoDup_cons in Hnd as [Hnin Hnd].
    assert (Hinv' : shouldOverwrite = true ->
                    forall sc', In sc' scs -> name (info sc') ∉ names).
    { intros Hso sc' Hin. apply Hinv; [done|by right]. }
    destruct (String.eqb (name (info sc)) EmptyString); [by apply IH|].
    set (cn := name (info sc)) in *.
    destruct (negb shouldOverwrite && bool_decide (cn ∈ names))%bool eqn:Hskip;
      [by apply IH|].
    assert (Hout : bool_decide (cn ∈ names) = false).
    { destruct shouldOverwrite; [|done].
      apply bool_decide_eq_false. apply Hinv; [done|by left]. }
    rewrite Hout.
    apply emits_bind; [apply emits_ret|].
    intros names1 w1 Hn1. injection Hn1 as <- <-.
    rewrite Hout.
    apply emits_bind.
    { apply emits_bind; [|intros; apply emits_ret].
      apply emits_try_catch; [|intros; apply emits_ret].
      by apply emits_call. }
    intros names2 w2 Hn2.
    assert (Hnames2 : names2 = {[cn]} ∪ names).
    { unfold bind, try_catch in Hn2.
      destruct (call env _ w) as [[[]|?|] ?]; simpl in Hn2;
        try discriminate; by injection Hn2 as <- _. }
    subst names2.
    assert (Hinv2 : shouldOverwrite = true ->
                    forall sc', In sc' scs -> name (info sc') ∉ {[cn]} ∪ names).
    { intros Hso sc' Hin Hel. apply elem_of_union in Hel as [Hel|Hel].
      - apply elem_of_singleton in Hel. apply Hnin.
        apply list_elem_of_fmap. exists sc'. split; [done|].
        by apply list_elem_of_In.
      - by apply (Hinv' Hso sc' Hin). }
    apply emits_bind.
    { apply emits_keeps_cloneCollection, keeps_never_drops. }
    intros _ w3 _.
    apply emits_bind; [|intros; by apply IH].
    destruct skipIdx; [apply emits_ret|].
    apply emits_keeps_syncIndexes, keeps_never_drops.
Qed.

Lemma collection_names_dropped (db : string)
    (s : gmap (string * string) Collection) (c : string) :
  c ∉ collection_names db
        (filter (fun kv : (string * string) * Collection => kv.1.1 <> db) s).
Proof.
  intros Hc. apply elem_of_collection_names in Hc as [x Hx].
  apply map_lookup_filter_Some in Hx as [_ Hne]. by apply Hne.
Qed.

(** X10: When the collections of every source database have distinct names,
    a run never drops a single collection: an overwritten database is
    dropped as a whole, and the listing read after that names no
    collection that the run has yet to copy. *)
Theorem cloneDatabases_never_drops_collection (deps : Dependencies) (w : World) :
  (forall db, NoDup (source_names source db)) ->
  emits never_drops_collection (cloneDatabases env source gas deps) w.
Proof.
  intros Hnd. unfold cloneDatabases.
  generalize (databases deps). intros dbs. revert w.
  induction dbs as [|dbName dbs IH]; intros w; simpl.
  - apply emits_ret.
  - apply emits_bind.
    { destruct (includes (overwrite deps) dbName); [|apply emits_ret].
      by apply emits_call. }
    intros [] w1 Hw1.
    apply emits_bind; [by apply emits_call|]. intros [] w2 Hw2.
    pose proof (Hnd dbName) as Hnames. unfold source_names in Hnames.
    destruct (source dbName) as [|sc scs]; [apply IH|].
    apply emits_bind; [by apply emits_call|]. intros [] w3 Hw3.
    apply emits_bind; [|intros; apply IH].
    apply (emits_collections_loop_no_drop dbName
             (includes (overwrite deps) dbName) (skipIndexes deps)
             (collection_names dbName (dst w3)) (sc :: scs) w3 Hnames).
    intros Hso sc' _. rewrite Hso in Hw1.
    rewrite call_eq in Hw1, Hw2, Hw3.
    destruct (env (trace w) (DropDatabase dbName)) eqn:H1; [|discriminate].
    destruct (env (trace w1) (ListSourceCollections dbName)) eqn:H2; [|discriminate].
    destruct (env (trace w2) (ListDestinationCollections dbName)) eqn:H3;
      [|discriminate].
    injection Hw1 as <-. injection Hw2 as <-. injection Hw3 as <-.
    cbn [step record dst effect]. apply collection_names_dropped.
Qed.

End Drops.

Lemma cloneDatabases_never_drops_collection_witness :
  (forall db, NoDup (source_names shop db)) /\
  Forall (allowed_event never_drops_collection)
    (trace (cloneDatabases env_ok shop 30
              {| databases := ["shop"]; overwrite := ["shop"];
                 skipIndexes := false |} stocked).2).
Proof.
  assert (Hnd : forall db, NoDup (source_names shop db)).
  { intros db. unfold source_names, shop.
    destruct (String.eqb db "shop"); [|constructor].
    apply (bool_decide_unpack _). by vm_compute. }
  split; [exact Hnd|].
  destruct (cloneDatabases_never_drops_collection env_ok shop 30
              {| databases := ["shop"]; overwrite := ["shop"];
                 skipIndexes := false |} stocked Hnd) as (evs & Hrun & Hall).
  rewrite Hrun, trace_replay. exact Hall.
Defined.

(** ** What a run may create *)

Lemma bind_ret_inv {S A B} (m : M S A) (k : A -> M S B) s b s' :
  bind m k s = (Ret b, s') ->
  exists a s1, m s = (Ret a, s1) /\ k a s1 = (Ret b, s').
Proof.
  unfold bind. destruct (m s) as [[a|e|] s1]; try discriminate.
  intros H. by exists a, s1.
Qed.

Lemma is_Some_add_docs (ns n : Namespace) (ds : list Document)
    (s : gmap (string * string) Collection) :
  is_Some (add_docs n ds s !! ns) -> is_Some (s !! ns) \/ ns = n.
Proof.
  unfold add_docs. destruct ds; [by left|].
  destruct (decide (ns = n)) as [->|Hne]; [by right|].
  rewrite lookup_insert_ne by done. by left.
Qed.

Lemma is_Some_effect (ns : Namespace) (req : Request) (resp : Response)
    (s : gmap (string * string) Collection) :
  is_Some (effect req resp s !! ns) ->
  is_Some (s !! ns) \/
  match req with
  | CreateCollection n _ | InsertMany n _ | InsertOne n _ | CreateIndex n _ _ =>
      ns = n
  | _ => False
  end.
Proof.
  destruct req; cbn [effect]; try (destruct resp; by left).
  - destruct resp; [|by left]. intros [x Hx].
    apply map_lookup_filter_Some in Hx as [Hx _]. left. by eexists.
  - destruct resp; [|by left]. intros [x Hx].
    apply lookup_delete_Some in Hx as [_ Hx]. left. by eexists.
  - destruct resp; [|by left]. destruct (s !! ns0) eqn:Hs; [by left|].
    destruct (decide (ns = ns0)) as [->|Hne]; [by right|].
    rewrite lookup_insert_ne by done. by left.
  - apply is_Some_add_docs.
  - apply is_Some_add_docs.
  - destruct resp; [|by left]. unfold add_index.
    destruct (decide (ns = ns0)) as [->|Hne]; [by right|].
    rewrite lookup_insert_ne by done. by left.
Qed.

Lemma replay_creates_within (source : Source) (dbs : list string)
    (evs : list Event) (w : World) (ns : Namespace) :
  Forall (allowed_event (creates_within source dbs)) evs ->
  is_Some (dst (replay evs w) !! ns) ->
  is_Some (dst w !! ns) \/ (In ns.1 dbs /\ In ns.2 (source_names source ns.1)).
Proof.
  revert w. induction evs as [|ev evs IH]; intros w Hall Hs; [by left|].
  apply Forall_cons in Hall as [Hev Hall]. rewrite replay_cons in Hs.
  destruct (IH _ Hall Hs) as [H|H]; [|by right].
  destruct ev as [req resp|ms]; [|by left].
  cbn [step record dst] in H.
  apply is_Some_effect in H as [H|H]; [by left|].
  right. cbn [allowed_event] in Hev.
  destruct req; try done; by subst.
Qed.

Section Creation.
Variable env : Env.
Variable source : Source.
Variable gas : nat.

Lemma in_source_names db sc scs :
  source db = scs -> In sc scs -> In (name (info sc)) (source_names source db).
Proof.
  intros <- Hin. unfold source_names.
  by apply (in_map (fun sc0 => name (info sc0))).
Qed.

Lemma emits_creates_collections_loop dbs dbName shouldOverwrite skipIdx
    (names : gset string) scs (w : World) :
  In dbName dbs ->
  (forall sc, In sc scs -> In (name (info sc)) (source_names source dbName)) ->
  emits (creates_within source dbs)
    (collections_loop env source gas dbName shouldOverwrite skipIdx names scs) w.
Proof.
  intros Hdb. revert names w.
  induction scs as [|sc scs IH]; intros names w Hscs; simpl.
  - apply emits_ret.
  - assert (Hrest : forall sc', In sc' scs ->
              In (name (info sc')) (source_names source dbName))
      by (intros sc' Hin; apply Hscs; by right).
    destruct (String.eqb (name (info sc)) EmptyString); [by apply IH|].
    set (cn := name (info sc)).
    assert (Hcn : In cn (source_names source dbName)) by (apply Hscs; by left).
    assert (Hw : forall req, touches_only (dbName, cn) req ->
                   creates_within source dbs req).
    { intros req. destruct req; try done; cbn; by intros ->. }
    destruct (negb shouldOverwrite && bool_decide (cn ∈ names))%bool;
      [by apply IH|].
    apply emits_bind.
    { destruct (bool_decide (cn ∈ names)); [|apply emits_ret].
      apply emits_bind; [|intros; apply emits_ret]. by apply emits_call. }
    intros names1 w1 _.
    apply emits_bind.
    { destruct (bool_decide (cn ∈ names1)); [apply emits_ret|].
      apply emits_bind; [|intros; apply emits_ret].
      apply emits_try_catch; [|intros; apply emits_ret].
      by apply emits_call. }
    intros names2 w2 _.
    apply emits_bind.
    { eapply emits_weaken; [exact Hw|apply emits_cloneCollection]. }
    intros _ w3 _.
    apply emits_bind; [|intros; by apply IH].
    destruct skipIdx; [apply emits_ret|].
    eapply emits_weaken; [exact Hw|apply emits_syncIndexes].
Qed.

(** One turn of the loop over the databases, after the optional drop. *)
Lemma emits_creates_databases dbs overwrite skipIdx :
  forall rest,
    (forall db, In db rest -> In db dbs) ->
    (forall w,
       emits (creates_within source dbs)
         (databases_loop env source gas overwrite skipIdx rest) w) /\
    (forall dbName w,
       In dbName dbs ->
       emits (creates_within source dbs)
         (let* _ := call env (ListSourceCollections dbName) in
          match source dbName with
          | [] => databases_loop env source gas overwrite skipIdx rest
          | sourceCollections =>
              let* _ := call env (ListDestinationCollections dbName) in
              let* _ :=
                (fun w =>
                   collections_loop env source gas dbName
                     (includes overwrite dbName) skipIdx
                     (collection_names dbName (dst w)) sourceCollections w) in
              databases_loop env source gas overwrite skipIdx rest
          end) w).
Proof.
  induction rest as [|d rest IH]; intros Hsub.
  - assert (Hloop : forall w,
              emits (creates_within source dbs)
                (databases_loop env source gas overwrite skipIdx []) w)
      by (intros; apply emits_ret).
    split; [exact Hloop|].
    intros dbName w Hdb.
    apply emits_bind; [by apply emits_call|]. intros [] w1 _.
    destruct (source dbName) as [|sc scs] eqn:Hsrc; [apply Hloop|].
    apply emits_bind; [by apply emits_call|]. intros [] w2 _.
    apply emits_bind; [|intros; apply Hloop].
    apply (emits_creates_collections_loop dbs dbName); [done|].
    intros sc' Hin. by eapply in_source_names.
  - destruct IH as [IHloop IHtail].
    { intros db Hdb. apply Hsub. by right. }
    assert (Hloop : forall w,
              emits (creates_within source dbs)
                (databases_loop env source gas overwrite skipIdx (d :: rest)) w).
    { intros w. cbn [databases_loop].
      apply emits_bind.
      { destruct (includes overwrite d); [|apply emits_ret]. by apply emits_call. }
      intros [] w1 _. apply IHtail. apply Hsub. by left. }
    split; [exact Hloop|].
    intros dbName w Hdb.
    apply emits_bind; [by apply emits_call|]. intros [] w1 _.
    destruct (source dbName) as [|sc scs] eqn:Hsrc; [apply Hloop|].
    apply emits_bind; [by apply emits_call|]. intros [] w2 _.
    apply emits_bind; [|intros; apply Hloop].
    apply (emits_creates_collections_loop dbs dbName); [done|].
    intros sc' Hin. by eapply in_source_names.
Qed.

(** X11: A run brings no collection into being but collections of the source
    in the databases it was given: any other collection found at the
    destination afterwards was there before. *)
Theorem cloneDatabases_creates_only_source_collections (deps : Dependencies)
    (w : World) (db c : string) :
  is_Some (dst (cloneDatabases env source gas deps w).2 !! (db, c)) ->
  is_Some (dst w !! (db, c)) \/
  (In db (databases deps) /\ In c (source_names source db)).
Proof.
  unfold cloneDatabases.
  destruct (emits_creates_databases (databases deps) (overwrite deps)
              (skipIndexes deps) (databases deps)) as [Hloop _]; [done|].
  destruct (Hloop w) as (evs & Hrun & Hall). rewrite Hrun.
  apply (replay_creates_within source (databases deps) evs w (db, c) Hall).
Qed.

Lemma overwritten_database_stale_free dbs overwrite skipIdx db :
  includes overwrite db = true ->
  forall rest w w',
    (forall d, In d rest -> In d dbs) ->
    In db rest ->
    databases_loop env source gas overwrite skipIdx rest w = (Ret tt, w') ->
    forall c, is_Some (dst w' !! (db, c)) -> In c (source_names source db).
Proof.
  intros Hov. induction rest as [|d rest IH]; intros w w' Hsub Hin Hrun c Hc;
    [done|].
  assert (Hsub' : forall d', In d' rest -> In d' dbs)
    by (intros d' Hd'; apply Hsub; by right).
  cbn [databases_loop] in Hrun.
  apply bind_ret_inv in Hrun as ([] & w1 & Hdrop & Htail).
  destruct (decide (d = db)) as [->|Hne].
  - (* the database is dropped, then rebuilt from the source *)
    rewrite Hov, call_eq in Hdrop.
    destruct (env (trace w) (DropDatabase db)) eqn:Hresp; [|discriminate].
    injection Hdrop as <-.
    destruct (emits_creates_databases dbs overwrite skipIdx rest Hsub')
      as [_ Ht].
    destruct (Ht db (step w (Call (DropDatabase db) Success)))
      as (evs & Hw' & Hall); [apply Hsub; by left|].
    assert (Hw2 : w' = replay evs (step w (Call (DropDatabase db) Success))).
    { rewrite <- Hw'. symmetry. exact (f_equal snd Htail). }
    subst w'.
    apply (replay_creates_within source dbs evs _ (db, c) Hall) in Hc
      as [Hc|[_ Hc]]; [|done].
    exfalso. cbn [step record dst effect] in Hc. destruct Hc as [x Hx].
    apply map_lookup_filter_Some in Hx as [_ Hx]. by apply Hx.
  - destruct Hin as [?|Hin]; [done|].
    apply bind_ret_inv in Htail as ([] & w2 & _ & Htail).
    destruct (source d) as [|sc scs].
    + by apply (IH w2 w').
    + apply bind_ret_inv in Htail as ([] & w3 & _ & Htail).
      apply bind_ret_inv in Htail as ([] & w4 & _ & Htail).
      by apply (IH w4 w').
Qed.

(** X12: Overwriting leaves nothing stale: after a run that returned normally,
    an overwritten database holds no collection at the destination that
    the source database does not have.  In particular, overwriting with a
    source database that has no collections empties the destination
    database. *)
Theorem cloneDatabases_overwrite_leaves_nothing_stale (deps : Dependencies)
    (w : World) (db : string) :
  In db (databases deps) ->
  includes (overwrite deps) db = true ->
  (cloneDatabases env source gas deps w).1 = Ret tt ->
  (forall c,
     is_Some (dst (cloneDatabases env source gas deps w).2 !! (db, c)) ->
     In c (source_names source db)) /\
  (source db = [] ->
   forall c, dst (cloneDatabases env source gas deps w).2 !! (db, c) = None).
Proof.
  intros Hin Hov Hret.
  assert (Hstale : forall c,
            is_Some (dst (cloneDatabases env source gas deps w).2 !! (db, c)) ->
            In c (source_names source db)).
  { unfold cloneDatabases in *.
    destruct (databases_loop env source gas (overwrite deps) (skipIndexes deps)
                (databases deps) w) as [r w'] eqn:Hrun.
    cbn [fst snd] in *. subst r.
    by apply (overwritten_database_stale_free (databases deps) (overwrite deps)
                (skipIndexes deps) db Hov (databases deps) w w'). }
  split; [exact Hstale|].
  intros Hempty c. apply eq_None_not_Some. intros Hc.
  apply Hstale in Hc. unfold source_names in Hc. by rewrite Hempty in Hc.
Qed.

End Creation.

Lemma cloneDatabases_overwrite_leaves_nothing_stale_witness :
  In "shop" ["shop"] /\
  (cloneDatabases env_ok (fun _ => []) 30
     {| databases := ["shop"]; overwrite := ["shop"]; skipIndexes := false |}
     stocked).1 = Ret tt /\
  dst (cloneDatabases env_ok (fun _ => []) 30
         {| databases := ["shop"]; overwrite := ["shop"]; skipIndexes := false |}
         stocked).2 !! ("shop", "orders") = None.
Proof.
  assert (Hret : (cloneDatabases env_ok (fun _ => []) 30
                    {| databases := ["shop"]; overwrite := ["shop"];
                       skipIndexes := false |} stocked).1 = Ret tt)
    by (vm_compute; reflexivity).
  split; [by left|]. split; [exact Hret|].
  destruct (cloneDatabases_overwrite_leaves_nothing_stale env_ok (fun _ => []) 30
              {| databases := ["shop"]; overwrite := ["shop"];
                 skipIndexes := false |} stocked "shop")
    as [_ Hempty]; [by left|reflexivity|exact Hret|].
  by apply Hempty.
Defined.

Lemma cloneDatabases_creates_only_source_collections_witness :
  is_Some (dst (cloneDatabases env_ok shop 30 shop_run stocked).2
             !! ("shop", "customers")) /\
  (is_Some (dst stocked !! ("shop", "customers")) \/
   (In "shop" (databases shop_run) /\
    In "customers" (source_names shop "shop"))).
Proof.
  assert (H : is_Some (dst (cloneDatabases env_ok shop 30 shop_run stocked).2
                         !! ("shop", "customers")))
    by (apply (bool_decide_unpack _); vm_compute; reflexivity).
  split; [exact H|].
  exact (cloneDatabases_creates_only_source_collections env_ok shop 30 shop_run
           stocked "shop" "customers" H).
Defined.

End CloneMore.

(* ===================================================================== *)
(** * Further facts about the prompts and the wizard *)
(* ===================================================================== *)

Module CliMore.
Import JS Prompts Cli.

(** ** Conflict resolution *)

Lemma promptConflictResolution_loop_spec (user : User) (dbs : list string) :
  forall asked ov sk,
  exists ov' sk' prompts c,
    promptConflictResolution_loop user asked ov sk dbs
    = ({| overwrite := ov ++ ov'; skip := sk ++ sk'; cancelled := c |},
       asked ++ prompts) /\
    prompts `prefix_of` dbs /\
    ov' `sublist_of` dbs /\ sk' `sublist_of` dbs /\
    (c = false -> prompts = dbs /\ ov' ++ sk' ≡ₚ dbs) /\
    (c = true ->
     exists before db,
       prompts = before ++ [db] /\ ov' ++ sk' ≡ₚ before /\
       user (asked ++ before) db = Cancel) /\
    (forall db, In db ov' -> exists before, user before db = Overwrite) /\
    (forall db, In db sk' -> exists before, user before db = Skip).
Proof.
  induction dbs as [|d dbs IH]; intros asked ov sk; cbn [promptConflictResolution_loop].
  - exists [], [], [], false. rewrite !app_nil_r.
    split; [done|]. split; [done|]. split; [done|]. split; [done|].
    split; [done|]. split; [done|]. split; intros db [].
  - destruct (user asked d) eqn:Hans.
    + destruct (IH (asked ++ [d]) (ov ++ [d]) sk)
        as (ov' & sk' & prompts & c & Hrun & Hpre & Hso & Hss & Hf & Ht & Ho & Hs).
      exists (d :: ov'), sk', (d :: prompts), c.
      rewrite Hrun, <- !app_assoc. cbn [app].
      split; [done|]. split; [by apply prefix_cons|].
      split; [by apply sublist_skip|]. split; [by apply sublist_cons|].
      split.
      { intros Hc. destruct (Hf Hc) as [-> Hp]. split; [done|].
        cbn [app]. by rewrite Hp. }
      split.
      { intros Hc. destruct (Ht Hc) as (before & db & -> & Hp & Hcan).
        exists (d :: before), db. split; [done|].
        split; [cbn [app]; by rewrite Hp|].
        by rewrite <- app_assoc in Hcan. }
      split; [|done].
      intros db [<-|Hin]; [by exists asked|by apply Ho].
    + destruct (IH (asked ++ [d]) ov (sk ++ [d]))
        as (ov' & sk' & prompts & c & Hrun & Hpre & Hso & Hss & Hf & Ht & Ho & Hs).
      exists ov', (d :: sk'), (d :: prompts), c.
      rewrite Hrun, <- !app_assoc. cbn [app].
      split; [done|]. split; [by apply prefix_cons|].
      split; [by apply sublist_cons|]. split; [by apply sublist_skip|].
      split.
      { intros Hc. destruct (Hf Hc) as [-> Hp]. split; [done|].
        by rewrite <- Permutation_middle, Hp. }
      split.
      { intros Hc. destruct (Ht Hc) as (before & db & -> & Hp & Hcan).
        exists (d :: before), db. split; [done|].
        split; [by rewrite <- Permutation_middle, Hp|].
        by rewrite <- app_assoc in Hcan. }
      split; [done|].
      intros db [<-|Hin]; [by exists asked|by apply Hs].
    + exists [], [], [d], true. rewrite !app_nil_r.
      split; [done|]. split; [by apply prefix_cons, prefix_nil|].
      split; [apply sublist_nil_l|]. split; [apply sublist_nil_l|].
      split; [done|].
      split.
      { intros _. exists [], d. rewrite app_nil_r. by repeat split. }
      split; intros db [].
Qed.

(** X13: The conflict prompts ask about the conflicting databases in order
    and stop at the first "cancel".  Answered to the end, they sort every
    conflicting database into exactly one of the two lists, keeping the
    order; cancelled, they have sorted the databases asked before.  A
    database is listed for overwrite only when the user chose that. *)
Theorem promptConflictResolution_sorts (user : User) (dbs : list string) :
  let res := (promptConflictResolution user dbs).1 in
  let prompts := (promptConflictResolution user dbs).2 in
  prompts `prefix_of` dbs /\
  overwrite res `sublist_of` dbs /\ skip res `sublist_of` dbs /\
  (cancelled res = false ->
   prompts = dbs /\ overwrite res ++ skip res ≡ₚ dbs) /\
  (cancelled res = true ->
   exists before db,
     prompts = before ++ [db] /\ overwrite res ++ skip res ≡ₚ before /\
     user before db = Cancel) /\
  (forall db, In db (overwrite res) -> exists before, user before db = Overwrite) /\
  (forall db, In db (skip res) -> exists before, user before db = Skip).
Proof.
  unfold promptConflictResolution.
  destruct (promptConflictResolution_loop_spec user dbs [] [] [])
    as (ov' & sk' & prompts & c & Hrun & H).
  rewrite Hrun. exact H.
Qed.

(** ** The wizard *)

Lemma relates_bind (R : State -> State -> Prop) (m : M State unit)
    (k : unit -> M State unit) :
  (forall s1 s2 s3, R s1 s2 -> R s2 s3 -> R s1 s3) ->
  relates R m -> (forall a, relates R (k a)) -> relates R (bind m k).
Proof.
  intros Htrans Hm Hk s. unfold bind. specialize (Hm s).
  destruct (m s) as [[a|e|] s1]; cbn [snd] in *; [|done..].
  eapply Htrans; [exact Hm|apply Hk].
Qed.

Lemma relates_try_catch (R : State -> State -> Prop) (m : M State unit)
    (h : Error -> M State unit) :
  (forall s1 s2 s3, R s1 s2 -> R s2 s3 -> R s1 s3) ->
  relates R m -> (forall e, relates R (h e)) -> relates R (try_catch m h).
Proof.
  intros Htrans Hm Hh s. unfold try_catch. specialize (Hm s).
  destruct (m s) as [[a|e|] s1]; cbn [snd] in *; [done| |done].
  eapply Htrans; [exact Hm|apply Hh].
Qed.

Lemma same_world_trans s1 s2 s3 :
  same_world s1 s2 -> same_world s2 s3 -> same_world s1 s3.
Proof. unfold same_world. congruence. Qed.


Section Primitives.
Variable inp : Inputs.

Lemma quiet_ret : relates same_world (ret tt).
Proof. by intros s. Qed.
Lemma quiet_say l : relates same_world (say l).
Proof. by intros s. Qed.
Lemma quiet_connect b r : relates same_world (connect b r).
Proof. intros s. unfold connect. by destruct r. Qed.
Lemma quiet_note_asked l : relates same_world (note_asked l).
Proof. by intros s. Qed.


End Primitives.

Ltac walk_with trans prims :=
  repeat first
    [ prims
    | apply relates_bind; [exact trans| |intros []]
    | apply relates_try_catch; [exact trans| |intros ?]
    | progress unfold log, when
    | match goal with
      | |- relates _ (match ?x with _ => _ end) => destruct x
      | |- relates _ (if ?x then _ else _) => destruct x
      end ].

Ltac quiet_prims :=
  first [ apply quiet_ret | apply quiet_say | apply quiet_connect
        | apply quiet_note_asked ].


Section Wizard.
Variable engine : Clone.Dependencies -> M Clone.World unit.
Variable skipIdx : bool.
Variable inp : Inputs.





End Wizard.

Section EngineCall.
Variable engine : Clone.Dependencies -> M Clone.World unit.
Variable skipIdx : bool.
Variable inp : Inputs.

Let P := Sanctioned skipIdx inp.

Lemma once_quiet m : relates same_world m -> calls_once engine P m.
Proof. intros H s. left. apply H. Qed.

Lemma once_bind_l m (k : unit -> M State unit) :
  relates same_world m -> (forall a, calls_once engine P (k a)) ->
  calls_once engine P (bind m k).
Proof.
  intros Hm Hk s. unfold bind. specialize (Hm s). unfold same_world in Hm.
  destruct (m s) as [[a|e|] s1]; cbn [snd] in *; [|by left..].
  rewrite <- Hm. apply Hk.
Qed.

Lemma once_engine deps (k : M State unit) :
  P deps -> relates same_world k ->
  calls_once engine P (bind (on_world (engine deps)) (fun _ => k)).
Proof.
  intros HP Hk s. right. exists deps. split; [done|].
  unfold bind, on_world.
  destruct (engine deps (world s)) as [[[]|e|] w1]; cbn [snd]; [|done..].
  rewrite (Hk _). done.
Qed.

Lemma quiet_connect_fail b e (k : unit -> M State unit) :
  relates same_world (bind (connect b (Some e)) k).
Proof. by intros s. Qed.

Lemma after_resolution_once (selected ov sk : list string) :
  connectSource inp = None -> connectDestination inp = None ->
  (forall db, In db selected ->
     In db (promptDatabaseSelection (ticked inp) (databaseNamesNoConfig inp))) ->
  (forall db, In db selected -> In db (destinationDatabases inp) ->
     ~ In db sk -> In db ov) ->
  (forall db, In db ov ->
     In db (destinationDatabases inp) /\
     exists before, user inp before db = Overwrite) ->
  calls_once engine P (after_resolution engine skipIdx inp selected ov sk).
Proof.
  intros Hcs Hcd Hsel Hconf Hov. unfold after_resolution.
  set (dtc := List.filter (fun name => negb (Clone.includes sk name)) selected).
  assert (Hdtc : forall db, In db dtc <-> In db selected /\ ~ In db sk).
  { intros db. unfold dtc. rewrite List.filter_In, negb_true_iff.
    split; intros [H1 H2]; (split; [done|]).
    - intros Hin. apply CloneFacts.includes_true in Hin. congruence.
    - destruct (Clone.includes sk db) eqn:E; [|done].
      apply CloneFacts.includes_true in E. done. }
  destruct dtc as [|q qs] eqn:Hq;
    [apply once_quiet; walk_with same_world_trans quiet_prims|].
  rewrite <- Hq in *.
  do 6 (apply once_bind_l;
        [walk_with same_world_trans quiet_prims|intros []]).
  destruct (lastDecision inp) eqn:Hd;
    [|apply once_quiet; walk_with same_world_trans quiet_prims].
  apply once_engine; [|walk_with same_world_trans quiet_prims].
  constructor; cbn [Clone.databases Clone.overwrite Clone.skipIndexes].
  - done.
  - done.
  - done.
  - by rewrite Hq.
  - intros db Hdb. apply Hsel. by apply Hdtc.
  - intros db Hdb Hdest. apply List.filter_In. split.
    + apply Hconf; [by apply Hdtc|done|by apply Hdtc].
    + by apply CloneFacts.includes_true.
  - intros db Hdb. apply List.filter_In in Hdb as [Hin Hinc].
    apply CloneFacts.includes_true in Hinc. split; [done|]. by apply Hov.
Qed.

Lemma attempt_once : calls_once engine P (attempt engine skipIdx inp).
Proof.
  unfold attempt.
  destruct (connectSource inp) as [e|] eqn:Hcs.
  { apply once_bind_l; [walk_with same_world_trans quiet_prims|intros []].
    apply once_quiet, quiet_connect_fail. }
  do 3 (apply once_bind_l;
        [walk_with same_world_trans quiet_prims|intros []]).
  destruct (databaseNamesNoConfig inp) as [|n0 ns0] eqn:Hn;
    [apply once_quiet; walk_with same_world_trans quiet_prims|].
  rewrite <- Hn in *.
  set (selected := promptDatabaseSelection (ticked inp) (databaseNamesNoConfig inp)).
  assert (Hsel : forall db, In db selected ->
            In db (promptDatabaseSelection (ticked inp)
                     (databaseNamesNoConfig inp))) by done.
  destruct selected as [|s0 sel] eqn:Hs;
    [apply once_quiet; walk_with same_world_trans quiet_prims|].
  rewrite <- Hs in *.
  do 2 (apply once_bind_l;
        [walk_with same_world_trans quiet_prims|intros []]).
  destruct (connectDestination inp) as [e|] eqn:Hcd;
    [apply once_quiet, quiet_connect_fail|].
  do 2 (apply once_bind_l;
        [walk_with same_world_trans quiet_prims|intros []]).
  set (conflicting := List.filter (Clone.includes (destinationDatabases inp))
                        selected).
  assert (Hconf : forall db, In db conflicting <->
            In db selected /\ In db (destinationDatabases inp)).
  { intros db. unfold conflicting.
    by rewrite List.filter_In, CloneFacts.includes_true. }
  destruct conflicting as [|c0 cs] eqn:Hc.
  - apply once_bind_l; [walk_with same_world_trans quiet_prims|intros []].
    apply after_resolution_once; try done.
    intros db Hdb Hdest _. exfalso. by apply (proj2 (Hconf db)).
  - rewrite <- Hc in *.
    destruct (promptConflictResolution_loop_spec (user inp) conflicting [] [] [])
      as (ov & sk & prompts & c & Hrun & _ & Hso & Hss & Hf & _ & Ho & _).
    fold (promptConflictResolution (user inp) conflicting) in Hrun.
    rewrite Hrun. cbn [app Prompts.overwrite Prompts.skip Prompts.cancelled].
    apply once_bind_l; [walk_with same_world_trans quiet_prims|intros []].
    destruct c; [apply once_quiet; walk_with same_world_trans quiet_prims|].
    do 2 (apply once_bind_l;
          [walk_with same_world_trans quiet_prims|intros []]).
    destruct (Hf eq_refl) as [_ Hperm].
    apply after_resolution_once; try done.
    + intros db Hdb Hdest Hnsk.
      assert (Hin : In db (ov ++ sk)).
      { apply list_elem_of_In. rewrite Hperm. apply list_elem_of_In.
        by apply Hconf. }
      apply in_app_or in Hin as [?|?]; done.
    + intros db Hdb. split; [|by apply Ho].
      apply Hconf. apply list_elem_of_In.
      eapply elem_of_sublist; [|exact Hso]. by apply list_elem_of_In.
Qed.

Lemma runCli_once : calls_once engine P (runCli engine skipIdx inp).
Proof.
  unfold runCli.
  apply once_bind_l; [walk_with same_world_trans quiet_prims|intros []].
  intros s0. unfold try_finally, try_catch.
  pose proof (attempt_once s0) as Ha.
  destruct (attempt engine skipIdx inp s0) as [[[]|e|] s1]; exact Ha.
Qed.

(** X15: Whatever the engine is, the wizard lets it touch the destination at
    most once, and only after the user confirmed with "Y", both
    connections being open.  What is queued was selected and is not a
    database the user chose to skip; what is marked for overwrite is
    queued, exists at the destination, and was chosen for overwrite. *)
Theorem runCli_calls_engine_once (s : State) :
  world (runCli engine skipIdx inp s).2 = world s \/
  exists deps,
    Sanctioned skipIdx inp deps /\
    world (runCli engine skipIdx inp s).2 = (engine deps (world s)).2.
Proof. apply runCli_once. Qed.

End EngineCall.

(** X16: From the prompts to the driver: a run of the tool drops a database,
    or a collection of it, only if that database exists at the
    destination, the user chose "overwrite" for it and confirmed the run
    with "Y". *)
Theorem runCli_drops_only_chosen (env : Clone.Env) (source : Clone.Source)
    (gas : nat) (skipIdx : bool) (inp : Inputs) (w : Clone.World) :
  exists evs,
    world (runCli (Clone.cloneDatabases env source gas) skipIdx inp (initial w)).2
    = Clone.replay evs w /\
    Forall (Clone.allowed_event
              (Clone.drops_within
                 (fun db =>
                    In db (destinationDatabases inp) /\
                    lastDecision inp = Y /\
                    exists before, user inp before db = Overwrite))) evs.
Proof.
  destruct (runCli_once (Clone.cloneDatabases env source gas) skipIdx inp
              (initial w)) as [Hw|(deps & Hs & Hw)].
  - exists []. by split.
  - destruct (CloneMore.emits_drops_databases_loop env source gas
                (Clone.overwrite deps) (Clone.databases deps)
                (Clone.skipIndexes deps) (Clone.databases deps) w)
      as (evs & Hrun & Hall); [done|].
    exists evs. split; [by rewrite Hw|].
    eapply Forall_impl; [exact Hall|].
    intros [req resp|]; [|done]. cbn [Clone.allowed_event].
    destruct Hs as [Hy _ _ _ _ _ Hov].
    destruct req; try done; cbn [Clone.drops_within];
      intros [Ho _]; destruct (Hov _ Ho) as (_ & ? & ?); done.
Qed.

End CliMore.

(* ===================================================================== *)
(** * Further facts about the Xronox migrator *)
(* ===================================================================== *)

Module XronoxMore.
Import JS Xronox XronoxFacts.



(** ** Reasoning along a run *)

Section Along.
Context {A B : Type}.
Variable R : World -> World -> Prop.
Hypothesis R_trans : forall w1 w2 w3, R w1 w2 -> R w2 w3 -> R w1 w3.

Lemma along_bind (m : M World A) (k : A -> M World B) w :
  R w (m w).2 ->
  (forall a w1, m w = (Ret a, w1) -> R w1 (k a w1).2) ->
  R w (bind m k w).2.
Proof.
  intros Hm Hk. unfold bind.
  destruct (m w) as [[a|e|] w1] eqn:Hmw; cbn [snd] in *; [|done..].
  eapply R_trans; [exact Hm|]. by apply Hk.
Qed.


End Along.



Section Uploads.
Variable env : Env.
Variable source : string -> list Obj.
Hypothesis uuid_usable : forall tr, blank (randomUUID env tr) = false.











End Uploads.

(** ** Storage pointers *)

Lemma along_bind_keep {A B} (R : World -> World -> Prop)
    (m : M World A) (k : A -> M World B) w :
  (forall w1 w2 w3, R w1 w2 -> R w2 w3 -> R w1 w3) ->
  R w (m w).2 ->
  (forall a w1, m w = (Ret a, w1) -> R w w1 -> R w1 (k a w1).2) ->
  R w (bind m k w).2.
Proof.
  intros R_trans Hm Hk. unfold bind.
  destruct (m w) as [[a|e|] w1] eqn:Hmw; cbn [snd] in *; [|done..].
  eapply R_trans; [exact Hm|]. by apply Hk.
Qed.

Lemma resolves_mono (objs objs' : gmap string Value) (doc : Obj) :
  (forall k, is_Some (objs !! k) -> is_Some (objs' !! k)) ->
  resolves objs doc -> resolves objs' doc.
Proof.
  intros Hk Hr Ht. specialize (Hr Ht). unfold stored in *.
  destruct (storage_key (VObj doc)); try done. by apply Hk.
Qed.

Lemma sound_refl w : sound w w.
Proof. by split. Qed.

Lemma sound_trans w1 w2 w3 : sound w1 w2 -> sound w2 w3 -> sound w1 w3.
Proof. intros [Hk1 Hp1] [Hk2 Hp2]. split; auto. Qed.

Lemma sound_same w w' :
  objects w' = objects w -> collections w' = collections w -> sound w w'.
Proof.
  intros Ho Hc. split; [by rewrite Ho|].
  intros Hp c. rewrite Ho, Hc. apply Hp.
Qed.

Lemma unchanged_sound w w' : unchanged w w' -> sound w w'.
Proof. intros (Ho & Hc & _). by apply sound_same. Qed.

Lemma Forall_replaceOne (P : Obj -> Prop) id doc docs :
  P doc -> Forall P docs -> Forall P (replaceOne id doc docs).
Proof.
  intros Hd. induction 1 as [|d docs Hx Hall IH]; cbn [replaceOne].
  - by constructor.
  - destruct (has_id id d); by constructor.
Qed.

Section Pointers.
Variable env : Env.
Variable source : string -> list Obj.

Lemma sound_call req w :
  match req with ReplaceOne _ _ _ => False | _ => True end ->
  sound w (call env req w).2.
Proof.
  intros Hreq. rewrite call_unfold.
  destruct (fault env (trace w) req) as [e|]; cbn [snd]; [by apply sound_same|].
  destruct req; try done; try by apply sound_same.
  (* putJSON *)
  assert (Hk : forall k, is_Some (objects w !! k) ->
                 is_Some (<[key := payload]> (objects w) !! k)).
  { intros k Hs. apply lookup_insert_is_Some'. by right. }
  split; [exact Hk|].
  intros Hp c. cbn [record effect objects collections].
  eapply Forall_impl; [apply (Hp c)|]. intros doc. by apply resolves_mono.
Qed.

Lemma sound_replaceOne c id doc w :
  resolves (objects w) doc ->
  sound w (call env (ReplaceOne c id doc) w).2.
Proof.
  intros Hd. rewrite call_unfold.
  destruct (fault env (trace w) _) as [e|]; cbn [snd]; [by apply sound_same|].
  split; [done|].
  intros Hp c'. cbn [record effect objects collections].
  destruct (decide (c' = c)) as [->|Hne].
  - rewrite lookup_insert_eq. cbn [default]. apply Forall_replaceOne; [done|apply Hp].
  - rewrite lookup_insert_ne by done. apply Hp.
Qed.

Lemma sound_say l w : sound w (say l w).2.
Proof. by apply sound_same. Qed.

Lemma storage_key_set_id v (doc : Obj) :
  storage_key (VObj (JS.set "id" v doc)) = storage_key (VObj doc).
Proof.
  unfold storage_key. cbn [field]. by rewrite CloneMore.get_set_ne.
Qed.

Lemma sound_migrateDocument c doc resume w :
  sound w (migrateDocument env c doc resume w).2.
Proof.
  unfold migrateDocument.
  destruct (negb (truthy (get "_id" doc))); [apply sound_refl|].
  apply along_bind; [apply sound_trans| |].
  { destruct resume; [|apply sound_refl].
    apply along_bind; [apply sound_trans|by apply sound_call|].
    intros _ w1 _. apply sound_refl. }
  intros skip w1 _. destruct skip; [apply sound_refl|].
  apply along_bind; [apply sound_trans| |].
  { destruct (lacks_identifier _); apply sound_refl. }
  intros payload w2 _.
  set (key := jsonKey env c (toString env (get "_id" doc)) 0).
  apply along_bind; [apply sound_trans|by apply sound_call|].
  intros [] w3 Hput.
  assert (Hkey : is_Some (objects w3 !! key)).
  { rewrite call_unfold in Hput.
    destruct (fault env (trace w2) _); [discriminate|].
    injection Hput as Hw3. subst w3. cbn [record effect objects].
    rewrite lookup_insert_eq. by eexists. }
  apply along_bind_keep; [apply sound_trans|by apply sound_call|].
  intros _ w4 _ [Hk4 _]. apply Hk4 in Hkey.
  apply along_bind; [apply sound_trans|apply sound_refl|].
  intros cv w5 Hr5. injection Hr5 as _ Hw5. subst w5.
  apply along_bind; [apply sound_trans|apply sound_refl|].
  intros t1 w6 Hr6. injection Hr6 as _ Hw6. subst w6.
  apply along_bind; [apply sound_trans|apply sound_refl|].
  intros t2 w7 Hr7. injection Hr7 as _ Hw7. subst w7.
  match goal with
  | |- sound _ (bind (call env (ReplaceOne _ _ ?hd)) _ _).2 =>
      set (headDoc := hd);
      assert (Hres : forall objs, is_Some (objs !! key) -> resolves objs headDoc)
  end.
  { intros objs Hs _. subst headDoc.
    destruct (get "id" payload); rewrite ?storage_key_set_id; exact Hs. }
  apply along_bind_keep; [apply sound_trans|by apply sound_replaceOne, Hres|].
  intros _ w8 _ [Hk8 _]. apply Hk8 in Hkey.
  apply along_bind; [apply sound_trans|by apply sound_replaceOne, Hres|].
  intros _ w9 _. apply sound_refl.
Qed.

Lemma sound_migrate_loop c resume total docs :
  forall migrated w, sound w (migrate_loop env c resume total docs migrated w).2.
Proof.
  induction docs as [|doc docs IH]; intros migrated w; cbn [migrate_loop].
  - apply along_bind; [apply sound_trans|by apply sound_call|].
    intros; apply sound_refl.
  - apply along_bind; [apply sound_trans|by apply sound_call|]. intros _ w1 _.
    apply along_bind; [apply sound_trans|apply sound_migrateDocument|].
    intros [idHex|] w2 _; [|apply IH].
    apply along_bind; [apply sound_trans|apply sound_say|]. intros; apply IH.
Qed.

Lemma sound_migrateCollection c options w :
  sound w (migrateCollection env source c options w).2.
Proof.
  unfold migrateCollection.
  apply along_bind; [apply sound_trans|by apply sound_call|]. intros _ w1 _.
  destruct (_ =? 0)%Z; [apply sound_say|].
  do 4 (apply along_bind; [apply sound_trans|by apply sound_call|]; intros _ ? _).
  apply along_bind; [apply sound_trans|apply sound_migrate_loop|]. intros m w6 _.
  apply along_bind; [apply sound_trans|apply sound_say|]. intros _ w7 _.
  destruct (validate options); [|apply sound_refl].
  apply unchanged_sound, validateCollection_unchanged.
Qed.

(** X18: An interrupted migration leaves no dangling pointer: whatever calls
    fail, no object is removed from the bucket, and if every storage
    pointer of the target database named an object before the run, every
    one does after it.  (The object is uploaded before the head document
    that points to it is written.) *)
Theorem migrateCollections_no_dangling_pointer (cs : list string)
    (options : MigrateOptions) (w : World) :
  (forall k, is_Some (objects w !! k) ->
     is_Some (objects (migrateCollections env source cs options w).2 !! k)) /\
  (pointers_ok w ->
   pointers_ok (migrateCollections env source cs options w).2).
Proof.
  change (sound w (migrateCollections env source cs options w).2).
  unfold migrateCollections.
  assert (Hloop : forall n i w0,
            sound w0 (migrateCollections_loop env source n options i cs w0).2).
  { induction cs as [|c cs' IH]; intros n i w0; cbn [migrateCollections_loop].
    - apply sound_refl.
    - apply along_bind; [apply sound_trans|apply sound_say|]. intros _ w1 _.
      apply along_bind; [apply sound_trans|apply sound_migrateCollection|].
      intros; apply IH. }
  specialize (Hloop (Z.of_nat (length cs)) 0 w).
  destruct (migrateCollections_loop env source _ options 0 cs w) as [r w1].
  cbn [snd] in Hloop.
  assert (Hs : sound w1 (call env Shutdown w1).2) by (by apply sound_call).
  destruct (call env Shutdown w1) as [[[]|e|] w2]; cbn [snd] in *;
    by eapply sound_trans.
Qed.

End Pointers.

(** ** Completeness of a run that returns *)






Section Completeness.
Variable env : Env.
Variable source : string -> list Obj.
Variable c : string.
Variable resume : bool.

(** What is required of a storage pointer. *)
Variable Q : Value -> Prop.
Hypothesis Q_new : forall idHex, Q (VStr (jsonKey env c idHex 0)).
Hypothesis Q_skip : resume = true -> forall v, truthy v = true -> Q v.

Let covers (docs : list Obj) (w : World) : Prop :=
  forall doc, In doc docs -> truthy (get "_id" doc) = true ->
    Q (storage_key (findOne (get "_id" doc) (heads_of c w))).

Let keeps (w w' : World) : Prop := forall docs, covers docs w -> covers docs w'.



Lemma keeps_same w w' : collections w' = collections w -> keeps w w'.
Proof.
  intros Hc docs Hcov doc Hin Hid. unfold heads_of. rewrite Hc.
  by apply Hcov.
Qed.

Lemma keeps_call req w :
  match req with ReplaceOne _ _ _ => False | _ => True end ->
  keeps w (call env req w).2.
Proof.
  intros Hreq. rewrite call_unfold.
  destruct (fault env (trace w) req); cbn [snd]; apply keeps_same; [done|].
  by destruct req.
Qed.

Lemma keeps_say l w : keeps w (say l w).2.
Proof. by apply keeps_same. Qed.








End Completeness.


(** ** A run without faults *)

Section Faultless.
Variable env : Env.
Variable source : string -> list Obj.
Hypothesis no_fault : never_fails env.

Lemma faultless_call req w :
  call env req w = (Ret tt, Xronox.record (Call req None) (effect req w)).
Proof. rewrite call_unfold. by rewrite no_fault. Qed.

Lemma succeeds_bind {A B} (m : M World A) (k : A -> M World B) w :
  (exists a w1, m w = (Ret a, w1)) ->
  (forall a w1, m w = (Ret a, w1) -> exists b w2, k a w1 = (Ret b, w2)) ->
  exists b w2, bind m k w = (Ret b, w2).
Proof.
  intros (a & w1 & Hm) Hk. unfold bind. rewrite Hm. by eapply Hk.
Qed.

Lemma migrateDocument_succeeds c doc resume w :
  exists a w', migrateDocument env c doc resume w = (Ret a, w').
Proof.
  unfold migrateDocument.
  destruct (negb (truthy (get "_id" doc))); [by eexists _, _|].
  apply succeeds_bind.
  { destruct resume; [|by eexists _, _].
    unfold bind at 1. rewrite faultless_call. by eexists _, _. }
  intros skip w1 _. destruct skip; [by eexists _, _|].
  apply succeeds_bind.
  { destruct (lacks_identifier _); by eexists _, _. }
  intros payload w2 _.
  repeat (apply succeeds_bind;
          [first [rewrite faultless_call|unfold read]; by eexists _, _
          |intros ? ? _]).
  by eexists _, _.
Qed.

Lemma migrate_loop_succeeds c resume total docs :
  forall migrated w,
    exists a w', migrate_loop env c resume total docs migrated w = (Ret a, w').
Proof.
  induction docs as [|doc docs IH]; intros migrated w; cbn [migrate_loop];
    unfold bind at 1; rewrite faultless_call; cbn [effect].
  - by eexists _, _.
  - apply succeeds_bind; [apply migrateDocument_succeeds|].
    intros [idHex|] w2 _; [|apply IH].
    unfold bind at 1. cbn [say]. apply IH.
Qed.

(** X20: Without faults, migrating a collection with [--validate] into a
    target without dangling pointers returns normally and ends by
    reporting "Validation passed" for every head document that has a
    storage pointer; no dangling pointer has appeared. *)
Theorem validated_migration_passes (c : string) (resume : bool) (w : World) :
  pointers_ok w -> source c <> [] ->
  exists w',
    migrateCollection env source c {| resume := resume; validate := true |} w
    = (Ret tt, w') /\
    last (console w')
    = Some (ValidationPassed
              (Z.of_nat (length (with_pointer (heads_of c w'))))) /\
    pointers_ok w'.
Proof.
  intros Hp Hne. unfold migrateCollection. cbn [Xronox.resume Xronox.validate].
  unfold bind at 1. rewrite faultless_call. cbn [effect].
  destruct (_ =? 0)%Z eqn:Hz.
  { apply Z.eqb_eq in Hz. by destruct (source c). }
  do 4 (unfold bind at 1; rewrite faultless_call; cbn [effect]).
  set (w5 := Xronox.record _ _).
  assert (Hp5 : pointers_ok w5).
  { intros c'. apply (Hp c'). }
  destruct (migrate_loop_succeeds c resume (Z.of_nat (length (source c)))
              (source c) 0 w5) as (migrated & w6 & Hrun).
  pose proof (sound_migrate_loop env c resume (Z.of_nat (length (source c)))
                (source c) 0 w5) as [_ Hp6].
  rewrite Hrun in Hp6. cbn [snd] in Hp6. specialize (Hp6 Hp5).
  unfold bind at 1. rewrite Hrun.
  unfold bind at 1. cbn [say Xronox.validate].
  set (w7 := Build_World _ _ _ _ _).
  assert (Hp7 : pointers_ok w7) by (intros c'; apply (Hp6 c')).
  rewrite validateCollection_eq.
  destruct (validate_loop_readable env c (fun tr => no_fault tr _)
              (heads_of c w7) 0 [] w7) as (w8 & Hv & Hun & Hcon).
  { eapply Forall_impl; [apply (Hp7 (c ++ "_head")%string)|].
    intros d Hd Ht. split; [by apply Hd|]. intros tr. apply no_fault. }
  rewrite Hv. cbn [fst snd say].
  eexists. split; [reflexivity|]. cbn [console heads_of collections objects].
  destruct Hun as (Ho & Hc & _).
  split.
  - rewrite last_snoc. do 2 f_equal. unfold heads_of. rewrite Hc.
    cbn [collections]. apply Z.add_0_l.
  - intros c'. rewrite Ho, Hc. apply (Hp7 c').
Qed.

End Faultless.

(** ** Shutting down the router *)

Section Shutdown.
Variable env : Env.
Variable source : string -> list Obj.











End Shutdown.

Import Fixtures.

Lemma env_x_never_fails : never_fails env_x.
Proof. by intros tr req. Qed.

Lemma empty_target_pointers_ok : pointers_ok empty_target.
Proof. intros c. unfold empty_target. cbn. by rewrite lookup_empty. Qed.


Lemma migrateCollections_no_dangling_pointer_witness :
  pointers_ok empty_target /\
  pointers_ok (migrateCollections env_x invoices ["invoices"]
                 {| resume := false; validate := false |} empty_target).2.
Proof.
  split; [exact empty_target_pointers_ok|].
  apply (migrateCollections_no_dangling_pointer env_x invoices ["invoices"]
           {| resume := false; validate := false |} empty_target).
  exact empty_target_pointers_ok.
Defined.



Lemma validated_migration_passes_witness :
  never_fails env_x /\ pointers_ok empty_target /\ invoices "invoices" <> [] /\
  exists w',
    migrateCollection env_x invoices "invoices"
      {| resume := false; validate := true |} empty_target = (Ret tt, w') /\
    last (console w')
    = Some (ValidationPassed
              (Z.of_nat (length (with_pointer (heads_of "invoices" w'))))).
Proof.
  assert (Hne : invoices "invoices" <> []) by (vm_compute; discriminate).
  split; [exact env_x_never_fails|]. split; [exact empty_target_pointers_ok|].
  split; [exact Hne|].
  destruct (validated_migration_passes env_x invoices env_x_never_fails
              "invoices" false empty_target empty_target_pointers_ok Hne)
    as (w' & Hrun & Hlast & _).
  exists w'. split; [exact Hrun|exact Hlast].
Defined.

End XronoxMore.
